(** * advanced-vector: [RawMemory<T>] and [Vector<T>] of [vector.h]

    A shallow embedding of the two class templates of [vector.h] and the
    properties of the container's specification that can be settled on it.

    - A block of raw memory is a list of slots; a slot holds an element
      value or nothing.  The heap maps block addresses to blocks.
    - [Vector] objects live in a store and are named, since the code
      compares object identities ([this == &rhs]) and mutates [*this] in
      place, also on the way to an exception.
    - Every operation runs in a monad with three outcomes: normal return,
      a C++ exception in flight, and undefined behaviour (a memory access
      outside every block, or the use of an object that is not there).
    - Which operations throw is fixed by a fault plan carried in the world:
      each allocation and each element operation that is allowed to throw
      consumes one entry of the plan.
    - [size_t] counts are natural numbers, and a block of [n] slots is a
      list of length [n].  The byte count of a request, [n * sizeof(T)], is
      computed in [size_t] and wraps above [SIZE_MAX]: a block obtained with
      a wrapped byte count is shorter than [n] slots.  Such a request is
      outside the model, and every call that takes its count from the caller
      is specified for the counts that fit ([request_fits]); a growth request
      is for twice the number of elements that lie in memory.
    - A failing [assert] is undefined behaviour: a build without [NDEBUG]
      aborts there, a build with it runs on into what the assertion
      guards. *)

From stdpp Require Import base option list gmap.
From Stdlib Require Import Lia PeanoNat.

Set Default Proof Using "Type".

(** ** Element types *)

(** What the templates need from [T]: the value a value-initialised and a
    default-initialised object holds, the state a moved-from object is left
    in, the state a move constructor that throws leaves its source in (the
    language promises nothing about it), [sizeof(T)], the three type traits
    the code (or its commented-out [noexcept]) consults, and whether the
    destructor is trivial: the call of a trivial destructor does not end
    the lifetime of the object (C++17), so that the object can still be
    assigned to. *)
Class ElemType (T : Type) := {
  value_init : T;
  default_init : T;
  husk : T → T;
  failed_move : T → T;
  sizeof_T : nat;
  is_nothrow_move_constructible : bool;
  is_copy_constructible : bool;
  is_nothrow_move_assignable : bool;
  is_trivially_destructible : bool
}.

(** ** Memory, objects and the world *)

Definition addr := nat.
Definition var := nat.

(** [nullptr + offset] is a pointer too: it may be formed and compared, not
    dereferenced. *)
Record ptr := Ptr { base : option addr; off : nat }.

Definition ptr_add (p : ptr) (k : nat) : ptr := Ptr (base p) (off p + k).

Record RawMemory := mkRawMemory { buffer_ : option addr; capacity_ : nat }.

Record Vector := mkVector { data_ : RawMemory; size_ : nat }.

Inductive event (T : Type) :=
| EvAlloc (a : addr) (n : nat)
| EvFree (a : addr)
| EvCtor (v : T)
| EvCopy (v : T)
| EvMove (v : T)
| EvAssign (v : T)
| EvDtor (v : T).
Arguments EvAlloc {T}.
Arguments EvFree {T}.
Arguments EvCtor {T}.
Arguments EvCopy {T}.
Arguments EvMove {T}.
Arguments EvAssign {T}.
Arguments EvDtor {T}.

Record world (T : Type) := World {
  heap : gmap addr (list (option T));
  brk : addr;
  objs : gmap var Vector;
  faults : list bool;
  lost : list T;
  trace : list (event T)
}.
Arguments World {T}.
Arguments heap {T}.
Arguments brk {T}.
Arguments objs {T}.
Arguments faults {T}.
Arguments lost {T}.
Arguments trace {T}.

Inductive outcome (T A : Type) :=
| Ret (a : A) (w : world T)
| Exn (w : world T)
| Undef.
Arguments Ret {T A}.
Arguments Exn {T A}.
Arguments Undef {T A}.

Definition M (T A : Type) := world T → outcome T A.

Definition ret {T A} (a : A) : M T A := fun w => Ret a w.
Definition throw {T A} : M T A := fun w => Exn w.
Definition undef {T A} : M T A := fun _ => Undef.

Definition bind {T A B} (m : M T A) (k : A → M T B) : M T B :=
  fun w => match m w with
           | Ret a w' => k a w'
           | Exn w' => Exn w'
           | Undef => Undef
           end.

Notation "'let*' x ':=' m 'in' k" := (bind m (fun x => k))
  (at level 10, x pattern, m at level 100, k at level 200).
Notation "m '>>>' k" := (bind m (fun _ => k))
  (at level 100, k at level 200, right associativity).

(** [try { m } catch (...) { h; throw; }] *)
Definition catch_rethrow {T A} (m : M T A) (h : M T unit) : M T A :=
  fun w => match m w with
           | Exn w' => (h >>> throw) w'
           | r => r
           end.

Section Machine.
Context {T : Type} `{ElemType T}.

Definition set_heap (h : gmap addr (list (option T))) (w : world T) :=
  World h (brk w) (objs w) (faults w) (lost w) (trace w).
Definition set_brk (b : addr) (w : world T) :=
  World (heap w) b (objs w) (faults w) (lost w) (trace w).
Definition set_objs (o : gmap var Vector) (w : world T) :=
  World (heap w) (brk w) o (faults w) (lost w) (trace w).
Definition set_faults (f : list bool) (w : world T) :=
  World (heap w) (brk w) (objs w) f (lost w) (trace w).
Definition add_lost (l : list T) (w : world T) :=
  World (heap w) (brk w) (objs w) (faults w) (lost w ++ l) (trace w).
Definition emit (es : list (event T)) (w : world T) :=
  World (heap w) (brk w) (objs w) (faults w) (lost w) (trace w ++ es).

(** *** Faults *)

(** An operation that may throw takes the next entry of the plan; an
    exhausted plan lets everything succeed. *)
Definition tick : M T unit :=
  fun w => match faults w with
           | [] => Ret () w
           | false :: fs => Ret () (set_faults fs w)
           | true :: fs => Exn (set_faults fs w)
           end.

Definition may_throw (b : bool) : M T unit := if b then tick else ret ().

Definition log (e : event T) : M T unit := fun w => Ret () (emit [e] w).

(** *** Slots *)

Definition peek (p : ptr) : M T T :=
  fun w => match base p with
           | Some a =>
               match heap w !! a with
               | Some blk =>
                   match blk !! off p with
                   | Some (Some v) => Ret v w
                   | _ => Undef
                   end
               | None => Undef
               end
           | None => Undef
           end.

(** What a slot held before it is overwritten, [None] for a free slot. *)
Definition poke (p : ptr) (s : option T) : M T (option T) :=
  fun w => match base p with
           | Some a =>
               match heap w !! a with
               | Some blk =>
                   match blk !! off p with
                   | Some old => Ret old (set_heap (<[a := <[off p := s]> blk]> (heap w)) w)
                   | None => Undef
                   end
               | None => Undef
               end
           | None => Undef
           end.

(** Placement of a freshly built value.  An object that was still alive in
    the slot is overwritten without its destructor ever running. *)
Definition emplace_at (p : ptr) (v : T) : M T unit :=
  let* old := poke p (Some v) in
  match old with
  | Some o => fun w => Ret () (add_lost [o] w)
  | None => ret ()
  end.

(** Assignment stores the value in the object of the slot.  On a slot
    whose object has been destroyed the assignment operator of [T] runs on
    storage without a live object, which is undefined behaviour, unless the
    destructor of [T] is trivial: the object is then still there, and holds
    the value afterwards. *)
Definition assign_at (p : ptr) (v : T) : M T unit :=
  let* old := poke p (Some v) in
  match old with
  | Some _ => log (EvAssign v)
  | None => if is_trivially_destructible then log (EvAssign v) else undef
  end.

(** [std::destroy_at(p)], [p->~T()] *)
Definition destroy_at (p : ptr) : M T unit :=
  let* v := peek p in
  let* _ := poke p None in
  log (EvDtor v).

(** *** Element operations *)

(** How a new element is initialised: [T(args...)] in general, the copy
    constructor for [Insert(pos, const T&)] and [PushBack(const T&)], the
    move constructor for [Insert(pos, T&&)] and [PushBack(T&&)].  The
    argument object lives outside the container; [x] is the value the new
    element receives. *)
Inductive init := FromArgs (x : T) | CopyOf (x : T) | MoveOf (x : T).

Definition init_value (i : init) : T :=
  match i with FromArgs x | CopyOf x | MoveOf x => x end.

(** Runs the constructor: it may throw, and is logged when it does not. *)
Definition run_ctor (i : init) : M T T :=
  match i with
  | FromArgs x => tick >>> log (EvCtor x) >>> ret x
  | CopyOf x => tick >>> log (EvCopy x) >>> ret x
  | MoveOf x =>
      may_throw (negb is_nothrow_move_constructible) >>> log (EvMove x) >>> ret x
  end.

(** [new (p) T(...)] *)
Definition construct_at (p : ptr) (i : init) : M T unit :=
  let* v := run_ctor i in emplace_at p v.

(** [new (dst) T(src[0])]: copy construction at [dst] from the object at [src] *)
Definition copy_construct (src dst : ptr) : M T unit :=
  let* v := peek src in construct_at dst (CopyOf v).

(** [new (dst) T(std::move(src[0]))]: move construction.  When the move
    constructor throws no object is constructed, and the source is left as
    [failed_move] says: nothing promises that it is untouched. *)
Definition move_construct (src dst : ptr) : M T unit :=
  let* v := peek src in
  let* _ := catch_rethrow (construct_at dst (MoveOf v))
                          (let* _ := poke src (Some (failed_move v)) in ret ()) in
  let* _ := poke src (Some (husk v)) in ret ().

(** [dst[0] = src[0]]: copy assignment *)
Definition copy_assign (src dst : ptr) : M T unit :=
  let* v := peek src in
  tick >>> assign_at dst v.

(** [dst[0] = std::move(src[0])]: move assignment *)
Definition move_assign (src dst : ptr) : M T unit :=
  let* v := peek src in
  may_throw (negb is_nothrow_move_assignable) >>>
  assign_at dst v >>>
  let* _ := poke src (Some (husk v)) in ret ().

(** *** The algorithms of [<memory>] and [<algorithm>] the code calls *)

Fixpoint destroy_n (p : ptr) (n : nat) : M T unit :=
  match n with
  | 0 => ret ()
  | S k => destroy_at p >>> destroy_n (ptr_add p 1) k
  end.

(** The [uninitialized_*] algorithms: when an element operation throws,
    the objects constructed so far are destroyed, the first one first
    ([std::destroy(d_first, current)]), and the exception is rethrown.
    [k] objects have been constructed from [d_first] on. *)
Fixpoint uninitialized_copy_from (k : nat) (src : ptr) (n : nat) (d_first : ptr)
    : M T unit :=
  match n with
  | 0 => ret ()
  | S m =>
      catch_rethrow (copy_construct src (ptr_add d_first k)) (destroy_n d_first k) >>>
      uninitialized_copy_from (S k) (ptr_add src 1) m d_first
  end.

Definition uninitialized_copy_n (src : ptr) (n : nat) (dst : ptr) : M T unit :=
  uninitialized_copy_from 0 src n dst.

Fixpoint uninitialized_move_from (k : nat) (src : ptr) (n : nat) (d_first : ptr)
    : M T unit :=
  match n with
  | 0 => ret ()
  | S m =>
      catch_rethrow (move_construct src (ptr_add d_first k)) (destroy_n d_first k) >>>
      uninitialized_move_from (S k) (ptr_add src 1) m d_first
  end.

Definition uninitialized_move_n (src : ptr) (n : nat) (dst : ptr) : M T unit :=
  uninitialized_move_from 0 src n dst.

Fixpoint uninitialized_fill_from (k : nat) (x : T) (first : ptr) (n : nat)
    : M T unit :=
  match n with
  | 0 => ret ()
  | S m =>
      catch_rethrow (construct_at (ptr_add first k) (FromArgs x)) (destroy_n first k) >>>
      uninitialized_fill_from (S k) x first m
  end.

Definition uninitialized_fill_with (x : T) (p : ptr) (n : nat) : M T unit :=
  uninitialized_fill_from 0 x p n.

Definition uninitialized_value_construct_n (p : ptr) (n : nat) : M T unit :=
  uninitialized_fill_with value_init p n.

Definition uninitialized_default_construct_n (p : ptr) (n : nat) : M T unit :=
  uninitialized_fill_with default_init p n.

(** [std::copy_n]: copy assignment, front to back, nothing undone. *)
Fixpoint copy_n (src : ptr) (n : nat) (dst : ptr) : M T unit :=
  match n with
  | 0 => ret ()
  | S k => copy_assign src dst >>> copy_n (ptr_add src 1) k (ptr_add dst 1)
  end.

(** [std::move(first, first + n, d_first)]: move assignment, front to back. *)
Fixpoint move_range (first : ptr) (n : nat) (d_first : ptr) : M T unit :=
  match n with
  | 0 => ret ()
  | S k => move_assign first d_first >>>
           move_range (ptr_add first 1) k (ptr_add d_first 1)
  end.

(** [std::move_backward(first, first + n, d_last)]: move assignment, back
    to front; the last element goes to [d_last - 1]. *)
Fixpoint move_backward (first : ptr) (n : nat) (d_last : ptr) : M T unit :=
  match n with
  | 0 => ret ()
  | S k =>
      match off d_last with
      | 0 => undef
      | S d => move_assign (ptr_add first k) (Ptr (base d_last) d) >>>
               move_backward first k (Ptr (base d_last) d)
      end
  end.

(** *** [RawMemory<T>] *)

(** [operator new(n * sizeof(T))], or [nullptr] for [n = 0]: a block of
    [n] slots, for a byte count that does not wrap. *)
Definition Allocate (n : nat) : M T (option addr) :=
  if n =? 0 then ret None
  else tick >>>
       fun w => Ret (Some (brk w))
                    (emit [EvAlloc (brk w) n]
                       (set_brk (S (brk w))
                          (set_heap (<[brk w := replicate n None]> (heap w)) w))).

(** [operator delete(buf)].  Objects still alive in the block are gone with
    it, their destructors not run. *)
Definition Deallocate (buf : option addr) : M T unit :=
  match buf with
  | None => ret ()
  | Some a =>
      fun w => match heap w !! a with
               | Some blk =>
                   Ret () (emit [EvFree a]
                             (add_lost (omap id blk)
                                (set_heap (delete a (heap w)) w)))
               | None => Undef
               end
  end.

(** [explicit RawMemory(size_t capacity)] *)
Definition RawMemory_ctor (capacity : nat) : M T RawMemory :=
  let* buf := Allocate capacity in ret (mkRawMemory buf capacity).

(** [~RawMemory()] *)
Definition RawMemory_dtor (r : RawMemory) : M T unit := Deallocate (buffer_ r).

(** [RawMemory& operator=(RawMemory&& rhs)] for [this != &rhs]: the new
    states of [*this] and of [rhs]. *)
Definition RawMemory_move_assign (this rhs : RawMemory) : RawMemory * RawMemory :=
  (mkRawMemory (buffer_ rhs) (capacity_ rhs), mkRawMemory None 0).

(** [void Swap(RawMemory& other)] *)
Definition RawMemory_Swap (this other : RawMemory) : RawMemory * RawMemory :=
  (mkRawMemory (buffer_ other) (capacity_ other),
   mkRawMemory (buffer_ this) (capacity_ this)).

Definition GetAddress (r : RawMemory) : ptr := Ptr (buffer_ r) 0.

(** A local [RawMemory<T> new_data(capacity)]: constructed, used by
    [body], destroyed when its scope is left by a return or by an
    exception.  [body] yields the state it leaves the local in; the code
    changes the local only in [DestroyAndSwap], after which nothing
    throws, so an exception finds it as constructed. *)
Definition scope_RawMemory {A} (capacity : nat)
    (body : RawMemory → M T (A * RawMemory)) : M T A :=
  let* new_data := RawMemory_ctor capacity in
  fun w => match body new_data w with
           | Ret (a, r) w' => (RawMemory_dtor r >>> ret a) w'
           | Exn w' => (RawMemory_dtor new_data >>> throw) w'
           | Undef => Undef
           end.

(** *** [Vector<T>] *)

Definition getv (this : var) : M T Vector :=
  fun w => match objs w !! this with
           | Some v => Ret v w
           | None => Undef
           end.

Definition putv (this : var) (v : Vector) : M T unit :=
  fun w => Ret () (set_objs (<[this := v]> (objs w)) w).

Definition set_size (this : var) (n : nat) : M T unit :=
  let* v := getv this in putv this (mkVector (data_ v) n).

Definition Size (this : var) : M T nat :=
  let* v := getv this in ret (size_ v).

Definition Capacity (this : var) : M T nat :=
  let* v := getv this in ret (capacity_ (data_ v)).

Definition ISNOTHROWMOVEORCOPYCTOR : bool :=
  is_nothrow_move_constructible || negb is_copy_constructible.

(** [void DestroyAndSwap(RawMemory<T>& new_data)]; yields [new_data] as
    the swap leaves it. *)
Definition DestroyAndSwap (this : var) (new_data : RawMemory) : M T RawMemory :=
  let* v := getv this in
  destroy_n (GetAddress (data_ v)) (size_ v) >>>
  let '(d, nd) := RawMemory_Swap (data_ v) new_data in
  putv this (mkVector d (size_ v)) >>> ret nd.

(** [void MoveDataTo(RawMemory<T>& new_data)] *)
Definition MoveDataTo (this : var) (new_data : RawMemory) : M T RawMemory :=
  let* v := getv this in
  (if ISNOTHROWMOVEORCOPYCTOR
   then uninitialized_move_n (GetAddress (data_ v)) (size_ v) (GetAddress new_data)
   else uninitialized_copy_n (GetAddress (data_ v)) (size_ v) (GetAddress new_data)) >>>
  DestroyAndSwap this new_data.

(** [void MoveData(first, last, d_first)] with [n = last - first] *)
Definition MoveData (first : ptr) (n : nat) (d_first : ptr) : M T unit :=
  if ISNOTHROWMOVEORCOPYCTOR
  then uninitialized_move_n first n d_first
  else uninitialized_copy_n first n d_first.

(** [Vector() = default] *)
Definition Vector_default (this : var) : M T unit :=
  putv this (mkVector (mkRawMemory None 0) 0).

(** [explicit Vector(size_t size)].  When an element constructor throws,
    the member [data_] is destroyed and no object comes to exist. *)
Definition Vector_sized (this : var) (size : nat) : M T unit :=
  let* d := RawMemory_ctor size in
  catch_rethrow (uninitialized_value_construct_n (GetAddress d) size)
                (RawMemory_dtor d) >>>
  putv this (mkVector d size).

(** [Vector(const Vector& other)] *)
Definition Vector_copy (this other : var) : M T unit :=
  let* o := getv other in
  let* d := RawMemory_ctor (size_ o) in
  catch_rethrow (uninitialized_copy_n (GetAddress (data_ o)) (size_ o) (GetAddress d))
                (RawMemory_dtor d) >>>
  putv this (mkVector d (size_ o)).

(** [Vector(Vector&& other) noexcept]: [data_] starts out null and is
    move-assigned. *)
Definition Vector_move (this other : var) : M T unit :=
  let* o := getv other in
  let '(d, od) := RawMemory_move_assign (mkRawMemory None 0) (data_ o) in
  putv this (mkVector d (size_ o)) >>>
  putv other (mkVector od 0).

(** [~Vector()], then the destructor of the member [data_]; the object is
    gone from the store. *)
Definition Vector_dtor (this : var) : M T unit :=
  let* v := getv this in
  destroy_n (GetAddress (data_ v)) (size_ v) >>>
  RawMemory_dtor (data_ v) >>>
  fun w => Ret () (set_objs (delete this (objs w)) w).

(** [void Swap(Vector& other) noexcept] *)
Definition Swap (this other : var) : M T unit :=
  let* t := getv this in
  let* o := getv other in
  let '(td, od) := RawMemory_Swap (data_ t) (data_ o) in
  putv this (mkVector td (size_ o)) >>>
  putv other (mkVector od (size_ t)).

(** [void Reserve(size_t new_capacity)] *)
Definition Reserve (this : var) (new_capacity : nat) : M T unit :=
  let* v := getv this in
  if new_capacity <=? capacity_ (data_ v) then ret ()
  else scope_RawMemory new_capacity (fun new_data =>
         let* nd := MoveDataTo this new_data in ret ((), nd)).

(** [void Resize(size_t new_size)] *)
Definition Resize (this : var) (new_size : nat) : M T unit :=
  let* v := getv this in
  if new_size =? size_ v then ret ()
  else if new_size <? size_ v then
    destroy_n (ptr_add (GetAddress (data_ v)) new_size) (size_ v - new_size) >>>
    set_size this new_size
  else
    Reserve this new_size >>>
    let* v := getv this in
    uninitialized_default_construct_n
      (ptr_add (GetAddress (data_ v)) (size_ v)) (new_size - size_ v) >>>
    set_size this new_size.

(** [void PushBack(const T& value)] and [void PushBack(T&& value)]:
    [uninitialized_copy_n(&value, 1, p)] and
    [uninitialized_move_n(&value, 1, p)] construct one element at [p]. *)
Definition PushBack_with (this : var) (i : init) : M T unit :=
  let* v := getv this in
  (if size_ v =? capacity_ (data_ v) then
     scope_RawMemory (if size_ v =? 0 then 1 else size_ v * 2) (fun new_data =>
       construct_at (ptr_add (GetAddress new_data) (size_ v)) i >>>
       let* nd := MoveDataTo this new_data in ret ((), nd))
   else
     construct_at (ptr_add (GetAddress (data_ v)) (size_ v)) i) >>>
  let* v := getv this in
  set_size this (size_ v + 1).

Definition PushBack (this : var) (value : T) : M T unit :=
  PushBack_with this (CopyOf value).

Definition PushBack_move (this : var) (value : T) : M T unit :=
  PushBack_with this (MoveOf value).

(** [void PopBack() noexcept]: [data_[--size_].~T()].  On an empty vector
    [--size_] wraps and the slot is outside every block. *)
Definition PopBack (this : var) : M T unit :=
  let* v := getv this in
  match size_ v with
  | 0 => undef
  | S n =>
      set_size this n >>>
      destroy_at (ptr_add (GetAddress (data_ v)) n)
  end.

(** Iterators are offsets from [begin()]. *)

(** [iterator EmplaceWithAllocation(const_iterator position, Args&&...)] *)
Definition EmplaceWithAllocation (this : var) (pos_num : nat) (i : init) : M T nat :=
  let* v := getv this in
  scope_RawMemory (if size_ v =? 0 then 1 else size_ v * 2) (fun new_data =>
    let new_pos := ptr_add (GetAddress new_data) pos_num in
    construct_at new_pos i >>>
    catch_rethrow
      (MoveData (GetAddress (data_ v)) pos_num (GetAddress new_data))
      (destroy_at new_pos) >>>
    catch_rethrow
      (MoveData (ptr_add (GetAddress (data_ v)) pos_num) (size_ v - pos_num)
                (ptr_add (GetAddress new_data) (pos_num + 1)))
      (destroy_n (GetAddress new_data) (pos_num + 1)) >>>
    let* nd := DestroyAndSwap this new_data in
    let* v := getv this in
    set_size this (size_ v + 1) >>>
    ret (pos_num, nd)).

(** [iterator EmplaceInPosition(const_iterator position, Args&&...)].  The
    temporary [tmp_value] is a local object: it is destroyed when its
    block is left, by the closing brace or by an exception.  [data_[size_ - 1]]
    asserts its index on an empty vector, and a position behind [end()]
    gives [std::move_backward] a range that ends before it starts. *)
Definition EmplaceInPosition (this : var) (pos : nat) (i : init) : M T nat :=
  let* v := getv this in
  (if pos =? size_ v then
     construct_at (ptr_add (GetAddress (data_ v)) (size_ v)) i
   else
     let* tmp_value := run_ctor i in
     match size_ v with
     | 0 => undef
     | S last =>
         catch_rethrow
           (move_construct (ptr_add (GetAddress (data_ v)) last)
                           (ptr_add (GetAddress (data_ v)) (size_ v)) >>>
            (if last <? pos then undef
             else move_backward (ptr_add (GetAddress (data_ v)) pos) (last - pos)
                                (ptr_add (GetAddress (data_ v)) (size_ v))) >>>
            may_throw (negb is_nothrow_move_assignable) >>>
            assign_at (ptr_add (GetAddress (data_ v)) pos) tmp_value)
           (log (EvDtor tmp_value)) >>>
         log (EvDtor (husk tmp_value))
     end) >>>
  let* v := getv this in
  set_size this (size_ v + 1) >>>
  ret pos.

(** [iterator Emplace(const_iterator pos, Args&&... args)] *)
Definition Emplace (this : var) (pos : nat) (i : init) : M T nat :=
  let* v := getv this in
  if size_ v =? capacity_ (data_ v)
  then EmplaceWithAllocation this pos i
  else EmplaceInPosition this pos i.

Definition Insert (this : var) (pos : nat) (value : T) : M T nat :=
  Emplace this pos (CopyOf value).

Definition Insert_move (this : var) (pos : nat) (value : T) : M T nat :=
  Emplace this pos (MoveOf value).

(** [T& EmplaceBack(Args&&... args)]: [*Emplace(end(), args...)] *)
Definition EmplaceBack (this : var) (x : T) : M T nat :=
  let* v := getv this in
  Emplace this (size_ v) (FromArgs x).

(** [iterator Erase(const_iterator pos)].  The element at [pos] is
    destroyed first, and the shift then assigns to its slot.  For a
    position at or behind [end()] the range [next(pos), end()) ends before
    it starts; on an empty vector no position is valid. *)
Definition Erase (this : var) (pos : nat) : M T nat :=
  let* v := getv this in
  let not_const_iter := ptr_add (GetAddress (data_ v)) pos in
  destroy_at not_const_iter >>>
  (if size_ v <? pos + 1 then undef
   else move_range (ptr_add not_const_iter 1) (size_ v - (pos + 1)) not_const_iter) >>>
  match size_ v with
  | 0 => undef
  | S n => set_size this n >>> ret pos
  end.

(** [Vector& operator=(const Vector& rhs)].  [rhs_copy] is a local
    [Vector], kept in the store under the name [tmp], which no object
    bears yet. *)
Definition copy_assignment (this rhs tmp : var) : M T unit :=
  if decide (this = rhs) then ret ()
  else
    let* t := getv this in
    let* r := getv rhs in
    if capacity_ (data_ t) <? size_ r then
      Vector_copy tmp rhs >>>
      Swap this tmp >>>
      Vector_dtor tmp
    else if size_ r <=? size_ t then
      copy_n (GetAddress (data_ r)) (size_ r) (GetAddress (data_ t)) >>>
      destroy_n (ptr_add (GetAddress (data_ t)) (size_ r)) (size_ t - size_ r) >>>
      set_size this (size_ r)
    else
      copy_n (GetAddress (data_ r)) (size_ t) (GetAddress (data_ t)) >>>
      uninitialized_copy_n (ptr_add (GetAddress (data_ r)) (size_ t))
                           (size_ r - size_ t)
                           (ptr_add (GetAddress (data_ t)) (size_ t)) >>>
      set_size this (size_ r).

(** [Vector& operator=(Vector&& rhs) noexcept] *)
Definition move_assignment (this rhs : var) : M T unit :=
  if decide (this = rhs) then ret ()
  else
    let* t := getv this in
    let* r := getv rhs in
    let '(d, rd) := RawMemory_move_assign (data_ t) (data_ r) in
    putv this (mkVector d (size_ r)) >>>
    putv rhs (mkVector rd 0).

(** [iterator begin() noexcept], [cbegin()] *)
Definition Vector_begin (this : var) : M T ptr :=
  let* v := getv this in ret (GetAddress (data_ v)).

(** [iterator end() noexcept], [cend()] *)
Definition Vector_end (this : var) : M T ptr :=
  let* v := getv this in ret (ptr_add (GetAddress (data_ v)) (size_ v)).

(** [T& operator[](size_t index) noexcept]: [assert(index < size_)], then
    the reference is the address of the slot; nothing is read. *)
Definition Index (this : var) (index : nat) : M T ptr :=
  let* v := getv this in
  if index <? size_ v then ret (ptr_add (GetAddress (data_ v)) index)
  else undef.

(** [T& Back()]: [data_.GetAddress()[size_ - 1]].  On an empty vector
    [size_ - 1] wraps and the address is outside every block. *)
Definition Back (this : var) : M T ptr :=
  let* v := getv this in
  match size_ v with
  | 0 => undef
  | S n => ret (ptr_add (GetAddress (data_ v)) n)
  end.

(** Reading the object a returned reference or iterator designates. *)
Definition deref (r : M T ptr) : M T T := let* p := r in peek p.

End Machine.

Arguments init : clear implicits.

Arguments tick : simpl never.
Arguments peek : simpl never.
Arguments poke : simpl never.
Arguments emplace_at : simpl never.
Arguments assign_at : simpl never.
Arguments destroy_at : simpl never.
Arguments run_ctor : simpl never.
Arguments construct_at : simpl never.
Arguments Allocate : simpl never.
Arguments Deallocate : simpl never.
Arguments getv : simpl never.
Arguments putv : simpl never.
Arguments bind : simpl never.
Arguments catch_rethrow : simpl never.
Arguments set_size : simpl never.
Arguments RawMemory_ctor : simpl never.
Arguments RawMemory_dtor : simpl never.
Arguments scope_RawMemory : simpl never.
Arguments DestroyAndSwap : simpl never.
Arguments MoveData : simpl never.
Arguments MoveDataTo : simpl never.
Arguments Reserve : simpl never.
Arguments Vector_copy : simpl never.
Arguments Vector_dtor : simpl never.
Arguments Swap : simpl never.

(** ** Reading a vector off the world *)

Section Observations.
Context {T : Type}.

(** A block holding the elements [l] in its first slots and nothing in
    the remaining ones, [cap] slots in all. *)
Definition block_of (l : list T) (cap : nat) : list (option T) :=
  (Some <$> l) ++ replicate (cap - length l) None.

(** The object named [this] has the buffer [buf] of [cap] slots and holds
    exactly the elements [l]: the representation invariant of the
    specification. *)
Definition vec_at (w : world T) (this : var) (buf : option addr)
    (l : list T) (cap : nat) : Prop :=
  objs w !! this = Some (mkVector (mkRawMemory buf cap) (length l)) ∧
  length l ≤ cap ∧
  match buf with
  | None => cap = 0
  | Some a => heap w !! a = Some (block_of l cap)
  end.

(** No block lies at or above the allocator's next address. *)
Definition heap_ok (w : world T) : Prop :=
  ∀ a, brk w ≤ a → heap w !! a = None.

Definition size_of (w : world T) (this : var) : option nat :=
  size_ <$> objs w !! this.

Definition capacity_of (w : world T) (this : var) : option nat :=
  (capacity_ ∘ data_) <$> objs w !! this.

(** The element values in the slots [0 .. size): what indexing and
    traversal from [begin()] to [end()] see. *)
Definition elems (w : world T) (this : var) : option (list T) :=
  v ← objs w !! this;
  match buffer_ (data_ v) with
  | None => if size_ v =? 0 then Some [] else None
  | Some a =>
      blk ← heap w !! a;
      if length blk <? size_ v then None
      else mapM id (take (size_ v) blk)
  end.

(** The slots [size .. capacity) of the buffer. *)
Definition spare_slots (w : world T) (this : var) : option (list (option T)) :=
  v ← objs w !! this;
  match buffer_ (data_ v) with
  | None => Some []
  | Some a => blk ← heap w !! a; Some (drop (size_ v) blk)
  end.

End Observations.

(** ** The vocabulary of the specifications *)

Section Vocabulary.
Context {T : Type} `{ElemType T}.

(** A check of [heap_ok] that evaluates. *)
Definition heap_okb (w : world T) : bool :=
  bool_decide (map_Forall (λ a _, a < brk w) (heap w)).

(** Weakest preconditions: [wp m w Q E] holds when [m] run in [w] returns
    with [Q], or throws with [E]; undefined behaviour is excluded. *)
Definition wp {A} (m : M T A) (w : world T)
    (Q : A → world T → Prop) (E : world T → Prop) : Prop :=
  match m w with
  | Ret a w' => Q a w'
  | Exn w' => E w'
  | Undef => False
  end.

Definition ctor_event (i : init T) : event T :=
  match i with
  | FromArgs x => EvCtor x
  | CopyOf x => EvCopy x
  | MoveOf x => EvMove x
  end.

(** Whether the constructor [i] runs is allowed to throw. *)
Definition ctor_throws (i : init T) : bool :=
  match i with
  | MoveOf _ => negb is_nothrow_move_constructible
  | _ => true
  end.

(** What the slot vacated by a shift holds afterwards: the husk of the
    element moved out of it, or what it held when nothing was moved. *)
Definition vacated (s0 : option T) (moved_last : option T) : option T :=
  match moved_last with
  | Some v => Some (husk v)
  | None => s0
  end.

Definition transfer_event (v : T) : event T :=
  if ISNOTHROWMOVEORCOPYCTOR then EvMove v else EvCopy v.

(** What a transfer leaves in the source slots. *)
Definition left_behind (v : T) : T :=
  if ISNOTHROWMOVEORCOPYCTOR then husk v else v.

(** The capacity a growth cycle asks for. *)
Definition grown (n : nat) : nat := if n =? 0 then 1 else n * 2.

(** [SIZE_MAX] of a 64-bit [size_t]. *)
Definition SIZE_MAX : N := 18446744073709551615%N.

(** The byte count of a request for [n] slots, [n * sizeof(T)], does not
    wrap. *)
Definition request_fits (n : nat) : Prop :=
  (N.of_nat n * N.of_nat sizeof_T ≤ SIZE_MAX)%N.

Definition request_fitsb (n : nat) : bool :=
  (N.of_nat n * N.of_nat sizeof_T <=? SIZE_MAX)%N.

(** What a transfer that throws leaves in the source slots: the originals
    when it copies; when it moves, husks as far as it got, then what the
    move that threw left of its source, then the originals. *)
Definition left_by_failure (vs : list T) (src : list (option T)) : Prop :=
  if ISNOTHROWMOVEORCOPYCTOR then
    ∃ vs1 v vs2, vs = vs1 ++ v :: vs2 ∧
      src = (Some <$> (husk <$> vs1)) ++ Some (failed_move v) :: (Some <$> vs2)
  else src = Some <$> vs.

(** Both ways of transferring keep the originals intact on failure, or
    cannot fail. *)
Definition transfer_safe : bool :=
  is_nothrow_move_constructible || is_copy_constructible.

Definition free_event (buf : option addr) : list (event T) :=
  match buf with
  | Some a => [EvFree a]
  | None => []
  end.

(** What [PushBack] leaves behind when it returns. *)
Definition PushBack_post (this : var) (i : init T) (buf : option addr)
    (xs : list T) (cap : nat) (w w' : world T) : Prop :=
  (if length xs =? cap then
     vec_at w' this (Some (brk w)) (xs ++ [init_value i]) (grown cap) ∧
     trace w' = trace w ++ [EvAlloc (brk w) (grown cap); ctor_event i] ++
                (transfer_event <$> xs) ++ (EvDtor <$> (left_behind <$> xs)) ++
                free_event buf ∧
     (∀ a, buf = Some a → heap w' !! a = None)
   else
     vec_at w' this buf (xs ++ [init_value i]) cap ∧
     trace w' = trace w ++ [ctor_event i]) ∧
  heap_ok w' ∧ lost w' = lost w ∧ (faults w = [] → faults w' = []).

(** The sequence [xs] with [x] put in front of position [pos]. *)
Definition inserted (pos : nat) (x : T) (xs : list T) : list T :=
  take pos xs ++ x :: drop pos xs.

(** What [Emplace] guarantees when it throws: the object itself (buffer,
    capacity, size) is as before in every case; on the growth path with a
    safe transfer nothing at all has changed; without growth nothing is
    lost, and nothing has changed when the position is [end()]. *)
Definition Emplace_exn (pos : nat) (xs : list T) (cap : nat) (w w' : world T) : Prop :=
  faults w ≠ [] ∧ objs w' = objs w ∧
  (length xs = cap → transfer_safe = true →
     heap w' = heap w ∧ lost w' = lost w) ∧
  (length xs < cap →
     lost w' = lost w ∧ (pos = length xs → heap w' = heap w)).

(** What [EmplaceWithAllocation] guarantees when it throws: the object is
    as before and nothing is lost; the heap is as before, or the transfer
    was one by a move that threw, and the old block holds what that
    transfer left. *)
Definition Emplace_growth_exn (buf : option addr) (xs : list T) (w w' : world T) : Prop :=
  faults w ≠ [] ∧ objs w' = objs w ∧ lost w' = lost w ∧
  (heap w' = heap w ∨
   (transfer_safe = false ∧
    ∃ a vs1 v vs2, buf = Some a ∧ xs = vs1 ++ v :: vs2 ∧
      heap w' = <[a := (Some <$> (husk <$> vs1)) ++ Some (failed_move v) ::
                       (Some <$> vs2)]> (heap w))).



(** The element operations copy assignment performs, by case. *)
Definition copy_assignment_trace (bt : option addr) (xt xr : list T)
    (ct : nat) (b : addr) : list (event T) :=
  if ct <? length xr then
    [EvAlloc b (length xr)] ++ (EvCopy <$> xr) ++ (EvDtor <$> xt) ++ free_event bt
  else if length xr <=? length xt then
    (EvAssign <$> xr) ++ (EvDtor <$> drop (length xr) xt)
  else
    (EvAssign <$> take (length xt) xr) ++ (EvCopy <$> drop (length xt) xr).

(** Appending the values [vs] one after the other. *)
Fixpoint appends (this : var) (vs : list T) : M T unit :=
  match vs with
  | [] => ret ()
  | v :: vs' => PushBack this v >>> appends this vs'
  end.

(** The capacity after [k] more appends to a vector of size [sz] and
    capacity [cap]. *)
Fixpoint capacity_after (sz cap k : nat) : nat :=
  match k with
  | 0 => cap
  | S k' => capacity_after (S sz) (if sz =? cap then grown cap else cap) k'
  end.


(** *** Sequences of calls on one vector *)

(** The calls of the public interface that change one vector, [Erase]
    apart. *)
Inductive op :=
| OpPushBack (i : init T)
| OpEmplaceBack (x : T)
| OpEmplace (pos : nat) (i : init T)
| OpPopBack
| OpReserve (n : nat)
| OpResize (n : nat).

Definition run_op (this : var) (o : op) : M T unit :=
  match o with
  | OpPushBack i => PushBack_with this i
  | OpEmplaceBack x => let* _ := EmplaceBack this x in ret ()
  | OpEmplace pos i => let* _ := Emplace this pos i in ret ()
  | OpPopBack => PopBack this
  | OpReserve n => Reserve this n
  | OpResize n => Resize this n
  end.

Fixpoint run_ops (this : var) (ops : list op) : M T unit :=
  match ops with
  | [] => ret ()
  | o :: ops' => run_op this o >>> run_ops this ops'
  end.

(** The same calls on a plain sequence of values; [None] where the call
    has no defined behaviour (a position behind the end, [PopBack] on an
    empty vector, a count whose byte count does not fit [size_t]). *)
Definition list_op (o : op) (xs : list T) : option (list T) :=
  match o with
  | OpPushBack i => Some (xs ++ [init_value i])
  | OpEmplaceBack x => Some (xs ++ [x])
  | OpEmplace pos i =>
      if pos <=? length xs then Some (inserted pos (init_value i) xs) else None
  | OpPopBack => if length xs =? 0 then None else Some (removelast xs)
  | OpReserve n => if request_fitsb n then Some xs else None
  | OpResize n =>
      if request_fitsb n
      then Some (take n xs ++ replicate (n - length xs) default_init)
      else None
  end.

(** The capacity a call leaves, from the size and the capacity it finds. *)
Definition capacity_op (o : op) (size cap : nat) : nat :=
  match o with
  | OpPushBack _ | OpEmplaceBack _ | OpEmplace _ _ =>
      if size =? cap then grown cap else cap
  | OpPopBack => cap
  | OpReserve n | OpResize n => if n <=? cap then cap else n
  end.

Fixpoint list_ops (ops : list op) (xs : list T) (cap : nat) : option (list T * nat) :=
  match ops with
  | [] => Some (xs, cap)
  | o :: ops' =>
      xs' ← list_op o xs;
      list_ops ops' xs' (capacity_op o (length xs) cap)
  end.

(** *** Blocks *)

(** The addresses of the blocks a buffer pointer owns. *)
Definition block_set (buf : option addr) : gset addr :=
  match buf with
  | Some a => {[ a ]}
  | None => ∅
  end.

(** Whether a call acquires a new block, from the size and the capacity
    it finds. *)
Definition grows_op (o : op) (size cap : nat) : bool :=
  match o with
  | OpPushBack _ | OpEmplaceBack _ | OpEmplace _ _ => size =? cap
  | OpPopBack => false
  | OpReserve n | OpResize n => cap <? n
  end.

(** [m] run in [w] writes no object outside [ws], and every block of the
    heap it leaves was in the heap of [w] or is among [new_ret] when it
    returns, among [new_exn] when it throws. *)
Definition blocks_bound (ws : gset var) (new_ret new_exn : gset addr) {A}
    (m : M T A) (w : world T) : Prop :=
  match m w with
  | Ret _ w' =>
      dom (heap w') ⊆ dom (heap w) ∪ new_ret ∧
      ∀ x, x ∉ ws → objs w' !! x = objs w !! x
  | Exn w' =>
      dom (heap w') ⊆ dom (heap w) ∪ new_exn ∧
      ∀ x, x ∉ ws → objs w' !! x = objs w !! x
  | Undef => True
  end.

(** [m] allocates nothing, in whatever world it runs. *)
Definition stays (ws : gset var) {A} (m : M T A) : Prop :=
  ∀ w, blocks_bound ws ∅ ∅ m w.

(** *** Counting element operations *)

Definition is_construction (e : event T) : bool :=
  match e with
  | EvCtor _ | EvCopy _ | EvMove _ => true
  | _ => false
  end.

(** The number of objects a trace records as constructed: from arguments,
    by copy or by move. *)
Fixpoint constructions (tr : list (event T)) : nat :=
  match tr with
  | [] => 0
  | e :: tr' => (if is_construction e then 1 else 0) + constructions tr'
  end.

(** [m] never throws. *)
Definition nothrow {A} (m : M T A) : Prop := ∀ w w', m w ≠ Exn w'.

End Vocabulary.

Arguments wp : simpl never.
Arguments op : clear implicits.

(** ** Element types and worlds of the scenarios *)

(** An instrumented class type of the kind test suites use: copying and
    moving may throw, a moved-from object holds 0, also when the move
    threw, and the destructor is not trivial.  Its elements are transferred
    by copy. *)
Definition Counted : ElemType nat :=
  {| value_init := 0; default_init := 0; husk := fun _ => 0;
     failed_move := fun _ => 0; sizeof_T := 8;
     is_nothrow_move_constructible := false;
     is_copy_constructible := true;
     is_nothrow_move_assignable := false;
     is_trivially_destructible := false |}.

(** A scalar-like type: nothing throws, a move leaves the value, and the
    destructor is trivial. *)
Definition Plain : ElemType nat :=
  {| value_init := 0; default_init := 0; husk := fun x => x;
     failed_move := fun x => x; sizeof_T := 8;
     is_nothrow_move_constructible := true;
     is_copy_constructible := true;
     is_nothrow_move_assignable := true;
     is_trivially_destructible := true |}.

(** A move-only type whose move may throw, before it has changed its
    source: its elements are transferred by move all the same. *)
Definition MoveOnly : ElemType nat :=
  {| value_init := 0; default_init := 0; husk := fun _ => 0;
     failed_move := fun x => x; sizeof_T := 8;
     is_nothrow_move_constructible := false;
     is_copy_constructible := false;
     is_nothrow_move_assignable := false;
     is_trivially_destructible := false |}.

(** A world with one vector, named [this], holding [xs] in a block of [cap]
    slots at address [a]. *)
Definition one_vector (this : var) (a : addr) (xs : list nat) (cap : nat)
    (fs : list bool) : world nat :=
  World {[ a := block_of xs cap ]} (S a)
        {[ this := mkVector (mkRawMemory (Some a) cap) (length xs) ]} fs [] [].

(** A world with the vectors 0 and 1, in the blocks 0 and 1. *)
Definition two_vectors (xs0 : list nat) (cap0 : nat) (xs1 : list nat) (cap1 : nat)
    (fs : list bool) : world nat :=
  World {[ 0 := block_of xs0 cap0; 1 := block_of xs1 cap1 ]} 2
        {[ 0 := mkVector (mkRawMemory (Some 0) cap0) (length xs0);
           1 := mkVector (mkRawMemory (Some 1) cap1) (length xs1) ]} fs [] [].

Definition empty_world : world nat := World ∅ 0 ∅ [] [] [].

(** The claim of C2 and C10 for one call: if it throws, size, capacity and
    elements are what they were. *)
Definition unchanged_on_failure {A} (op : M nat A) (this : var) (w : world nat) : Prop :=
  ∀ w', op w = Exn w' →
        size_of w' this = size_of w this ∧
        capacity_of w' this = capacity_of w this ∧
        elems w' this = elems w this.

(** ** Reasoning about runs *)

Section Reasoning.
Context {T : Type} `{ElemType T}.

Local Abbreviation wp := (@wp T _) (only parsing).

Lemma wp_ret {A} (a : A) (w : world T) Q E : Q a w → wp (ret a) w Q E.
Proof. done. Qed.

Lemma wp_bind {A B} (m : M T A) (k : A → M T B) w Q E :
  wp m w (λ a w', wp (k a) w' Q E) E → wp (bind m k) w Q E.
Proof. unfold wp, bind. by destruct (m w). Qed.

Lemma wp_catch {A} (m : M T A) h w Q E :
  wp m w Q (λ w', wp h w' (λ _ w'', E w'') E) → wp (catch_rethrow m h) w Q E.
Proof.
  unfold wp, catch_rethrow, bind, throw. destruct (m w) as [a w'|w'|]; try done.
  by destruct (h w').
Qed.

Lemma wp_mono {A} (m : M T A) w (Q Q' : A → world T → Prop) (E E' : world T → Prop) :
  wp m w Q E → (∀ a w', Q a w' → Q' a w') → (∀ w', E w' → E' w') → wp m w Q' E'.
Proof. unfold wp. destruct (m w); auto. Qed.

Lemma wp_Ret {A} (m : M T A) w Q E a w' : wp m w Q E → m w = Ret a w' → Q a w'.
Proof. unfold wp. intros Hwp Heq. by rewrite Heq in Hwp. Qed.

Lemma wp_Exn {A} (m : M T A) w Q E w' : wp m w Q E → m w = Exn w' → E w'.
Proof. unfold wp. intros Hwp Heq. by rewrite Heq in Hwp. Qed.

(** *** Faults and the trace *)

Lemma wp_tick h b o fs l tr Q E :
  (∀ fs', (fs = [] → fs' = []) → Q () (World h b o fs' l tr)) →
  (∀ fs', fs ≠ [] → E (World h b o fs' l tr)) →
  wp tick (World h b o fs l tr) Q E.
Proof.
  intros HQ HE. unfold wp, tick; simpl. destruct fs as [|[] fs].
  - by apply HQ.
  - by apply HE.
  - by apply HQ.
Qed.

Lemma wp_may_throw c h b o fs l tr Q E :
  (∀ fs', (fs = [] → fs' = []) → (c = false → fs' = fs) →
          Q () (World h b o fs' l tr)) →
  (∀ fs', fs ≠ [] → c = true → E (World h b o fs' l tr)) →
  wp (may_throw c) (World h b o fs l tr) Q E.
Proof.
  intros HQ HE. destruct c; simpl.
  - apply wp_tick; [intros; by apply HQ | intros; by apply HE].
  - by apply wp_ret, HQ.
Qed.

Lemma wp_log e h b o fs l tr Q E :
  Q () (World h b o fs l (tr ++ [e])) → wp (log e) (World h b o fs l tr) Q E.
Proof. done. Qed.

(** *** Slots *)

Lemma wp_peek a i pre v post h b o fs l tr Q E :
  h !! a = Some (pre ++ Some v :: post) → length pre = i →
  Q v (World h b o fs l tr) →
  wp (peek (Ptr (Some a) i)) (World h b o fs l tr) Q E.
Proof.
  intros Ha Hi HQ. unfold wp, peek; simpl.
  by rewrite Ha, list_lookup_middle.
Qed.

Lemma wp_poke a i pre old post s h b o fs l tr Q E :
  h !! a = Some (pre ++ old :: post) → length pre = i →
  Q old (World (<[a := pre ++ s :: post]> h) b o fs l tr) →
  wp (poke (Ptr (Some a) i) s) (World h b o fs l tr) Q E.
Proof.
  intros Ha Hi HQ. unfold wp, poke; simpl.
  rewrite Ha, list_lookup_middle by done. subst i.
  by rewrite <-(Nat.add_0_r (length pre)), insert_app_r.
Qed.

Lemma wp_emplace_at a i pre post v h b o fs l tr Q E :
  h !! a = Some (pre ++ None :: post) → length pre = i →
  Q () (World (<[a := pre ++ Some v :: post]> h) b o fs l tr) →
  wp (emplace_at (Ptr (Some a) i) v) (World h b o fs l tr) Q E.
Proof.
  intros Ha Hi HQ. unfold emplace_at. apply wp_bind.
  eapply wp_poke; [done..|]. by apply wp_ret.
Qed.

Lemma wp_assign_at a i pre old post v h b o fs l tr Q E :
  h !! a = Some (pre ++ old :: post) → length pre = i →
  (old = None → is_trivially_destructible = true) →
  Q () (World (<[a := pre ++ Some v :: post]> h) b o fs l (tr ++ [EvAssign v])) →
  wp (assign_at (Ptr (Some a) i) v) (World h b o fs l tr) Q E.
Proof.
  intros Ha Hi Hold HQ. unfold assign_at. apply wp_bind.
  eapply wp_poke; [done..|]. destruct old as [x|]; [by apply wp_log|].
  rewrite Hold by done. by apply wp_log.
Qed.

Lemma wp_destroy_at a i pre v post h b o fs l tr Q E :
  h !! a = Some (pre ++ Some v :: post) → length pre = i →
  Q () (World (<[a := pre ++ None :: post]> h) b o fs l (tr ++ [EvDtor v])) →
  wp (destroy_at (Ptr (Some a) i)) (World h b o fs l tr) Q E.
Proof.
  intros Ha Hi HQ. unfold destroy_at. apply wp_bind.
  eapply wp_peek; [done..|]. apply wp_bind.
  eapply wp_poke; [done..|]. by apply wp_log.
Qed.

(** *** Element operations *)

Lemma wp_run_ctor i h b o fs l tr Q E :
  (∀ fs', (fs = [] → fs' = []) → (ctor_throws i = false → fs' = fs) →
          Q (init_value i) (World h b o fs' l (tr ++ [ctor_event i]))) →
  (∀ fs', fs ≠ [] → ctor_throws i = true → E (World h b o fs' l tr)) →
  wp (run_ctor i) (World h b o fs l tr) Q E.
Proof.
  intros HQ HE. destruct i as [x|x|x]; unfold run_ctor; apply wp_bind.
  - apply wp_tick; [|intros; by apply HE]. intros fs' Hfs.
    apply wp_bind, wp_log, wp_ret. by apply (HQ fs').
  - apply wp_tick; [|intros; by apply HE]. intros fs' Hfs.
    apply wp_bind, wp_log, wp_ret. by apply (HQ fs').
  - apply wp_may_throw; [|intros; by apply HE]. intros fs' Hfs Hfs'.
    apply wp_bind, wp_log, wp_ret. by apply (HQ fs').
Qed.

Lemma wp_construct_at a j pre post i h b o fs l tr Q E :
  h !! a = Some (pre ++ None :: post) → length pre = j →
  (∀ fs', (fs = [] → fs' = []) → (ctor_throws i = false → fs' = fs) →
          Q () (World (<[a := pre ++ Some (init_value i) :: post]> h) b o fs' l
                      (tr ++ [ctor_event i]))) →
  (∀ fs', fs ≠ [] → ctor_throws i = true → E (World h b o fs' l tr)) →
  wp (construct_at (Ptr (Some a) j) i) (World h b o fs l tr) Q E.
Proof.
  intros Ha Hj HQ HE. unfold construct_at. apply wp_bind.
  apply wp_run_ctor; [|done]. intros fs' Hfs Hfs'.
  eapply wp_emplace_at; [done..|]. by apply HQ.
Qed.

(** *** The algorithms *)

Lemma post_eq {A} (Q : A → world T → Prop) a w w' : Q a w → w = w' → Q a w'.
Proof. by intros HQ <-. Qed.

Lemma exn_eq (E : world T → Prop) w w' : E w → w = w' → E w'.
Proof. by intros HE <-. Qed.

(** Two heaps built by insertions and deletions are compared key by key;
    two worlds field by field. *)
Ltac heap_eq :=
  apply map_eq; intros ?;
  repeat first [rewrite lookup_insert | rewrite lookup_delete];
  repeat case_decide;
  simplify_eq; simpl; rewrite <-?app_assoc; simpl; try done.

Ltac heap_lookup :=
  simpl; repeat first [rewrite lookup_insert | rewrite lookup_delete];
  repeat (case_decide; simplify_eq; try lia); simpl; try done.

Ltac list_eq :=
  rewrite <-?app_assoc; simpl; rewrite <-?app_assoc, ?app_nil_r; simpl;
  try done.

Ltac world_eq :=
  unfold set_heap, set_brk, set_objs, set_faults, add_lost, emit;
  simpl; f_equal; try done; try heap_eq;
  rewrite <-?app_assoc, ?app_nil_r; simpl; try done.

Lemma wp_destroy_n a i pre vs post n h b o fs l tr Q E :
  h !! a = Some (pre ++ (Some <$> vs) ++ post) → length pre = i → length vs = n →
  Q () (World (<[a := pre ++ replicate n None ++ post]> h) b o fs l
              (tr ++ (EvDtor <$> vs))) →
  wp (destroy_n (Ptr (Some a) i) n) (World h b o fs l tr) Q E.
Proof.
  revert i pre n h tr.
  induction vs as [|v vs IH]; intros i pre n h tr Ha Hi Hn HQ; subst n; simpl.
  - apply wp_ret. eapply post_eq; [exact HQ|]. simpl.
    by rewrite insert_id, app_nil_r.
  - apply wp_bind. eapply wp_destroy_at; [exact Ha|done|].
    unfold ptr_add; simpl.
    eapply (IH _ (pre ++ [None])).
    + by rewrite lookup_insert_eq, <-app_assoc.
    + rewrite length_app; simpl; lia.
    + done.
    + eapply post_eq; [exact HQ|]. simpl.
      by rewrite insert_insert_eq, <-!app_assoc.
Qed.

Lemma wp_uninitialized_copy_from a i spre vs spost c j dpre ds dpost k n
    h b o fs l tr Q E :
  a ≠ c →
  h !! a = Some (spre ++ (Some <$> vs) ++ spost) → length spre = i →
  h !! c = Some (dpre ++ (Some <$> ds) ++ replicate n None ++ dpost) →
  length dpre = j → length ds = k → length vs = n →
  (∀ fs', (fs = [] → fs' = []) →
     Q () (World (<[c := dpre ++ (Some <$> ds) ++ (Some <$> vs) ++ dpost]> h) b o fs' l
                 (tr ++ (EvCopy <$> vs)))) →
  (∀ fs' tr', fs ≠ [] →
     E (World (<[c := dpre ++ replicate (k + n) None ++ dpost]> h) b o fs' l tr')) →
  wp (uninitialized_copy_from k (Ptr (Some a) i) n (Ptr (Some c) j))
     (World h b o fs l tr) Q E.
Proof.
  intros Hac. revert i spre ds k n h fs tr Q E.
  induction vs as [|v vs IH];
    intros i spre ds k n h fs tr Q E Ha Hi Hc Hj Hk Hn HQ HE; subst n; simpl.
  - apply wp_ret. eapply post_eq; [by apply (HQ fs)|]. simpl in *.
    by rewrite insert_id, app_nil_r.
  - simpl in Hc. apply wp_bind, wp_catch. unfold copy_construct. apply wp_bind.
    eapply wp_peek; [exact Ha|done|]. unfold ptr_add; simpl.
    eapply (wp_construct_at c (j + k) (dpre ++ (Some <$> ds))).
    { by rewrite <-app_assoc. }
    { rewrite length_app, length_fmap. lia. }
    + intros fs1 Hfs1 _.
      eapply (IH _ (spre ++ [Some v]) (ds ++ [v])).
      * by rewrite lookup_insert_ne, <-app_assoc.
      * rewrite length_app; simpl; lia.
      * rewrite lookup_insert_eq, fmap_app, <-!app_assoc. done.
      * done.
      * rewrite length_app; simpl; lia.
      * done.
      * intros fs2 Hfs2. eapply post_eq; [apply (HQ fs2); auto|]. simpl.
        rewrite insert_insert_eq, fmap_app, <-!app_assoc. done.
      * intros fs2 tr2 Hfs2.
        eapply exn_eq; [apply (HE fs2 tr2); by auto|]. simpl.
        rewrite insert_insert_eq. do 3 f_equal.
        replace (k + S (length vs)) with (S k + length vs) by lia. done.
    + intros fs1 Hfs1 _.
      eapply (wp_destroy_n c j dpre ds); [exact Hc|done|done|].
      unfold wp, throw.
      eapply exn_eq; [by apply (HE fs1 (tr ++ (EvDtor <$> ds)))|].
      by rewrite replicate_add, <-app_assoc.
Qed.

Lemma wp_uninitialized_copy_n a i spre vs spost c j dpre dpost n h b o fs l tr Q E :
  a ≠ c →
  h !! a = Some (spre ++ (Some <$> vs) ++ spost) → length spre = i →
  h !! c = Some (dpre ++ replicate n None ++ dpost) → length dpre = j →
  length vs = n →
  (∀ fs', (fs = [] → fs' = []) →
     Q () (World (<[c := dpre ++ (Some <$> vs) ++ dpost]> h) b o fs' l
                 (tr ++ (EvCopy <$> vs)))) →
  (∀ fs' tr', fs ≠ [] → E (World h b o fs' l tr')) →
  wp (uninitialized_copy_n (Ptr (Some a) i) n (Ptr (Some c) j))
     (World h b o fs l tr) Q E.
Proof.
  intros Hac Ha Hi Hc Hj Hn HQ HE. unfold uninitialized_copy_n.
  eapply (wp_uninitialized_copy_from a i spre vs spost c j dpre [] dpost 0);
    [done..| |].
  - intros fs' Hfs. by apply HQ.
  - intros fs' tr' Hfs. eapply exn_eq; [by apply (HE fs' tr')|]. simpl.
    by rewrite insert_id.
Qed.

(** Moving between two blocks leaves husks behind.  With a move
    constructor that cannot throw the plan is not consulted at all; when
    a move throws, the elements moved so far stay husks in the source, and
    the source of the failed move is what that move left of it. *)
Lemma wp_uninitialized_move_from a i spre vs spost c j dpre ds dpost k n
    h b o fs l tr Q E :
  a ≠ c →
  h !! a = Some (spre ++ (Some <$> vs) ++ spost) → length spre = i →
  h !! c = Some (dpre ++ (Some <$> ds) ++ replicate n None ++ dpost) →
  length dpre = j → length ds = k → length vs = n →
  (∀ fs', (fs = [] → fs' = []) →
          (is_nothrow_move_constructible = true → fs' = fs) →
     Q () (World (<[c := dpre ++ (Some <$> ds) ++ (Some <$> vs) ++ dpost]>
                    (<[a := spre ++ (Some <$> (husk <$> vs)) ++ spost]> h))
                 b o fs' l (tr ++ (EvMove <$> vs)))) →
  (∀ vs1 v vs2 fs' tr', vs = vs1 ++ v :: vs2 → fs ≠ [] →
     is_nothrow_move_constructible = false →
     E (World (<[c := dpre ++ replicate (k + n) None ++ dpost]>
                 (<[a := spre ++ (Some <$> (husk <$> vs1)) ++
                          Some (failed_move v) :: (Some <$> vs2) ++ spost]> h))
              b o fs' l tr')) →
  wp (uninitialized_move_from k (Ptr (Some a) i) n (Ptr (Some c) j))
     (World h b o fs l tr) Q E.
Proof.
  intros Hac. revert i spre ds k n h fs tr Q E.
  induction vs as [|v vs IH];
    intros i spre ds k n h fs tr Q E Ha Hi Hc Hj Hk Hn HQ HE; subst n; simpl.
  - apply wp_ret. eapply post_eq; [by apply (HQ fs)|]. simpl.
    rewrite (insert_id h a) by done. simpl in *. by rewrite insert_id, app_nil_r.
  - simpl in Hc. apply wp_bind, wp_catch. unfold move_construct. apply wp_bind.
    eapply wp_peek; [exact Ha|done|]. unfold ptr_add; simpl.
    apply wp_bind, wp_catch.
    eapply (wp_construct_at c (j + k) (dpre ++ (Some <$> ds))).
    { by rewrite <-app_assoc. }
    { rewrite length_app, length_fmap. lia. }
    + intros fs1 Hfs1 Hfs1'. apply wp_bind.
      eapply wp_poke; [rewrite lookup_insert_ne by done; exact Ha|done|].
      apply wp_ret.
      eapply (IH _ (spre ++ [Some (husk v)]) (ds ++ [v])).
      * by rewrite lookup_insert_eq, <-app_assoc.
      * rewrite length_app; simpl; lia.
      * rewrite lookup_insert_ne, lookup_insert_eq, fmap_app, <-!app_assoc by done.
        done.
      * done.
      * rewrite length_app; simpl; lia.
      * done.
      * intros fs2 Hfs2 Hfs2'. eapply post_eq; [apply (HQ fs2)|].
        -- auto.
        -- intros Hn. rewrite Hfs2', Hfs1' by (simpl; by rewrite ?Hn). done.
        -- rewrite fmap_app. world_eq.
      * intros vs1 v' vs2 fs2 tr2 Hvs Hfs2 Hn.
        eapply exn_eq; [apply (HE (v :: vs1) v' vs2 fs2 tr2); try done|].
        -- by rewrite Hvs.
        -- intros ->. by apply Hfs2, Hfs1.
        -- world_eq. by rewrite Nat.add_succ_r.
    + intros fs1 Hfs1 Hthr. apply wp_bind.
      eapply wp_poke; [exact Ha|done|]. apply wp_ret. unfold wp, throw.
      eapply (wp_destroy_n c j dpre ds).
      { rewrite lookup_insert_ne by done. exact Hc. }
      { done. }
      { done. }
      unfold wp, throw.
      eapply exn_eq;
        [apply (HE [] v vs fs1 (tr ++ (EvDtor <$> ds))); try done|].
      * simpl in Hthr. by destruct is_nothrow_move_constructible.
      * rewrite replicate_add. world_eq.
Qed.

Lemma wp_uninitialized_move_n a i spre vs spost c j dpre dpost n h b o fs l tr Q E :
  a ≠ c →
  h !! a = Some (spre ++ (Some <$> vs) ++ spost) → length spre = i →
  h !! c = Some (dpre ++ replicate n None ++ dpost) → length dpre = j →
  length vs = n →
  (∀ fs', (fs = [] → fs' = []) →
          (is_nothrow_move_constructible = true → fs' = fs) →
     Q () (World (<[c := dpre ++ (Some <$> vs) ++ dpost]>
                    (<[a := spre ++ (Some <$> (husk <$> vs)) ++ spost]> h))
                 b o fs' l (tr ++ (EvMove <$> vs)))) →
  (∀ vs1 v vs2 fs' tr', vs = vs1 ++ v :: vs2 → fs ≠ [] →
     is_nothrow_move_constructible = false →
     E (World (<[a := spre ++ (Some <$> (husk <$> vs1)) ++
                       Some (failed_move v) :: (Some <$> vs2) ++ spost]> h)
              b o fs' l tr')) →
  wp (uninitialized_move_n (Ptr (Some a) i) n (Ptr (Some c) j))
     (World h b o fs l tr) Q E.
Proof.
  intros Hac Ha Hi Hc Hj Hn HQ HE. unfold uninitialized_move_n.
  eapply (wp_uninitialized_move_from a i spre vs spost c j dpre [] dpost 0);
    [done..| |].
  - intros fs' Hfs Hfs'. by apply HQ.
  - intros vs1 v vs2 fs' tr' Hvs Hfs Hnt.
    eapply exn_eq; [by apply (HE vs1 v vs2 fs' tr')|]. simpl.
    f_equal. rewrite (insert_id _ c); [done|]. by rewrite lookup_insert_ne.
Qed.

Lemma wp_uninitialized_fill_from x a i pre ds post k n h b o fs l tr Q E :
  h !! a = Some (pre ++ (Some <$> ds) ++ replicate n None ++ post) →
  length pre = i → length ds = k →
  (∀ fs', (fs = [] → fs' = []) →
     Q () (World (<[a := pre ++ (Some <$> ds) ++ replicate n (Some x) ++ post]> h)
                 b o fs' l (tr ++ replicate n (EvCtor x)))) →
  (∀ fs' tr', fs ≠ [] →
     E (World (<[a := pre ++ replicate (k + n) None ++ post]> h) b o fs' l tr')) →
  wp (uninitialized_fill_from k x (Ptr (Some a) i) n) (World h b o fs l tr) Q E.
Proof.
  revert ds k h fs tr Q E.
  induction n as [|n IH]; intros ds k h fs tr Q E Ha Hi Hk HQ HE; simpl.
  - apply wp_ret. eapply post_eq; [by apply (HQ fs)|]. simpl in *.
    by rewrite insert_id, app_nil_r.
  - simpl in Ha. apply wp_bind, wp_catch. unfold ptr_add; simpl.
    eapply (wp_construct_at a (i + k) (pre ++ (Some <$> ds))).
    { by rewrite <-app_assoc. }
    { rewrite length_app, length_fmap. lia. }
    + intros fs1 Hfs1 _.
      eapply (IH (ds ++ [x])).
      * rewrite lookup_insert_eq, fmap_app, <-!app_assoc. done.
      * done.
      * rewrite length_app; simpl; lia.
      * intros fs2 Hfs2. eapply post_eq; [apply (HQ fs2); auto|].
        rewrite fmap_app. world_eq.
      * intros fs2 tr2 Hfs2.
        eapply exn_eq; [apply (HE fs2 tr2); by auto|].
        replace (k + S n) with (S k + n) by lia. world_eq.
    + intros fs1 Hfs1 _.
      eapply (wp_destroy_n a i pre ds); [exact Ha|done|done|].
      unfold wp, throw.
      eapply exn_eq; [by apply (HE fs1 (tr ++ (EvDtor <$> ds)))|].
      by rewrite replicate_add, <-app_assoc.
Qed.

Lemma wp_uninitialized_fill_with x a i pre post n h b o fs l tr Q E :
  h !! a = Some (pre ++ replicate n None ++ post) → length pre = i →
  (∀ fs', (fs = [] → fs' = []) →
     Q () (World (<[a := pre ++ replicate n (Some x) ++ post]> h) b o fs' l
                 (tr ++ replicate n (EvCtor x)))) →
  (∀ fs' tr', fs ≠ [] → E (World h b o fs' l tr')) →
  wp (uninitialized_fill_with x (Ptr (Some a) i) n) (World h b o fs l tr) Q E.
Proof.
  intros Ha Hi HQ HE. unfold uninitialized_fill_with.
  eapply (wp_uninitialized_fill_from x a i pre [] post 0); [done..| |].
  - intros fs' Hfs. by apply HQ.
  - intros fs' tr' Hfs. eapply exn_eq; [by apply (HE fs' tr')|]. simpl.
    by rewrite insert_id.
Qed.

Lemma wp_copy_n a i spre vs spost c j dpre (ds : list T) dpost n h b o fs l tr Q E :
  a ≠ c →
  h !! a = Some (spre ++ (Some <$> vs) ++ spost) → length spre = i →
  h !! c = Some (dpre ++ (Some <$> ds) ++ dpost) → length dpre = j →
  length vs = n → length ds = n →
  (∀ fs', (fs = [] → fs' = []) →
     Q () (World (<[c := dpre ++ (Some <$> vs) ++ dpost]> h) b o fs' l
                 (tr ++ (EvAssign <$> vs)))) →
  (∀ h' fs' tr', fs ≠ [] → E (World h' b o fs' l tr')) →
  wp (copy_n (Ptr (Some a) i) n (Ptr (Some c) j)) (World h b o fs l tr) Q E.
Proof.
  intros Hac. revert i spre j dpre ds n h fs tr Q E.
  induction vs as [|v vs IH];
    intros i spre j dpre ds n h fs tr Q E Ha Hi Hc Hj Hn Hds HQ HE; subst n.
  - destruct ds; [|done]. simpl. apply wp_ret.
    eapply post_eq; [by apply (HQ fs)|]. world_eq.
  - destruct ds as [|d ds]; [done|]. simpl in Hds.
    simpl. apply wp_bind. unfold copy_assign. apply wp_bind.
    eapply wp_peek; [exact Ha|done|]. apply wp_bind.
    apply wp_tick; [|intros; by apply HE]. intros fs1 Hfs1.
    eapply wp_assign_at; [exact Hc|done|done|]. unfold ptr_add; simpl.
    eapply (IH _ (spre ++ [Some v]) _ (dpre ++ [Some v]) ds).
    + by rewrite lookup_insert_ne, <-app_assoc.
    + rewrite length_app; simpl; lia.
    + by rewrite lookup_insert_eq, <-app_assoc.
    + rewrite length_app; simpl; lia.
    + done.
    + lia.
    + intros fs2 Hfs2. eapply post_eq; [apply (HQ fs2); auto|]. world_eq.
    + intros h' fs2 tr2 Hfs2. apply HE. intros ->. by apply Hfs2, Hfs1.
Qed.

Lemma wp_move_assign a i j blk v old h b o fs l tr Q E :
  h !! a = Some blk → blk !! i = Some (Some v) → blk !! j = Some old → i ≠ j →
  (old = None → is_trivially_destructible = true) →
  (∀ fs', (fs = [] → fs' = []) →
     Q () (World (<[a := <[i := Some (husk v)]> (<[j := Some v]> blk)]> h) b o fs' l
                 (tr ++ [EvAssign v]))) →
  (∀ h' fs' tr', fs ≠ [] → is_nothrow_move_assignable = false →
     E (World h' b o fs' l tr')) →
  wp (move_assign (Ptr (Some a) i) (Ptr (Some a) j)) (World h b o fs l tr) Q E.
Proof.
  intros Ha Hi Hj Hij Hold HQ HE. unfold move_assign.
  apply wp_bind. unfold wp at 1, peek; simpl. rewrite Ha, Hi.
  apply wp_bind. apply wp_may_throw.
  2:{ intros fs' Hfs Hc. apply HE; [done|].
      by destruct is_nothrow_move_assignable. }
  intros fs1 Hfs1 _. apply wp_bind.
  unfold assign_at. apply wp_bind.
  unfold wp at 1, poke; simpl. rewrite Ha, Hj.
  assert (match old with
          | Some _ => log (EvAssign v)
          | None => if is_trivially_destructible then log (EvAssign v) else undef
          end = log (EvAssign v)) as ->.
  { destruct old; [done|]. by rewrite Hold. }
  apply wp_log. apply wp_bind.
  unfold wp at 1, poke; simpl. rewrite lookup_insert_eq.
  rewrite list_lookup_insert_ne, Hi by done. apply wp_ret.
  eapply post_eq; [by apply (HQ fs1)|]. world_eq.
Qed.

Lemma insert_mid0 {A} (pre post : list A) i x y :
  length pre = i → <[i := x]> (pre ++ y :: post) = pre ++ x :: post.
Proof. intros <-. by rewrite <-(Nat.add_0_r (length pre)), insert_app_r. Qed.

Lemma insert_mid1 {A} (pre post : list A) i x y z :
  length pre = i → <[i + 1 := x]> (pre ++ y :: z :: post) = pre ++ y :: x :: post.
Proof. intros <-. by rewrite insert_app_r. Qed.

Lemma lookup_mid1 {A} (pre post : list A) i y z :
  length pre = i → (pre ++ y :: z :: post) !! (i + 1) = Some z.
Proof. intros <-. by rewrite lookup_app_r, Nat.add_comm, Nat.add_sub by lia. Qed.

(** A forward shift by one slot inside a block: [s0] is overwritten by the
    first element, and the last slot read keeps a husk. *)
Lemma wp_move_range a i pre s0 vs post n h b o fs l tr Q E :
  h !! a = Some (pre ++ s0 :: (Some <$> vs) ++ post) → length pre = i →
  length vs = n →
  (s0 = None → vs = [] ∨ is_trivially_destructible = true) →
  (∀ fs', (fs = [] → fs' = []) →
     Q () (World (<[a := pre ++ (Some <$> vs) ++ vacated s0 (last vs) :: post]> h)
                 b o fs' l (tr ++ (EvAssign <$> vs)))) →
  (∀ h' fs' tr', fs ≠ [] → is_nothrow_move_assignable = false →
     E (World h' b o fs' l tr')) →
  wp (move_range (Ptr (Some a) (i + 1)) n (Ptr (Some a) i)) (World h b o fs l tr) Q E.
Proof.
  revert i pre s0 n h fs tr Q E.
  induction vs as [|v vs IH]; intros i pre s0 n h fs tr Q E Ha Hi Hn Hs0 HQ HE; subst n.
  - simpl. apply wp_ret. eapply post_eq; [by apply (HQ fs)|]. world_eq.
  - simpl. apply wp_bind. simpl in Ha.
    eapply wp_move_assign; [exact Ha|by apply lookup_mid1|by apply list_lookup_middle
                           |lia| | |done].
    { intros Hnone. by destruct (Hs0 Hnone). }
    intros fs1 Hfs1. unfold ptr_add; simpl.
    rewrite (insert_mid0 pre _ i) by done. rewrite (insert_mid1 pre _ i) by done.
    eapply (IH (i + 1) (pre ++ [Some v]) (Some (husk v))).
    + by rewrite lookup_insert_eq, <-app_assoc.
    + rewrite length_app; simpl; lia.
    + done.
    + done.
    + intros fs2 Hfs2. eapply post_eq; [apply (HQ fs2); auto|].
      assert (vacated (Some (husk v)) (last vs) = vacated s0 (last (v :: vs))) as ->.
      { rewrite (last_cons v vs). by destruct (last vs). }
      world_eq.
    + intros h' fs2 tr2 Hfs2 Hc. apply HE; [|done]. intros ->. by apply Hfs2, Hfs1.
Qed.

(** A backward shift by one slot inside a block: the slot [t] after the
    range is overwritten by the last element, and the first slot of the
    range keeps a husk. *)
Lemma wp_move_backward a i pre vs t post n d h b o fs l tr Q E :
  h !! a = Some (pre ++ (Some <$> vs) ++ t :: post) → length pre = i →
  length vs = n → d = S (i + n) →
  (t = None → vs = [] ∨ is_trivially_destructible = true) →
  (∀ fs', (fs = [] → fs' = []) →
     Q () (World (<[a := pre ++ vacated t (head vs) :: (Some <$> vs) ++ post]> h)
                 b o fs' l (tr ++ (EvAssign <$> reverse vs)))) →
  (∀ h' fs' tr', fs ≠ [] → is_nothrow_move_assignable = false →
     E (World h' b o fs' l tr')) →
  wp (move_backward (Ptr (Some a) i) n (Ptr (Some a) d)) (World h b o fs l tr) Q E.
Proof.
  revert t post n d h fs tr Q E.
  induction vs as [|v vs IH] using rev_ind;
    intros t post n d h fs tr Q E Ha Hi Hn Hd Ht HQ HE; subst n d.
  - simpl. apply wp_ret. eapply post_eq; [by apply (HQ fs)|]. world_eq.
  - rewrite length_app, Nat.add_comm. simpl.
    rewrite fmap_app, <-app_assoc in Ha. simpl in Ha.
    rewrite app_assoc in Ha.
    apply wp_bind. unfold ptr_add; simpl.
    eapply wp_move_assign; [exact Ha| | |lia| | |done].
    { apply list_lookup_middle. rewrite length_app, length_fmap. lia. }
    { rewrite Nat.add_succ_r, <-Nat.add_1_r. apply lookup_mid1.
      rewrite length_app, length_fmap. lia. }
    { intros Hnone. destruct (Ht Hnone) as [Hnil|]; [|done].
      by destruct vs. }
    intros fs1 Hfs1.
    rewrite Nat.add_succ_r, <-(Nat.add_1_r (i + length vs)).
    rewrite (insert_mid1 _ _ (i + length vs))
      by (rewrite length_app, length_fmap; lia).
    rewrite (insert_mid0 _ _ (i + length vs))
      by (rewrite length_app, length_fmap; lia).
    eapply (IH (Some (husk v)) (Some v :: post)).
    + by rewrite lookup_insert_eq, <-app_assoc.
    + done.
    + done.
    + lia.
    + done.
    + intros fs2 Hfs2. eapply post_eq; [apply (HQ fs2); auto|].
      assert (vacated (Some (husk v)) (head vs) = vacated t (head (vs ++ [v]))) as ->.
      { by destruct vs. }
      rewrite reverse_app, fmap_app. world_eq.
    + intros h' fs2 tr2 Hfs2 Hc. apply HE; [|done]. intros ->. by apply Hfs2, Hfs1.
Qed.

(** *** [RawMemory] and the store *)

Lemma wp_Allocate n h b o fs l tr Q E :
  (n = 0 → Q None (World h b o fs l tr)) →
  (n ≠ 0 → ∀ fs', (fs = [] → fs' = []) →
     Q (Some b) (World (<[b := replicate n None]> h) (S b) o fs' l
                       (tr ++ [EvAlloc b n]))) →
  (n ≠ 0 → ∀ fs', fs ≠ [] → E (World h b o fs' l tr)) →
  wp (Allocate n) (World h b o fs l tr) Q E.
Proof.
  intros H0 HQ HE. unfold Allocate. destruct (Nat.eqb_spec n 0) as [->|Hn].
  - by apply wp_ret, H0.
  - apply wp_bind, wp_tick; [|by apply HE]. intros fs' Hfs. by apply HQ.
Qed.

Lemma wp_RawMemory_ctor n h b o fs l tr Q E :
  (n = 0 → Q (mkRawMemory None 0) (World h b o fs l tr)) →
  (n ≠ 0 → ∀ fs', (fs = [] → fs' = []) →
     Q (mkRawMemory (Some b) n)
       (World (<[b := replicate n None]> h) (S b) o fs' l (tr ++ [EvAlloc b n]))) →
  (n ≠ 0 → ∀ fs', fs ≠ [] → E (World h b o fs' l tr)) →
  wp (RawMemory_ctor n) (World h b o fs l tr) Q E.
Proof.
  intros H0 HQ HE. unfold RawMemory_ctor. apply wp_bind, wp_Allocate.
  - intros ->. by apply wp_ret, H0.
  - intros Hn fs' Hfs. by apply wp_ret, HQ.
  - done.
Qed.

Lemma wp_Deallocate a blk h b o fs l tr Q E :
  h !! a = Some blk →
  Q () (World (delete a h) b o fs (l ++ omap id blk) (tr ++ [EvFree a])) →
  wp (Deallocate (Some a)) (World h b o fs l tr) Q E.
Proof. intros Ha HQ. unfold wp, Deallocate; simpl. by rewrite Ha. Qed.

Lemma wp_Deallocate_null w Q E : Q () w → wp (Deallocate None) w Q E.
Proof. done. Qed.

Lemma wp_scope_RawMemory {A} capacity (body : RawMemory → M T (A * RawMemory)) w Q E :
  wp (RawMemory_ctor capacity) w
     (λ nd w1, wp (body nd) w1
                  (λ ar w2, wp (RawMemory_dtor ar.2) w2 (λ _ w3, Q ar.1 w3) E)
                  (λ w2, wp (RawMemory_dtor nd) w2 (λ _ w3, E w3) E))
     E →
  wp (scope_RawMemory capacity body) w Q E.
Proof.
  unfold scope_RawMemory. intros Hwp. apply wp_bind.
  eapply wp_mono; [exact Hwp| |done]. intros nd w1. simpl.
  unfold wp at 1 4. destruct (body nd w1) as [[a r] w2|w2|]; simpl; [| |done].
  - unfold wp, bind, ret. by destruct (RawMemory_dtor r w2).
  - unfold wp, bind, throw. by destruct (RawMemory_dtor nd w2).
Qed.

Lemma wp_getv this v h b o fs l tr Q E :
  o !! this = Some v → Q v (World h b o fs l tr) →
  wp (getv this) (World h b o fs l tr) Q E.
Proof. intros Ho HQ. unfold wp, getv; simpl. by rewrite Ho. Qed.

Lemma wp_putv this v h b o fs l tr Q E :
  Q () (World h b (<[this := v]> o) fs l tr) →
  wp (putv this v) (World h b o fs l tr) Q E.
Proof. done. Qed.

Lemma wp_set_size this v n h b o fs l tr Q E :
  o !! this = Some v →
  Q () (World h b (<[this := mkVector (data_ v) n]> o) fs l tr) →
  wp (set_size this n) (World h b o fs l tr) Q E.
Proof.
  intros Ho HQ. unfold set_size. apply wp_bind.
  eapply wp_getv; [done|]. by apply wp_putv.
Qed.

Lemma omap_id_replicate_None n : omap id (replicate n (@None T)) = [].
Proof. by induction n. Qed.

Lemma replicate_split {A} (n k : nat) (x : A) :
  k < n → replicate n x = replicate k x ++ x :: replicate (n - S k) x.
Proof.
  intros Hk. replace n with (k + S (n - S k)) at 1 by lia.
  by rewrite replicate_add.
Qed.

(** *** Transfers between blocks *)

Lemma wp_MoveData a i spre vs spost c j dpre dpost n h b o fs l tr Q E :
  a ≠ c →
  h !! a = Some (spre ++ (Some <$> vs) ++ spost) → length spre = i →
  h !! c = Some (dpre ++ replicate n None ++ dpost) → length dpre = j →
  length vs = n →
  (∀ fs', (fs = [] → fs' = []) →
          (is_nothrow_move_constructible = true → fs' = fs) →
     Q () (World (<[c := dpre ++ (Some <$> vs) ++ dpost]>
                    (<[a := spre ++ (Some <$> (left_behind <$> vs)) ++ spost]> h))
                 b o fs' l (tr ++ (transfer_event <$> vs)))) →
  (∀ src fs' tr', left_by_failure vs src → fs ≠ [] →
     is_nothrow_move_constructible = false →
     E (World (<[a := spre ++ src ++ spost]> h) b o fs' l tr')) →
  wp (MoveData (Ptr (Some a) i) n (Ptr (Some c) j)) (World h b o fs l tr) Q E.
Proof.
  intros Hac Ha Hi Hc Hj Hn HQ HE. unfold MoveData.
  unfold transfer_event, left_behind, left_by_failure in *.
  destruct ISNOTHROWMOVEORCOPYCTOR eqn:Hmode.
  - eapply wp_uninitialized_move_n; eauto.
    intros vs1 v vs2 fs' tr' Hvs Hfs Hnt.
    eapply exn_eq;
      [apply (HE ((Some <$> (husk <$> vs1)) ++ Some (failed_move v) :: (Some <$> vs2))
                 fs' tr'); [|done..]|].
    + by exists vs1, v, vs2.
    + world_eq.
  - unfold ISNOTHROWMOVEORCOPYCTOR in Hmode.
    apply orb_false_iff in Hmode as [Hnt _].
    eapply wp_uninitialized_copy_n; eauto.
    + intros fs' Hfs. eapply post_eq; [apply (HQ fs'); [done|]|].
      * by rewrite Hnt.
      * rewrite list_fmap_id. world_eq.
    + intros fs' tr' Hfs.
      eapply exn_eq; [by apply (HE (Some <$> vs) fs' tr')|]. world_eq.
Qed.

Lemma wp_MoveData_0 p q w Q E : Q () w → wp (MoveData p 0 q) w Q E.
Proof. intros HQ. unfold MoveData. by destruct ISNOTHROWMOVEORCOPYCTOR. Qed.

Lemma wp_DestroyAndSwap this a cap n nd ws post h b o fs l tr Q E :
  o !! this = Some (mkVector (mkRawMemory (Some a) cap) n) →
  h !! a = Some ((Some <$> ws) ++ post) → length ws = n →
  Q (mkRawMemory (Some a) cap)
    (World (<[a := replicate n None ++ post]> h) b
           (<[this := mkVector nd n]> o) fs l (tr ++ (EvDtor <$> ws))) →
  wp (DestroyAndSwap this nd) (World h b o fs l tr) Q E.
Proof.
  intros Ho Ha Hn HQ. unfold DestroyAndSwap. apply wp_bind.
  eapply wp_getv; [done|]. simpl. apply wp_bind.
  eapply (wp_destroy_n a 0 []); [exact Ha|done|done|].
  destruct nd as [nb nc]. simpl. apply wp_bind, wp_putv, wp_ret. done.
Qed.

Lemma wp_DestroyAndSwap_null this cap nd h b o fs l tr Q E :
  o !! this = Some (mkVector (mkRawMemory None cap) 0) →
  Q (mkRawMemory None cap)
    (World h b (<[this := mkVector nd 0]> o) fs l tr) →
  wp (DestroyAndSwap this nd) (World h b o fs l tr) Q E.
Proof.
  intros Ho HQ. unfold DestroyAndSwap. apply wp_bind.
  eapply wp_getv; [done|]. simpl. apply wp_bind, wp_ret.
  destruct nd as [nb nc]. simpl. apply wp_bind, wp_putv, wp_ret. done.
Qed.

Lemma MoveDataTo_unfold this new_data :
  MoveDataTo this new_data =
  (let* v := getv this in
   MoveData (GetAddress (data_ v)) (size_ v) (GetAddress new_data) >>>
   DestroyAndSwap this new_data).
Proof. done. Qed.

Lemma grown_max n : grown n = max 1 (2 * n).
Proof. unfold grown. destruct (Nat.eqb_spec n 0); lia. Qed.

Lemma grown_gt n : n < grown n.
Proof. rewrite grown_max. lia. Qed.

Lemma transfer_safe_left_by_failure (vs : list T) src :
  transfer_safe = true → is_nothrow_move_constructible = false →
  left_by_failure vs src → src = Some <$> vs.
Proof.
  unfold transfer_safe, left_by_failure, ISNOTHROWMOVEORCOPYCTOR.
  intros Hs Hn. rewrite Hn in *. simpl in *. by rewrite Hs.
Qed.

Lemma left_by_failure_cases (vs : list T) src :
  is_nothrow_move_constructible = false → left_by_failure vs src →
  (transfer_safe = true ∧ src = Some <$> vs) ∨
  (transfer_safe = false ∧ ∃ vs1 v vs2, vs = vs1 ++ v :: vs2 ∧
     src = (Some <$> (husk <$> vs1)) ++ Some (failed_move v) :: (Some <$> vs2)).
Proof.
  unfold transfer_safe, left_by_failure, ISNOTHROWMOVEORCOPYCTOR.
  intros Hn. rewrite Hn. simpl. destruct is_copy_constructible; simpl; auto.
Qed.

Lemma transfer_unsafe_left_behind (vs : list T) :
  transfer_safe = false → left_behind <$> vs = husk <$> vs.
Proof.
  unfold transfer_safe, left_behind, ISNOTHROWMOVEORCOPYCTOR.
  intros [Hn Hc]%orb_false_iff. by rewrite Hn, Hc.
Qed.

Lemma transfer_safe_left_behind (vs : list T) :
  transfer_safe = true → is_nothrow_move_constructible = false →
  left_behind <$> vs = vs.
Proof.
  unfold transfer_safe, left_behind, ISNOTHROWMOVEORCOPYCTOR.
  intros Hs Hn. rewrite Hn in *. simpl in *. rewrite Hs. simpl.
  apply list_fmap_id.
Qed.

Lemma PushBack_with_spec this i buf xs cap w :
  vec_at w this buf xs cap → heap_ok w →
  wp (PushBack_with this i) w
     (λ _ w', PushBack_post this i buf xs cap w w')
     (λ w', faults w ≠ [] ∧ objs w' = objs w ∧
            (transfer_safe = true → heap w' = heap w)).
Proof.
  destruct w as [h b o fs l tr]. intros (Ho & Hle & Hbuf) Hok. simpl in *.
  unfold PushBack_with, PushBack_post. apply wp_bind.
  eapply wp_getv; [done|]. simpl. apply wp_bind.
  destruct (Nat.eqb_spec (length xs) cap) as [Hfull|Hroom].
  - (* growth *)
    subst cap. fold (grown (length xs)).
    pose proof (grown_gt (length xs)) as Hgt.
    apply wp_scope_RawMemory, wp_RawMemory_ctor; [lia| |].
    2:{ intros _ fs' Hfs. simpl. done. }
    intros _ fs1 Hfs1. apply wp_bind. unfold GetAddress, ptr_add; simpl.
    rewrite (replicate_split (grown (length xs)) (length xs)) by done.
    eapply wp_construct_at.
    { apply lookup_insert_eq. }
    { by rewrite length_replicate. }
    2:{ intros fs2 Hfs2 _. unfold RawMemory_dtor; simpl.
        eapply wp_Deallocate; [apply lookup_insert_eq|]. simpl.
        split; [intros ->; by apply Hfs2, Hfs1|]. split; [done|].
        intros _. rewrite delete_insert_eq. apply delete_id, Hok. simpl. lia. }
    intros fs2 Hfs2 _. rewrite insert_insert_eq.
    rewrite MoveDataTo_unfold. apply wp_bind, wp_bind.
    eapply wp_getv; [done|]. simpl. unfold GetAddress; simpl.
    destruct buf as [a|].
    + (* the vector has a block *)
      assert (a ≠ b) as Hab.
      { intros ->. rewrite Hok in Hbuf by (simpl; lia). done. }
      assert (b ≠ a) as Hba by done.
      unfold block_of in Hbuf. rewrite Nat.sub_diag in Hbuf. simpl in Hbuf.
      rewrite app_nil_r in Hbuf.
      apply wp_bind.
      eapply (wp_MoveData a 0 [] xs [] b 0 []); [done| |done| |done|done| |].
      { rewrite lookup_insert_ne by done. simpl. by rewrite app_nil_r. }
      { rewrite lookup_insert_eq. done. }
      2:{ intros src fs3 tr3 Hsrc Hfs3 Hnt. unfold RawMemory_dtor; simpl.
          eapply wp_Deallocate.
          { rewrite lookup_insert_ne, lookup_insert_eq by done. done. }
          simpl. split; [intros ->; by apply Hfs3, Hfs2, Hfs1|].
          split; [done|]. intros Hsafe.
          rewrite (transfer_safe_left_by_failure xs src) by done.
          rewrite app_nil_r.
          heap_eq. symmetry. apply Hok. simpl. lia. }
      intros fs3 Hfs3 _. simpl.
      eapply (wp_DestroyAndSwap this a _ _ _ (left_behind <$> xs) []);
        [done| |by rewrite length_fmap|].
      { rewrite lookup_insert_ne, lookup_insert_eq by done.
        by rewrite app_nil_r. }
      apply wp_ret. simpl. unfold RawMemory_dtor; simpl.
      eapply wp_Deallocate.
      { by rewrite lookup_insert_eq. }
      apply wp_bind. eapply wp_getv; [apply lookup_insert_eq|].
      simpl. eapply wp_set_size; [apply lookup_insert_eq|]. simpl.
      rewrite omap_app, omap_id_replicate_None. simpl.
      split; [split; [|split]|split; [|split]].
      * unfold vec_at; simpl. rewrite insert_insert_eq, lookup_insert_eq.
        rewrite length_app; simpl.
        split; [done|]. split; [lia|]. heap_lookup.
        f_equal. unfold block_of. rewrite fmap_app, length_app. simpl.
        rewrite <-app_assoc. simpl. do 3 f_equal. lia.
      * list_eq.
      * intros a' [= <-]. heap_lookup.
      * intros a' Ha'. simpl in Ha'. heap_lookup.
        apply Hok. simpl. lia.
      * by rewrite app_nil_r.
      * auto.
    + (* the vector is empty and has no block *)
      subst. destruct xs; [|done]. simpl in *.
      apply wp_bind, wp_MoveData_0.
      eapply wp_DestroyAndSwap_null; [done|].
      apply wp_ret. simpl. unfold RawMemory_dtor; simpl.
      apply wp_Deallocate_null. apply wp_bind.
      eapply wp_getv; [apply lookup_insert_eq|].
      simpl. eapply wp_set_size; [apply lookup_insert_eq|]. simpl.
      split; [split; [|split]|split; [|split]].
      * unfold vec_at; simpl. rewrite insert_insert_eq, lookup_insert_eq.
        split; [done|]. split; [done|]. heap_lookup.
      * list_eq.
      * done.
      * intros a' Ha'. simpl in Ha'. heap_lookup.
        apply Hok. simpl. lia.
      * done.
      * auto.
  - (* room left *)
    destruct buf as [a|]; [|lia].
    unfold GetAddress, ptr_add; simpl. unfold block_of in Hbuf.
    rewrite (replicate_split (cap - length xs) 0) in Hbuf by lia. simpl in Hbuf.
    eapply wp_construct_at; [exact Hbuf|by rewrite length_fmap| |].
    2:{ intros fs2 Hfs2 _. simpl. done. }
    intros fs2 Hfs2 _. apply wp_bind. eapply wp_getv; [done|].
    simpl. eapply wp_set_size; [done|]. simpl.
    split; [split|split; [|split]].
    * unfold vec_at; simpl. rewrite lookup_insert_eq, length_app. simpl.
      split; [done|]. split; [lia|]. heap_lookup.
      f_equal. unfold block_of. rewrite fmap_app, length_app, <-app_assoc. simpl.
      do 3 f_equal. lia.
    * done.
    * intros a' Ha'. simpl in *. heap_lookup; [|by apply Hok].
      rewrite Hok in Hbuf by done. done.
    * done.
    * auto.
Qed.

Lemma length_inserted pos x (xs : list T) :
  pos ≤ length xs → length (inserted pos x xs) = S (length xs).
Proof.
  unfold inserted. rewrite length_app. simpl.
  rewrite length_take, length_drop. lia.
Qed.

Lemma wp_EmplaceWithAllocation this pos i buf xs w :
  vec_at w this buf xs (length xs) → heap_ok w → pos ≤ length xs →
  wp (EmplaceWithAllocation this pos i) w
     (λ r w',
        r = pos ∧
        vec_at w' this (Some (brk w)) (inserted pos (init_value i) xs)
               (grown (length xs)) ∧
        trace w' = trace w ++ [EvAlloc (brk w) (grown (length xs)); ctor_event i] ++
                   (transfer_event <$> xs) ++ (EvDtor <$> (left_behind <$> xs)) ++
                   free_event buf ∧
        (∀ a, buf = Some a → heap w' !! a = None) ∧
        heap_ok w' ∧ lost w' = lost w ∧ (faults w = [] → faults w' = []))
     (Emplace_growth_exn buf xs w).
Proof.
  destruct w as [h b o fs l tr]. intros (Ho & Hle & Hbuf) Hok Hpos. simpl in *.
  unfold EmplaceWithAllocation, Emplace_growth_exn. apply wp_bind.
  eapply wp_getv; [done|]. simpl. fold (grown (length xs)).
  pose proof (grown_gt (length xs)) as Hgt.
  apply wp_scope_RawMemory, wp_RawMemory_ctor; [lia| |].
  2:{ intros _ fs' Hfs. simpl. auto. }
  intros _ fs1 Hfs1. apply wp_bind. unfold GetAddress, ptr_add; simpl.
  rewrite (replicate_split (grown (length xs)) pos) by lia.
  eapply wp_construct_at.
  { apply lookup_insert_eq. }
  { by rewrite length_replicate. }
  2:{ intros fs2 Hfs2 _. unfold RawMemory_dtor; simpl.
      eapply wp_Deallocate; [apply lookup_insert_eq|]. simpl.
      split; [intros ->; by apply Hfs2, Hfs1|]. split; [done|].
      rewrite omap_app. simpl. rewrite !omap_id_replicate_None.
      split; [by rewrite app_nil_r|]. left.
      rewrite delete_insert_eq. apply delete_id, Hok. simpl. lia. }
  intros fs2 Hfs2 _. rewrite insert_insert_eq.
  destruct buf as [a|].
  - assert (a ≠ b) as Hab.
    { intros ->. rewrite Hok in Hbuf by (simpl; lia). done. }
    assert (b ≠ a) as Hba by done.
    unfold block_of in Hbuf. rewrite Nat.sub_diag in Hbuf. simpl in Hbuf.
    rewrite app_nil_r in Hbuf.
    rewrite <-(take_drop pos xs), fmap_app in Hbuf.
    assert (length (take pos xs) = pos) as Hlt by (rewrite length_take; lia).
    assert (length (drop pos xs) = length xs - pos) as Hld by apply length_drop.
    apply wp_bind, wp_catch.
    eapply (wp_MoveData a 0 [] (take pos xs) (Some <$> drop pos xs) b 0 []);
      [done| |done| |done|done| |].
    { rewrite lookup_insert_ne by done. exact Hbuf. }
    { rewrite lookup_insert_eq. done. }
    2:{ intros src fs3 tr3 Hsrc Hfs3 Hnt. simpl.
        eapply wp_destroy_at.
        { rewrite lookup_insert_ne, lookup_insert_eq by done. done. }
        { by rewrite length_replicate. }
        unfold RawMemory_dtor; simpl.
        eapply wp_Deallocate.
        { by rewrite lookup_insert_eq. }
        simpl. split; [intros ->; by apply Hfs3, Hfs2, Hfs1|].
        split; [done|].
        rewrite omap_app. simpl. rewrite !omap_id_replicate_None.
        split; [by rewrite app_nil_r|].
        destruct (left_by_failure_cases _ _ Hnt Hsrc)
          as [[Hsafe ->]|(Hunsafe & vs1 & v & vs2 & Hvs & ->)].
        - left. heap_eq. symmetry. apply Hok. simpl. lia.
        - right. split; [done|].
          exists a, vs1, v, (vs2 ++ drop pos xs). split; [done|]. split.
          + rewrite <-(take_drop pos xs) at 1. by rewrite Hvs, <-app_assoc.
          + rewrite fmap_app. heap_eq. symmetry. apply Hok. simpl. lia. }
    intros fs3 Hfs3 _. simpl. apply wp_bind, wp_catch.
    rewrite insert_insert_ne, insert_insert_eq by done.
    replace (grown (length xs) - S pos)
      with ((length xs - pos) + (grown (length xs) - S (length xs))) by lia.
    rewrite replicate_add.
    eapply (wp_MoveData a pos (Some <$> (left_behind <$> take pos xs))
              (drop pos xs) [] b (pos + 1)
              ((Some <$> take pos xs) ++ [Some (init_value i)]));
      [done| | | | |done| |].
    { rewrite lookup_insert_eq. by rewrite app_nil_r. }
    { by rewrite !length_fmap. }
    { rewrite lookup_insert_ne, lookup_insert_eq by done.
      by rewrite <-app_assoc. }
    { rewrite length_app, length_fmap. simpl. lia. }
    2:{ intros src fs4 tr4 Hsrc Hfs4 Hnt. simpl.
        rewrite insert_insert_eq.
        eapply (wp_destroy_n b 0 [] (take pos xs ++ [init_value i])).
        { rewrite lookup_insert_ne, lookup_insert_eq by done.
          simpl. by rewrite fmap_app, <-app_assoc. }
        { done. }
        { rewrite length_app. simpl. lia. }
        unfold RawMemory_dtor; simpl.
        eapply wp_Deallocate.
        { by rewrite lookup_insert_eq. }
        simpl. split; [intros ->; by apply Hfs4, Hfs3, Hfs2, Hfs1|].
        split; [done|].
        rewrite !omap_app, !omap_id_replicate_None.
        split; [by rewrite app_nil_r|].
        destruct (left_by_failure_cases _ _ Hnt Hsrc)
          as [[Hsafe ->]|(Hunsafe & vs1 & v & vs2 & Hvs & ->)].
        - left.
          rewrite (transfer_safe_left_behind (take pos xs)) by done.
          rewrite app_nil_r, <-!fmap_app.
          heap_eq; first [by rewrite fmap_app, Hbuf
                         |symmetry; apply Hok; simpl; lia].
        - right. split; [done|].
          exists a, (take pos xs ++ vs1), v, vs2. split; [done|]. split.
          + rewrite <-(take_drop pos xs) at 1. by rewrite Hvs, <-app_assoc.
          + rewrite (transfer_unsafe_left_behind (take pos xs)) by done.
            rewrite app_nil_r, !fmap_app. heap_eq.
            symmetry. apply Hok. simpl. lia. }
    intros fs4 Hfs4 _. simpl. apply wp_bind.
    rewrite insert_insert_eq.
    eapply (wp_DestroyAndSwap this a _ _ _ (left_behind <$> xs) []);
      [done| |by rewrite length_fmap|].
    { rewrite lookup_insert_ne, lookup_insert_eq by done.
      rewrite !app_nil_r, <-!fmap_app. by rewrite (take_drop pos xs). }
    apply wp_bind. eapply wp_getv; [apply lookup_insert_eq|]. simpl.
    apply wp_bind. eapply wp_set_size; [apply lookup_insert_eq|]. simpl.
    apply wp_ret. simpl. unfold RawMemory_dtor; simpl.
    eapply wp_Deallocate.
    { by rewrite lookup_insert_eq. }
    simpl. rewrite omap_app, omap_id_replicate_None. simpl.
    split; [done|]. split; [|split; [|split; [|split; [|split]]]].
    + unfold vec_at; simpl. rewrite insert_insert_eq, lookup_insert_eq.
      rewrite length_inserted by done.
      split; [by rewrite Nat.add_1_r|]. split; [lia|]. heap_lookup.
      f_equal. unfold block_of, inserted.
      rewrite length_app, fmap_app. simpl. rewrite <-!app_assoc. simpl.
      do 3 f_equal. f_equal. lia.
    + list_eq.
      by rewrite (app_assoc (transfer_event <$> take pos xs)), <-fmap_app, take_drop.
    + intros a' [= <-]. heap_lookup.
    + intros a' Ha'. simpl in Ha'. heap_lookup. apply Hok. simpl. lia.
    + by rewrite app_nil_r.
    + auto.
  - subst. destruct xs; [|done]. simpl in *.
    assert (pos = 0) as -> by lia. simpl.
    apply wp_bind, wp_catch, wp_MoveData_0.
    apply wp_bind, wp_catch, wp_MoveData_0. apply wp_bind.
    eapply wp_DestroyAndSwap_null; [done|].
    apply wp_bind. eapply wp_getv; [apply lookup_insert_eq|]. simpl.
    apply wp_bind. eapply wp_set_size; [apply lookup_insert_eq|]. simpl.
    apply wp_ret. simpl. unfold RawMemory_dtor; simpl.
    apply wp_Deallocate_null.
    split; [done|]. split; [|split; [|split; [|split; [|split]]]].
    + unfold vec_at; simpl. rewrite insert_insert_eq, lookup_insert_eq.
      split; [done|]. split; [done|]. heap_lookup.
    + list_eq.
    + done.
    + intros a' Ha'. simpl in Ha'. heap_lookup. apply Hok. simpl. lia.
    + done.
    + auto.
Qed.

Lemma heap_ok_insert a blk blk' (h : gmap addr (list (option T)))
    b o fs (l : list T) tr h' b' o' fs' (l' : list T) tr' :
  heap_ok (World h b o fs l tr) → h !! a = Some blk → b ≤ b' →
  h' = <[a := blk']> h →
  heap_ok (World h' b' o' fs' l' tr').
Proof.
  intros Hok Ha Hb -> a' Ha'. simpl in *. rewrite lookup_insert_ne.
  - apply Hok. simpl. lia.
  - intros <-. rewrite Hok in Ha by (simpl; lia). done.
Qed.

Lemma wp_EmplaceInPosition_end this i a xs cap w :
  vec_at w this (Some a) xs cap → length xs < cap → heap_ok w →
  wp (EmplaceInPosition this (length xs) i) w
     (λ r w',
        r = length xs ∧
        vec_at w' this (Some a) (xs ++ [init_value i]) cap ∧
        heap_ok w' ∧ lost w' = lost w ∧ (faults w = [] → faults w' = []))
     (λ w', faults w ≠ [] ∧ objs w' = objs w ∧ lost w' = lost w ∧
            heap w' = heap w).
Proof.
  destruct w as [h b o fs l tr]. intros (Ho & Hle & Hbuf) Hlt Hok. simpl in *.
  unfold EmplaceInPosition. apply wp_bind.
  eapply wp_getv; [done|]. simpl. rewrite Nat.eqb_refl. apply wp_bind.
  unfold GetAddress, ptr_add; simpl. unfold block_of in Hbuf.
  rewrite (replicate_split (cap - length xs) 0) in Hbuf by lia. simpl in Hbuf.
  eapply wp_construct_at; [exact Hbuf|by rewrite length_fmap| |].
  2:{ intros fs2 Hfs2 _. simpl. done. }
  intros fs2 Hfs2 _. apply wp_bind. eapply wp_getv; [done|].
  simpl. apply wp_bind. eapply wp_set_size; [done|]. simpl. apply wp_ret.
  split; [done|]. split; [|split; [|split]].
  - unfold vec_at; simpl. rewrite lookup_insert_eq, length_app. simpl.
    split; [done|]. split; [lia|]. heap_lookup.
    f_equal. unfold block_of. rewrite fmap_app, length_app, <-app_assoc. simpl.
    do 3 f_equal. lia.
  - by eapply heap_ok_insert.
  - done.
  - auto.
Qed.

Lemma wp_EmplaceInPosition_mid this i a P ys z cap w :
  vec_at w this (Some a) (P ++ ys ++ [z]) cap →
  length (P ++ ys ++ [z]) < cap → heap_ok w →
  wp (EmplaceInPosition this (length P) i) w
     (λ r w',
        r = length P ∧
        vec_at w' this (Some a) (P ++ init_value i :: ys ++ [z]) cap ∧
        heap_ok w' ∧ lost w' = lost w ∧ (faults w = [] → faults w' = []))
     (λ w', faults w ≠ [] ∧ objs w' = objs w ∧ lost w' = lost w).
Proof.
  destruct w as [h b o fs l tr]. intros (Ho & Hle & Hbuf) Hlt Hok. simpl in *.
  assert (length (P ++ ys ++ [z]) = S (length P + length ys)) as Hlen.
  { rewrite !length_app. simpl. lia. }
  rewrite Hlen in *. unfold block_of in Hbuf. rewrite Hlen in Hbuf.
  rewrite (replicate_split (cap - S (length P + length ys)) 0) in Hbuf by lia.
  simpl in Hbuf. rewrite !fmap_app in Hbuf. simpl in Hbuf.
  set (R := replicate (cap - S (length P + length ys) - 1) None) in *.
  unfold EmplaceInPosition. apply wp_bind.
  eapply wp_getv; [done|]. simpl.
  destruct (Nat.eqb_spec (length P) (S (length P + length ys))) as [?|_]; [lia|].
  apply wp_bind, wp_bind.
  apply wp_run_ctor; [|by intros].
  intros fs1 Hfs1 _. apply wp_bind, wp_catch.
  unfold GetAddress, ptr_add; simpl.
  replace (length P + length ys - length P) with (length ys) by lia.
  (* the last element goes to the free slot behind it *)
  apply wp_bind. unfold move_construct. apply wp_bind.
  eapply (wp_peek a _ ((Some <$> P) ++ (Some <$> ys)) z (None :: R)).
  { rewrite Hbuf. by rewrite <-!app_assoc. }
  { rewrite length_app, !length_fmap. done. }
  apply wp_bind, wp_catch.
  eapply (wp_construct_at a _ ((Some <$> P) ++ (Some <$> ys) ++ [Some z]) R).
  { rewrite Hbuf. by rewrite <-!app_assoc. }
  { rewrite !length_app, !length_fmap. simpl. lia. }
  2:{ intros fs2 Hfs2 _. apply wp_bind.
      eapply (wp_poke a _ ((Some <$> P) ++ (Some <$> ys)) (Some z) (None :: R)).
      { rewrite Hbuf. by rewrite <-!app_assoc. }
      { rewrite length_app, !length_fmap. done. }
      apply wp_ret. apply wp_log. simpl.
      split; [intros ->; by apply Hfs2, Hfs1|]. done. }
  intros fs2 Hfs2 _. apply wp_bind.
  eapply (wp_poke a _ ((Some <$> P) ++ (Some <$> ys)) (Some z) (Some z :: R)).
  { rewrite lookup_insert_eq. by rewrite <-!app_assoc. }
  { rewrite length_app, !length_fmap. done. }
  apply wp_ret. rewrite insert_insert_eq.
  (* the elements from the position on move one slot towards the end *)
  apply wp_bind.
  destruct (Nat.ltb_spec (length P + length ys) (length P)) as [?|_]; [lia|].
  eapply (wp_move_backward a _ (Some <$> P) ys (Some (husk z)) (Some z :: R)).
  { rewrite lookup_insert_eq. by rewrite <-!app_assoc. }
  { by rewrite length_fmap. }
  { done. }
  { done. }
  { done. }
  2:{ intros h' fs3 tr3 Hfs3 _. apply wp_log. simpl.
      split; [intros ->; by apply Hfs3, Hfs2, Hfs1|]. done. }
  intros fs3 Hfs3. rewrite insert_insert_eq. apply wp_bind.
  apply wp_may_throw.
  2:{ intros fs4 Hfs4 _. apply wp_log. simpl.
      split; [intros ->; by apply Hfs4, Hfs3, Hfs2, Hfs1|]. done. }
  intros fs4 Hfs4 _.
  eapply (wp_assign_at a _ (Some <$> P)).
  { by rewrite lookup_insert_eq. }
  { by rewrite length_fmap. }
  { by destruct (head ys). }
  rewrite insert_insert_eq. apply wp_log.
  apply wp_bind. eapply wp_getv; [done|].
  simpl. apply wp_bind. eapply wp_set_size; [done|]. simpl. apply wp_ret.
  split; [done|]. split; [|split; [|split]].
  - unfold vec_at; simpl. rewrite lookup_insert_eq.
    assert (length (P ++ init_value i :: ys ++ [z]) = S (S (length P + length ys)))
      as -> by (rewrite !length_app; simpl; rewrite length_app; simpl; lia).
    split; [by rewrite Nat.add_1_r|]. split; [lia|]. heap_lookup.
    f_equal. unfold block_of. rewrite fmap_app. simpl. rewrite fmap_app. simpl.
    rewrite <-!app_assoc. simpl. rewrite <-!app_assoc. simpl.
    do 4 f_equal. unfold R. f_equal.
    rewrite !length_app. simpl. rewrite length_app. simpl. lia.
  - by eapply heap_ok_insert.
  - done.
  - auto.
Qed.

Lemma snoc_exists {A} (l : list A) : l ≠ [] → ∃ ys z, l = ys ++ [z].
Proof. destruct l as [|x l] using rev_ind; [done|]. eauto. Qed.

Lemma inserted_end x (xs : list T) : inserted (length xs) x xs = xs ++ [x].
Proof. unfold inserted. by rewrite take_ge, drop_ge by lia. Qed.

Lemma wp_Emplace this pos i buf xs cap w :
  vec_at w this buf xs cap → heap_ok w → pos ≤ length xs →
  wp (Emplace this pos i) w
     (λ r w',
        r = pos ∧
        (∃ buf', vec_at w' this buf' (inserted pos (init_value i) xs)
                        (if length xs =? cap then grown cap else cap)) ∧
        heap_ok w' ∧ lost w' = lost w ∧ (faults w = [] → faults w' = []))
     (Emplace_exn pos xs cap w).
Proof.
  intros Hvec Hok Hpos. unfold Emplace. apply wp_bind.
  pose proof Hvec as (Ho & Hle & Hbuf).
  destruct w as [h b o fs l tr]. simpl in *.
  eapply wp_getv; [done|]. simpl.
  destruct (Nat.eqb_spec (length xs) cap) as [<-|Hne].
  - eapply wp_mono; [by apply (wp_EmplaceWithAllocation this pos i buf xs)|..].
    + simpl. intros r w' (-> & Hv & _ & _ & Hok' & Hl & Hf). eauto 10.
    + simpl. intros w' (Hf & Hobjs & Hl & Hh). unfold Emplace_exn; simpl.
      split; [done|]. split; [done|]. split; [|lia].
      intros _ Hsafe. split; [|done].
      destruct Hh as [Hh|[Hunsafe _]]; [done|congruence].
  - destruct buf as [a|]; [|lia].
    destruct (decide (pos = length xs)) as [->|Hmid].
    + eapply wp_mono; [apply (wp_EmplaceInPosition_end this i a xs cap);
                       [done|lia|done]|..].
      * simpl. intros r w' (-> & Hv & Hok' & Hl & Hf).
        rewrite inserted_end. eauto 10.
      * simpl. intros w' (Hf & Hobjs & Hl & Hh). unfold Emplace_exn; simpl.
        split; [done|]. split; [done|]. split; [lia|]. auto.
    + destruct (snoc_exists (drop pos xs)) as (ys & z & Hdrop).
      { intros Hnil. apply (f_equal length) in Hnil.
        rewrite length_drop in Hnil. simpl in Hnil. lia. }
      assert (xs = take pos xs ++ ys ++ [z]) as Hxs
        by (by rewrite <-Hdrop, take_drop).
      assert (length (take pos xs) = pos) as Hlp by (rewrite length_take; lia).
      rewrite <-Hlp at 1.
      eapply wp_mono; [apply (wp_EmplaceInPosition_mid this i a (take pos xs) ys z cap);
                       [by rewrite <-Hxs|rewrite <-Hxs; lia|done]|..].
      * simpl. intros r w' (-> & Hv & Hok' & Hl & Hf).
        split; [done|]. split; [|done]. exists (Some a).
        unfold inserted. by rewrite Hdrop.
      * simpl. intros w' (Hf & Hobjs & Hl). unfold Emplace_exn; simpl.
        split; [done|]. split; [done|]. split; [lia|]. split; [done|lia].
Qed.




(** *** Reading the elements back *)

Lemma elems_block (w : world T) this a cap (xs : list T) rest :
  objs w !! this = Some (mkVector (mkRawMemory (Some a) cap) (length xs)) →
  heap w !! a = Some ((Some <$> xs) ++ rest) →
  elems w this = Some xs.
Proof.
  intros Ho Ha. unfold elems. rewrite Ho. simpl. rewrite Ha. simpl.
  rewrite length_app, length_fmap.
  destruct (Nat.ltb_spec (length xs + length rest) (length xs)) as [?|_]; [lia|].
  rewrite take_app_length' by (by rewrite length_fmap).
  by apply mapM_fmap_Some.
Qed.

Lemma elems_vec_at (w : world T) this buf (xs : list T) cap :
  vec_at w this buf xs cap → elems w this = Some xs.
Proof.
  intros (Ho & Hle & Hbuf). destruct buf as [a|].
  - by eapply elems_block.
  - subst cap. destruct xs; [|simpl in Hle; lia].
    unfold elems. by rewrite Ho.
Qed.

Lemma size_of_vec_at (w : world T) this buf (xs : list T) cap :
  vec_at w this buf xs cap → size_of w this = Some (length xs).
Proof. intros (Ho & _). unfold size_of. by rewrite Ho. Qed.

Lemma capacity_of_vec_at (w : world T) this buf (xs : list T) cap :
  vec_at w this buf xs cap → capacity_of w this = Some cap.
Proof. intros (Ho & _). unfold capacity_of. by rewrite Ho. Qed.

Lemma spare_slots_vec_at (w : world T) this buf (xs : list T) cap :
  vec_at w this buf xs cap →
  spare_slots w this = Some (replicate (cap - length xs) None).
Proof.
  intros (Ho & Hle & Hbuf). unfold spare_slots. rewrite Ho. simpl.
  destruct buf as [a|].
  - rewrite Hbuf. simpl. unfold block_of.
    by rewrite drop_app_length' by (by rewrite length_fmap).
  - by subst cap.
Qed.

(** *** [Erase] *)

Lemma wp_Erase this a P e R cap w :
  vec_at w this (Some a) (P ++ e :: R) cap →
  R = [] ∨ is_trivially_destructible = true →
  wp (Erase this (length P)) w
     (λ r w',
        r = length P ∧
        objs w' = <[this := mkVector (mkRawMemory (Some a) cap) (length (P ++ R))]>
                    (objs w) ∧
        heap w' = <[a := (Some <$> (P ++ R)) ++ vacated None (last R) ::
                         replicate (cap - S (length (P ++ R))) None]> (heap w) ∧
        brk w' = brk w ∧ lost w' = lost w ∧ (faults w = [] → faults w' = []) ∧
        trace w' = trace w ++ EvDtor e :: (EvAssign <$> R))
     (λ w', faults w ≠ [] ∧ objs w' = objs w ∧ lost w' = lost w).
Proof.
  destruct w as [h b o fs l tr]. intros (Ho & Hle & Hbuf) Hlive. simpl in *.
  assert (length (P ++ e :: R) = S (length P + length R)) as Hlen
    by (rewrite length_app; simpl; lia).
  rewrite Hlen in *. unfold block_of in Hbuf. rewrite Hlen in Hbuf.
  rewrite fmap_app in Hbuf. simpl in Hbuf. rewrite <-app_assoc in Hbuf.
  simpl in Hbuf.
  unfold Erase. apply wp_bind. eapply wp_getv; [done|].
  cbn [size_ data_ capacity_].
  destruct (Nat.ltb_spec (S (length P + length R)) (length P + 1)) as [?|_]; [lia|].
  unfold GetAddress, ptr_add; simpl. apply wp_bind.
  eapply wp_destroy_at; [exact Hbuf|by rewrite length_fmap|].
  apply wp_bind.
  replace (S (length P + length R) - (length P + 1)) with (length R) by lia.
  eapply (wp_move_range a _ (Some <$> P) None R).
  { by rewrite lookup_insert_eq. }
  { by rewrite length_fmap. }
  { done. }
  { by intros _. }
  2:{ intros h' fs' tr' Hfs _. simpl. done. }
  intros fs1 Hfs1. rewrite insert_insert_eq. apply wp_bind.
  eapply wp_set_size; [done|]. apply wp_ret. simpl.
  assert (length (P ++ R) = length P + length R) as -> by apply length_app.
  split; [done|]. split; [done|]. split; [|split; [done|split; [done|split]]].
  - f_equal. rewrite fmap_app, <-app_assoc. done.
  - auto.
  - list_eq.
Qed.

(** *** [Reserve], [Resize] and the sizing constructor *)

Lemma Reserve_enough this v new_capacity (w : world T) :
  objs w !! this = Some v → new_capacity ≤ capacity_ (data_ v) →
  Reserve this new_capacity w = Ret () w.
Proof.
  intros Ho Hle. unfold Reserve, bind, getv. rewrite Ho.
  by destruct (Nat.leb_spec new_capacity (capacity_ (data_ v))); [|lia].
Qed.

Lemma wp_Reserve this n buf xs cap w :
  vec_at w this buf xs cap → heap_ok w → cap < n →
  wp (Reserve this n) w
     (λ _ w',
        vec_at w' this (Some (brk w)) xs n ∧
        trace w' = trace w ++ [EvAlloc (brk w) n] ++
                   (transfer_event <$> xs) ++ (EvDtor <$> (left_behind <$> xs)) ++
                   free_event buf ∧
        (∀ a, buf = Some a → heap w' !! a = None) ∧
        heap_ok w' ∧ lost w' = lost w ∧ (faults w = [] → faults w' = []))
     (λ w', faults w ≠ [] ∧ objs w' = objs w ∧
            (transfer_safe = true → heap w' = heap w ∧ lost w' = lost w)).
Proof.
  destruct w as [h b o fs l tr]. intros (Ho & Hle & Hbuf) Hok Hn. simpl in *.
  unfold Reserve. apply wp_bind. eapply wp_getv; [done|]. simpl.
  destruct (Nat.leb_spec n cap) as [?|_]; [lia|].
  apply wp_scope_RawMemory, wp_RawMemory_ctor; [lia| |].
  2:{ intros _ fs' Hfs. simpl. done. }
  intros _ fs1 Hfs1. apply wp_bind.
  rewrite MoveDataTo_unfold. apply wp_bind.
  eapply wp_getv; [done|]. simpl. unfold GetAddress; simpl.
  replace n with (length xs + (n - length xs)) at 1 by lia.
  rewrite replicate_add.
  destruct buf as [a|].
  - assert (a ≠ b) as Hab.
    { intros ->. rewrite Hok in Hbuf by (simpl; lia). done. }
    assert (b ≠ a) as Hba by done.
    unfold block_of in Hbuf. apply wp_bind.
    eapply (wp_MoveData a 0 [] xs _ b 0 []); [done| |done| |done|done| |].
    { rewrite lookup_insert_ne by done. exact Hbuf. }
    { rewrite lookup_insert_eq. done. }
    2:{ intros src fs3 tr3 Hsrc Hfs3 Hnt. unfold RawMemory_dtor; simpl.
        eapply wp_Deallocate.
        { rewrite lookup_insert_ne, lookup_insert_eq by done. done. }
        simpl. split; [intros ->; by apply Hfs3, Hfs1|].
        split; [done|]. intros Hsafe.
        rewrite !omap_app, !omap_id_replicate_None.
        split; [|by rewrite app_nil_r].
        rewrite (transfer_safe_left_by_failure xs src) by done.
        heap_eq. symmetry. apply Hok. simpl. lia. }
    intros fs3 Hfs3 _. simpl.
    eapply (wp_DestroyAndSwap this a _ _ _ (left_behind <$> xs));
      [done| |by rewrite length_fmap|].
    { rewrite lookup_insert_ne, lookup_insert_eq by done. done. }
    apply wp_ret. simpl. unfold RawMemory_dtor; simpl.
    eapply wp_Deallocate.
    { by rewrite lookup_insert_eq. }
    simpl.
    rewrite !omap_app, !omap_id_replicate_None. simpl.
    split; [|split; [|split; [|split; [|split]]]].
    + unfold vec_at; simpl. rewrite lookup_insert_eq.
      split; [done|]. split; [lia|]. heap_lookup.
    + list_eq.
    + intros a' [= <-]. heap_lookup.
    + intros a' Ha'. simpl in Ha'. heap_lookup. apply Hok. simpl. lia.
    + by rewrite app_nil_r.
    + auto.
  - subst. destruct xs; [|simpl in *; lia]. simpl in *.
    apply wp_bind, wp_MoveData_0.
    eapply wp_DestroyAndSwap_null; [done|].
    apply wp_ret. simpl. unfold RawMemory_dtor; simpl.
    apply wp_Deallocate_null. simpl.
    split; [|split; [|split; [|split; [|split]]]].
    + unfold vec_at; simpl. rewrite lookup_insert_eq.
      split; [done|]. split; [lia|]. heap_lookup.
    + list_eq.
    + done.
    + intros a' Ha'. simpl in Ha'. heap_lookup. apply Hok. simpl. lia.
    + done.
    + auto.
Qed.

Lemma Resize_same this v (w : world T) :
  objs w !! this = Some v → Resize this (size_ v) w = Ret () w.
Proof.
  intros Ho. unfold Resize, bind, getv. rewrite Ho. by rewrite Nat.eqb_refl.
Qed.

Lemma wp_Resize_shrink this n buf xs cap w E :
  vec_at w this buf xs cap → n < length xs →
  wp (Resize this n) w
     (λ _ w',
        vec_at w' this buf (take n xs) cap ∧
        trace w' = trace w ++ (EvDtor <$> drop n xs) ∧
        (∀ a, buf ≠ Some a → heap w' !! a = heap w !! a) ∧
        brk w' = brk w ∧ lost w' = lost w ∧ faults w' = faults w)
     E.
Proof.
  destruct w as [h b o fs l tr]. intros (Ho & Hle & Hbuf) Hn. simpl in *.
  unfold Resize. apply wp_bind. eapply wp_getv; [done|]. simpl.
  destruct (Nat.eqb_spec n (length xs)) as [?|_]; [lia|].
  destruct (Nat.ltb_spec n (length xs)) as [_|?]; [|lia].
  destruct buf as [a|]; [|lia].
  unfold GetAddress, ptr_add; simpl. apply wp_bind.
  assert (length (take n xs) = n) as Htl by (rewrite length_take; lia).
  eapply (wp_destroy_n a n (Some <$> take n xs) (drop n xs)
            (replicate (cap - length xs) None)).
  { rewrite Hbuf. unfold block_of.
    by rewrite app_assoc, <-fmap_app, take_drop. }
  { by rewrite length_fmap. }
  { rewrite length_drop. done. }
  eapply wp_set_size; [done|]. simpl.
  split; [|split; [|split; [|done]]].
  - unfold vec_at; simpl. rewrite lookup_insert_eq, Htl.
    split; [done|]. split; [lia|]. heap_lookup.
    f_equal. unfold block_of. rewrite Htl. f_equal.
    rewrite <-replicate_add. f_equal. lia.
  - done.
  - intros a' Ha'. simpl. rewrite lookup_insert_ne; [done|]. by intros ->.
Qed.


Lemma wp_Vector_sized this n w :
  heap_ok w →
  wp (Vector_sized this n) w
     (λ _ w',
        vec_at w' this (if n =? 0 then None else Some (brk w))
               (replicate n value_init) n ∧
        heap_ok w' ∧ lost w' = lost w ∧ (faults w = [] → faults w' = []))
     (λ w', faults w ≠ [] ∧ heap w' = heap w ∧ objs w' = objs w ∧
            lost w' = lost w).
Proof.
  destruct w as [h b o fs l tr]. intros Hok. simpl in *.
  unfold Vector_sized. apply wp_bind, wp_RawMemory_ctor.
  - intros ->. simpl. apply wp_bind, wp_catch, wp_ret, wp_putv.
    split; [|done]. unfold vec_at; simpl. by rewrite lookup_insert_eq.
  - intros Hn fs1 Hfs1. destruct (Nat.eqb_spec n 0) as [?|_]; [lia|].
    apply wp_bind, wp_catch. unfold uninitialized_value_construct_n, GetAddress.
    simpl.
    eapply (wp_uninitialized_fill_with _ b 0 [] []).
    { rewrite lookup_insert_eq. by rewrite app_nil_r. }
    { done. }
    + intros fs2 Hfs2. apply wp_putv. simpl.
      split; [|split; [|split]].
      * unfold vec_at; simpl. rewrite lookup_insert_eq, length_replicate.
        split; [done|]. split; [lia|]. heap_lookup.
        unfold block_of.
        by rewrite fmap_replicate, length_replicate, Nat.sub_diag.
      * intros a' Ha'. simpl in *. heap_lookup. apply Hok. simpl. lia.
      * done.
      * auto.
    + intros fs2 tr2 Hfs2. unfold RawMemory_dtor; simpl.
      eapply wp_Deallocate; [apply lookup_insert_eq|]. simpl.
      rewrite omap_id_replicate_None, app_nil_r.
      split; [intros ->; by apply Hfs2, Hfs1|].
      split; [|done]. rewrite delete_insert_eq. apply delete_id, Hok. simpl. lia.
  - intros Hn fs' Hfs. simpl. done.
Qed.

(** *** Copy assignment *)

Lemma wp_copy_assignment this rhs tmp bt xt ct br xr cr w :
  this ≠ rhs →
  vec_at w this bt xt ct → vec_at w rhs br xr cr →
  (∀ a, bt = Some a → br ≠ Some a) →
  objs w !! tmp = None → heap_ok w →
  wp (copy_assignment this rhs tmp) w
     (λ _ w',
        vec_at w' this (if ct <? length xr then Some (brk w) else bt) xr
               (if ct <? length xr then length xr else ct) ∧
        vec_at w' rhs br xr cr ∧
        trace w' = trace w ++ copy_assignment_trace bt xt xr ct (brk w) ∧
        objs w' !! tmp = None ∧ heap_ok w' ∧ lost w' = lost w ∧
        (faults w = [] → faults w' = []))
     (λ w', faults w ≠ [] ∧
            (ct < length xr →
               heap w' = heap w ∧ objs w' = objs w ∧ lost w' = lost w)).
Proof.
  intros Hne Hvt Hvr Hsep Htmp Hok.
  pose proof Hvt as (Hot & Hlet & Hbt). pose proof Hvr as (Hor & Hler & Hbr).
  destruct w as [h b o fs l tr]. simpl in *.
  assert (tmp ≠ this) as Htt by (intros ->; by rewrite Htmp in Hot).
  assert (tmp ≠ rhs) as Htr by (intros ->; by rewrite Htmp in Hor).
  unfold copy_assignment, copy_assignment_trace.
  destruct (decide (this = rhs)) as [?|_]; [done|].
  apply wp_bind. eapply wp_getv; [done|].
  apply wp_bind. eapply wp_getv; [done|]. simpl.
  destruct (Nat.ltb_spec ct (length xr)) as [Hgrow|Hfit].
  - (* a full copy is built and exchanged in *)
    destruct br as [ar|]; [|lia].
    assert (ar ≠ b) as Harb.
    { intros ->. rewrite Hok in Hbr by (simpl; lia). done. }
    apply wp_bind. unfold Vector_copy. apply wp_bind.
    eapply wp_getv; [done|]. simpl.
    apply wp_bind, wp_RawMemory_ctor; [lia| |].
    2:{ intros _ fs' Hfs. simpl. done. }
    intros _ fs1 Hfs1. apply wp_bind, wp_catch. unfold GetAddress; simpl.
    unfold block_of in Hbr.
    eapply (wp_uninitialized_copy_n ar 0 [] xr _ b 0 [] []);
      [done| |done| |done|done| |].
    { rewrite lookup_insert_ne by done. exact Hbr. }
    { rewrite lookup_insert_eq. by rewrite app_nil_r. }
    2:{ intros fs2 tr2 Hfs2. unfold RawMemory_dtor; simpl.
        eapply wp_Deallocate; [apply lookup_insert_eq|]. simpl.
        rewrite omap_id_replicate_None, app_nil_r.
        split; [intros ->; by apply Hfs2, Hfs1|]. intros _.
        split; [|done]. rewrite delete_insert_eq. apply delete_id, Hok.
        simpl. lia. }
    intros fs2 Hfs2. apply wp_putv. rewrite insert_insert_eq.
    apply wp_bind. unfold Swap.
    apply wp_bind. eapply wp_getv; [by rewrite lookup_insert_ne|].
    apply wp_bind. eapply wp_getv; [by rewrite lookup_insert_eq|]. simpl.
    apply wp_bind, wp_putv, wp_putv.
    unfold Vector_dtor. apply wp_bind.
    eapply wp_getv; [by rewrite lookup_insert_eq|]. simpl.
    unfold GetAddress; simpl. unfold RawMemory_dtor; simpl.
    destruct bt as [at_|].
    + assert (at_ ≠ b) as Hatb.
      { intros ->. rewrite Hok in Hbt by (simpl; lia). done. }
      assert (at_ ≠ ar) as Hatar by (intros ->; by eapply Hsep).
      apply wp_bind.
      eapply (wp_destroy_n at_ 0 [] xt).
      { rewrite lookup_insert_ne by done. exact Hbt. }
      { done. }
      { done. }
      apply wp_bind. eapply wp_Deallocate; [by rewrite lookup_insert_eq|].
      unfold wp, set_objs. simpl. rewrite omap_app, !omap_id_replicate_None. simpl.
      split; [|split; [|split; [|split; [|split; [|split]]]]].
      * unfold vec_at; simpl. split; [by heap_lookup|]. split; [done|].
        heap_lookup. unfold block_of. by rewrite Nat.sub_diag.
      * unfold vec_at; simpl. split; [by heap_lookup|]. split; [done|].
        heap_lookup.
      * list_eq.
      * heap_lookup.
      * intros a' Ha'. simpl in Ha'. heap_lookup. apply Hok. simpl. lia.
      * by rewrite app_nil_r.
      * auto.
    + subst ct. destruct xt; [|simpl in *; lia]. simpl.
      apply wp_bind, wp_ret. apply wp_bind, wp_Deallocate_null.
      unfold wp, set_objs. simpl.
      split; [|split; [|split; [|split; [|split; [|split]]]]].
      * unfold vec_at; simpl. split; [by heap_lookup|]. split; [done|].
        heap_lookup. unfold block_of. by rewrite Nat.sub_diag.
      * unfold vec_at; simpl. split; [by heap_lookup|]. split; [done|].
        heap_lookup.
      * list_eq.
      * heap_lookup.
      * intros a' Ha'. simpl in Ha'. heap_lookup. apply Hok. simpl. lia.
      * done.
      * auto.
  - destruct (Nat.leb_spec (length xr) (length xt)) as [Hshrink|Hmore].
    + (* assign the first elements, destroy the tail *)
      unfold GetAddress, ptr_add; simpl.
      destruct bt as [at_|].
      2:{ subst ct. destruct xt; [|simpl in *; lia].
          destruct xr; [|simpl in *; lia]. simpl.
          apply wp_bind, wp_ret, wp_bind, wp_ret.
          eapply wp_set_size; [done|]. simpl.
          split; [|split; [|split; [|split; [|split; [|split]]]]].
          - unfold vec_at; simpl. by rewrite lookup_insert_eq.
          - unfold vec_at; simpl. by rewrite lookup_insert_ne.
          - by rewrite app_nil_r.
          - by rewrite lookup_insert_ne.
          - done.
          - done.
          - auto. }
      unfold block_of in Hbt.
      rewrite <-(take_drop (length xr) xt), fmap_app, <-app_assoc in Hbt.
      assert (length (take (length xr) xt) = length xr) as Htl
        by (rewrite length_take; lia).
      assert (∀ fs1 tr1 h1,
        (fs = [] → fs1 = []) →
        h1 !! at_ = Some ((Some <$> xr) ++ (Some <$> drop (length xr) xt) ++
                          replicate (ct - length (take (length xr) xt ++
                                                  drop (length xr) xt)) None) →
        (∀ a', a' ≠ at_ → h1 !! a' = h !! a') →
        wp (destroy_n (Ptr (Some at_) (length xr)) (length xt - length xr) >>>
            set_size this (length xr))
           (World h1 b o fs1 l tr1)
           (λ _ w',
              vec_at w' this (Some at_) xr ct ∧ vec_at w' rhs br xr cr ∧
              trace w' = tr1 ++ (EvDtor <$> drop (length xr) xt) ∧
              objs w' !! tmp = None ∧ heap_ok w' ∧ lost w' = l ∧
              (fs = [] → faults w' = []))
           (λ w', fs ≠ [] ∧ (ct < length xr → heap w' = h ∧ objs w' = o ∧
                              lost w' = l))) as Htail.
      { intros fs1 tr1 h1 Hfs1 Hat Hother. apply wp_bind.
        eapply (wp_destroy_n at_ _ (Some <$> xr) (drop (length xr) xt)).
        { exact Hat. }
        { by rewrite length_fmap. }
        { by rewrite length_drop. }
        eapply wp_set_size; [done|]. simpl.
        rewrite take_drop.
        split; [|split; [|split; [|split; [|split; [|split]]]]].
        - unfold vec_at; simpl. rewrite lookup_insert_eq.
          split; [done|]. split; [lia|]. heap_lookup.
          unfold block_of. rewrite <-replicate_add. do 3 f_equal. lia.
        - unfold vec_at; simpl. rewrite lookup_insert_ne by done.
          split; [done|]. split; [done|].
          destruct br as [ar|]; [|done].
          rewrite lookup_insert_ne by (intros ->; by eapply Hsep).
          rewrite Hother by (intros ->; by eapply Hsep). done.
        - done.
        - by rewrite lookup_insert_ne.
        - intros a' Ha'. simpl in *.
          rewrite lookup_insert_ne.
          + rewrite Hother; [by apply Hok|].
            intros ->. rewrite Hok in Hbt by done. done.
          + intros <-. rewrite Hok in Hbt by done. done.
        - done.
        - auto. }
      destruct br as [ar|].
      * assert (ar ≠ at_) as Hne' by (intros ->; by eapply Hsep).
        unfold block_of in Hbr. apply wp_bind.
        eapply (wp_copy_n ar 0 [] xr _ at_ 0 [] (take (length xr) xt));
          [done|exact Hbr|done|exact Hbt|done|done|by rewrite ?length_fmap| |].
        2:{ intros h' fs' tr' Hfs. simpl. split; [done|lia]. }
        intros fs1 Hfs1.
        eapply wp_mono; [apply (Htail fs1 _ _ Hfs1)|..].
        -- by rewrite lookup_insert_eq.
        -- intros a' Ha'. by rewrite lookup_insert_ne.
        -- simpl. intros _ w' (? & ? & -> & ?). split; [done|]. split; [done|].
           split; [list_eq|done].
        -- done.
      * subst cr. destruct xr; [|simpl in *; lia]. simpl.
        apply wp_bind, wp_ret.
        eapply wp_mono; [apply (Htail fs tr h)|..]; [done| |done| |done].
        -- rewrite Hbt. done.
        -- simpl. intros _ w' (? & ? & -> & ?). done.
    + (* assign over the live elements, construct the rest in the tail *)
      destruct bt as [at_|]; [|lia]. destruct br as [ar|]; [|lia].
      assert (ar ≠ at_) as Hne' by (intros ->; by eapply Hsep).
      unfold GetAddress, ptr_add; simpl.
      unfold block_of in Hbt, Hbr.
      rewrite <-(take_drop (length xt) xr), fmap_app, <-app_assoc in Hbr.
      assert (length (take (length xt) xr) = length xt) as Htl
        by (rewrite length_take; lia).
      assert (length (drop (length xt) xr) = length xr - length xt) as Hdl
        by (by rewrite length_drop).
      apply wp_bind.
      eapply (wp_copy_n ar 0 [] (take (length xt) xr) _ at_ 0 [] xt);
        [done|exact Hbr|done|exact Hbt|done|done|by rewrite ?length_fmap| |].
      2:{ intros h' fs' tr' Hfs. simpl. split; [done|lia]. }
      intros fs1 Hfs1. apply wp_bind.
      replace (ct - length xt) with ((length xr - length xt) + (ct - length xr)) by lia.
      rewrite replicate_add.
      eapply (wp_uninitialized_copy_n ar _ (Some <$> take (length xt) xr)
                (drop (length xt) xr) _ at_ _ (Some <$> take (length xt) xr)).
      { done. }
      { rewrite lookup_insert_ne by done. exact Hbr. }
      { by rewrite length_fmap. }
      { rewrite lookup_insert_eq. done. }
      { by rewrite length_fmap. }
      { done. }
      2:{ intros fs' tr' Hfs. simpl. split; [|lia]. intros ->. by apply Hfs, Hfs1. }
      intros fs2 Hfs2. rewrite insert_insert_eq.
      eapply wp_set_size; [done|]. simpl.
      split; [|split; [|split; [|split; [|split; [|split]]]]].
      * unfold vec_at; simpl. rewrite lookup_insert_eq.
        split; [done|]. split; [lia|]. heap_lookup.
        unfold block_of. rewrite app_assoc, <-fmap_app, take_drop. done.
      * unfold vec_at; simpl. rewrite lookup_insert_ne by done.
        split; [done|]. split; [done|]. heap_lookup. apply Hvr.
      * list_eq.
      * by rewrite lookup_insert_ne.
      * eapply (heap_ok_insert at_); [exact Hok|exact Hbt|done|done].
      * done.
      * auto.
Qed.

(** *** [PopBack] *)

Lemma wp_PopBack this a xs z cap w E :
  vec_at w this (Some a) (xs ++ [z]) cap →
  wp (PopBack this) w
     (λ _ w',
        vec_at w' this (Some a) xs cap ∧
        trace w' = trace w ++ [EvDtor z] ∧
        brk w' = brk w ∧ lost w' = lost w ∧ faults w' = faults w)
     E.
Proof.
  destruct w as [h b o fs l tr]. intros (Ho & Hle & Hbuf). simpl in *.
  rewrite length_app in Ho, Hle. simpl in Ho, Hle.
  rewrite Nat.add_1_r in Ho, Hle.
  unfold block_of in Hbuf. rewrite fmap_app, <-app_assoc in Hbuf. simpl in Hbuf.
  unfold PopBack. apply wp_bind. eapply wp_getv; [done|]. simpl.
  apply wp_bind. eapply wp_set_size; [done|]. simpl.
  unfold GetAddress, ptr_add; simpl.
  eapply wp_destroy_at; [exact Hbuf|by rewrite length_fmap|].
  split; [|done]. unfold vec_at; simpl. rewrite lookup_insert_eq.
  split; [done|]. split; [lia|]. heap_lookup.
  f_equal. unfold block_of. f_equal.
  rewrite length_app. simpl.
  replace (cap - length xs) with (S (cap - (length xs + 1))) by lia. done.
Qed.

(** *** From weakest preconditions to outcomes *)

Lemma wp_total {A} (m : M T A) w Q E :
  wp m w Q E → (∀ w', E w' → False) → ∃ a w', m w = Ret a w' ∧ Q a w'.
Proof.
  unfold wp. intros Hwp HE. destruct (m w) as [a w'|w'|]; [eauto| |done].
  by destruct (HE w').
Qed.

Lemma elems_same (w w' : world T) this :
  heap w' = heap w → objs w' = objs w → elems w' this = elems w this.
Proof. unfold elems. by intros -> ->. Qed.

Lemma size_of_same (w w' : world T) this :
  objs w' = objs w → size_of w' this = size_of w this.
Proof. unfold size_of. by intros ->. Qed.

Lemma capacity_of_same (w w' : world T) this :
  objs w' = objs w → capacity_of w' this = capacity_of w this.
Proof. unfold capacity_of. by intros ->. Qed.

Lemma request_fitsb_fits n : request_fitsb n = true → request_fits n.
Proof. unfold request_fitsb, request_fits. by intros ?%N.leb_le. Qed.

Lemma heap_okb_ok (w : world T) : heap_okb w = true → heap_ok w.
Proof.
  unfold heap_okb. intros Hb%bool_decide_eq_true a Ha.
  destruct (heap w !! a) as [blk|] eqn:Hlk; [|done].
  apply Hb in Hlk. lia.
Qed.

End Reasoning.

(** ** The properties of the specification *)

Section Claims.
Context {T : Type} `{ElemType T}.

Local Abbreviation wp := (@wp T _) (only parsing).

(** [Erase] before the last element of a vector whose element type has a
    destructor that is not trivial: the element at the position is
    destroyed, and the move assignment that starts the shift runs on its
    slot.  The call never returns: it is undefined behaviour, unless that
    first move assignment is the operation the plan lets throw. *)
Lemma Erase_before_last this a P e r R cap (w : world T) :
  vec_at w this (Some a) (P ++ e :: r :: R) cap →
  is_trivially_destructible = false →
  Erase this (length P) w =
    match faults w with
    | true :: fs' =>
        if is_nothrow_move_assignable then Undef
        else Exn (World (<[a := <[length P := None]> (block_of (P ++ e :: r :: R) cap)]>
                           (heap w))
                        (brk w) (objs w) fs' (lost w) (trace w ++ [EvDtor e]))
    | _ => Undef
    end.
Proof.
  destruct w as [h b o fs l tr]. intros (Ho & Hle & Hbuf) Htriv. simpl in *.
  assert (length (P ++ e :: r :: R) = S (S (length P + length R))) as Hlen
    by (rewrite length_app; simpl; lia).
  rewrite Hlen in *.
  assert (block_of (P ++ e :: r :: R) cap =
          (Some <$> P) ++ Some e :: Some r :: (Some <$> R) ++
          replicate (cap - S (S (length P + length R))) None) as Hblk.
  { unfold block_of. rewrite Hlen, fmap_app, <-app_assoc. done. }
  rewrite Hblk in *.
  rewrite (insert_mid0 (Some <$> P)) by (by rewrite length_fmap).
  unfold Erase, bind at 1, getv. simpl. rewrite Ho.
  cbn [size_ data_ capacity_].
  destruct (Nat.ltb_spec (S (S (length P + length R))) (length P + 1)) as [?|_]; [lia|].
  replace (S (S (length P + length R)) - (length P + 1)) with (S (length R)) by lia.
  unfold GetAddress, ptr_add. simpl.
  unfold bind at 1 2, destroy_at, bind at 1 2 3, peek, poke, log, emit. simpl.
  rewrite Hbuf, list_lookup_middle by (by rewrite length_fmap). simpl.
  rewrite Hbuf, list_lookup_middle by (by rewrite length_fmap). simpl.
  rewrite (insert_mid0 (Some <$> P)) by (by rewrite length_fmap).
  unfold move_assign, bind, peek. simpl.
  rewrite lookup_insert_eq.
  rewrite (lookup_mid1 (Some <$> P)) by (by rewrite length_fmap).
  unfold assign_at, bind, poke, may_throw, tick, ret. simpl.
  destruct is_nothrow_move_assignable eqn:Hnta; simpl.
  - rewrite lookup_insert_eq.
    rewrite list_lookup_middle by (by rewrite length_fmap).
    rewrite Htriv. simpl. by destruct fs as [|[] fs'].
  - destruct fs as [|[] fs']; simpl; [|done|].
    + rewrite lookup_insert_eq.
      rewrite list_lookup_middle by (by rewrite length_fmap).
      by rewrite Htriv.
    + rewrite lookup_insert_eq.
      rewrite list_lookup_middle by (by rewrite length_fmap).
      by rewrite Htriv.
Qed.

(** Inserting at a valid position and erasing at the returned position,
    when no operation fails.  [Emplace] returns the position.  [Erase] at
    it gives back the element sequence and the size the vector had when
    the element inserted is the last one or [T] is trivially destructible;
    for every other element type, and every position before the end, it is
    undefined behaviour. *)
Lemma Emplace_then_Erase this pos i buf xs cap (w : world T) :
  vec_at w this buf xs cap → heap_ok w → pos ≤ length xs → faults w = [] →
  ∃ w1,
    Emplace this pos i w = Ret pos w1 ∧
    if bool_decide (pos = length xs) || is_trivially_destructible then
      ∃ w2, Erase this pos w1 = Ret pos w2 ∧
            elems w2 this = Some xs ∧
            size_of w2 this = Some (length xs)
    else Erase this pos w1 = Undef.
Proof.
  intros Hvec Hok Hpos Hfs.
  destruct (wp_total _ _ _ _ (wp_Emplace this pos i buf xs cap w Hvec Hok Hpos))
    as (r & w1 & Hrun1 & -> & (buf1 & Hvec1) & Hok1 & Hl1 & Hfs1).
  { by intros w' (Hf & _). }
  exists w1. split; [done|]. unfold inserted in Hvec1.
  assert (length (take pos xs) = pos) as Hlp by (rewrite length_take; lia).
  assert (∃ a1, buf1 = Some a1) as [a1 ->].
  { destruct Hvec1 as (_ & Hle1 & Hb1). destruct buf1; [eauto|].
    rewrite length_app in Hle1. simpl in *. lia. }
  destruct (bool_decide (pos = length xs) || is_trivially_destructible) eqn:Hcase.
  - pose proof (wp_Erase this a1 (take pos xs) (init_value i) (drop pos xs) _ w1 Hvec1)
      as Herase.
    rewrite Hlp in Herase.
    destruct (wp_total _ _ _ _ (Herase ltac:(
      apply orb_true_iff in Hcase as [->%bool_decide_eq_true|Ht];
        [left; by rewrite drop_ge by lia|by right])))
      as (r & w2 & Hrun2 & -> & Hobjs2 & Hheap2 & _).
    { intros w' (Hf & _). by apply Hf, Hfs1. }
    exists w2. split; [done|].
    rewrite take_drop in Hobjs2, Hheap2. split.
    + eapply elems_block.
      * rewrite Hobjs2. apply lookup_insert_eq.
      * rewrite Hheap2. apply lookup_insert_eq.
    + unfold size_of. rewrite Hobjs2, lookup_insert_eq. done.
  - apply orb_false_iff in Hcase as [Hmid%bool_decide_eq_false Htriv].
    destruct (drop pos xs) as [|r R] eqn:Hdrop.
    { apply (f_equal length) in Hdrop. rewrite length_drop in Hdrop.
      simpl in Hdrop. lia. }
    rewrite <-Hlp at 1.
    rewrite (Erase_before_last this a1 (take pos xs) (init_value i) r R _ w1 Hvec1 Htriv).
    by rewrite Hfs1.
Qed.

(** C10.  Copy assignment from a source larger than the receiver's
    capacity keeps the strong guarantee: whatever operation throws, the
    heap, the store of objects and the set of lost objects are as before
    the call, so the receiver has its old size, capacity and elements. *)
Theorem copy_assignment_realloc_strong_guarantee
    this rhs tmp bt xt ct br xr cr (w w' : world T) :
  this ≠ rhs →
  vec_at w this bt xt ct → vec_at w rhs br xr cr →
  (∀ a, bt = Some a → br ≠ Some a) →
  objs w !! tmp = None → heap_ok w →
  ct < length xr →
  copy_assignment this rhs tmp w = Exn w' →
  heap w' = heap w ∧ objs w' = objs w ∧ lost w' = lost w ∧
  elems w' this = Some xt ∧
  size_of w' this = Some (length xt) ∧
  capacity_of w' this = Some ct.
Proof.
  intros Hne Hvt Hvr Hsep Htmp Hok Hgrow Hrun.
  pose proof (wp_copy_assignment this rhs tmp bt xt ct br xr cr w
                Hne Hvt Hvr Hsep Htmp Hok) as Hwp.
  apply (wp_Exn _ _ _ _ _ Hwp) in Hrun as (_ & Hsame).
  destruct (Hsame Hgrow) as (Hh & Ho & Hl).
  split; [done|]. split; [done|]. split; [done|].
  rewrite (elems_same w w') by done.
  rewrite (size_of_same w w'), (capacity_of_same w w') by done.
  split; [by eapply elems_vec_at|].
  split; [by eapply size_of_vec_at|by eapply capacity_of_vec_at].
Qed.




Lemma appends_spec this vs : ∀ buf xs cap (w : world T),
  vec_at w this buf xs cap → heap_ok w → faults w = [] →
  ∃ w' buf',
    appends this vs w = Ret () w' ∧
    vec_at w' this buf' (xs ++ vs) (capacity_after (length xs) cap (length vs)) ∧
    heap_ok w' ∧ faults w' = [].
Proof.
  induction vs as [|v vs IH]; intros buf xs cap w Hvec Hok Hfs.
  - exists w, buf. simpl. by rewrite app_nil_r.
  - destruct (wp_total _ _ _ _ (PushBack_with_spec this (CopyOf v) buf xs cap w Hvec Hok))
      as ([] & w1 & Hrun1 & Hpost & Hok1 & _ & Hfs1).
    { by intros w' (Hf & _). }
    assert (∃ buf1, vec_at w1 this buf1 (xs ++ [v])
                      (if length xs =? cap then grown cap else cap))
      as [buf1 Hvec1].
    { simpl in Hpost. destruct (length xs =? cap).
      - destruct Hpost as (? & _). eauto.
      - destruct Hpost as (? & _). eauto. }
    destruct (IH _ _ _ w1 Hvec1 Hok1 (Hfs1 Hfs)) as (w' & buf' & Hrun & Hvec' & Hok' & Hfs').
    exists w', buf'. split; [|split; [|done]].
    + simpl. unfold bind, PushBack. by rewrite Hrun1.
    + rewrite length_app, <-app_assoc in Hvec'. simpl in Hvec'.
      by rewrite Nat.add_1_r in Hvec'.
Qed.

Lemma capacity_after_pow2 k : ∀ sz cap,
  (sz = 0 ∧ cap = 0) ∨ (1 ≤ sz ∧ cap = 2 ^ Nat.log2_up sz) →
  capacity_after sz cap k =
    if sz + k =? 0 then 0 else 2 ^ Nat.log2_up (sz + k).
Proof.
  induction k as [|k IH]; intros sz cap Hinv.
  - simpl. rewrite Nat.add_0_r.
    destruct Hinv as [[-> ->]|[Hsz ->]]; [done|].
    by destruct (Nat.eqb_spec sz 0); [lia|].
  - simpl. rewrite IH.
    + by replace (S sz + k) with (sz + S k) by lia.
    + right. split; [lia|].
      destruct Hinv as [[-> ->]|[Hsz ->]]; [done|].
      set (e := Nat.log2_up sz).
      destruct (Nat.eqb_spec sz (2 ^ e)) as [Heq|Hneq].
      * rewrite grown_max.
        assert (Nat.log2_up (S sz) = S e) as ->.
        { apply Nat.log2_up_unique; [lia|]. simpl. lia. }
        rewrite Nat.pow_succ_r'. lia.
      * assert (1 < sz) as Hsz1.
        { destruct (decide (sz = 1)) as [->|]; [|lia]. by destruct Hneq. }
        pose proof (Nat.log2_up_spec sz Hsz1) as [Hlo Hhi]. fold e in Hlo, Hhi.
        assert (0 < e) as He by (by apply Nat.log2_up_pos).
        f_equal. symmetry. apply Nat.log2_up_unique; [done|]. lia.
Qed.

(** C4.  On a full vector every insertion that returns has doubled the
    capacity, or made it 1 when it was 0; with no failing operation the
    insertions do return.  Appending [n] elements to a fresh vector leaves
    the least power of two that is at least [n] as the capacity: the
    capacities run through 0, 1, 2, 4, 8 and so on. *)
Theorem growth_doubles_capacity this buf xs (w : world T) :
  vec_at w this buf xs (length xs) → heap_ok w →
  (∀ i w', PushBack_with this i w = Ret () w' →
           capacity_of w' this = Some (max 1 (2 * length xs))) ∧
  (∀ pos i r w', pos ≤ length xs → Emplace this pos i w = Ret r w' →
                 capacity_of w' this = Some (max 1 (2 * length xs))) ∧
  (∀ x r w', EmplaceBack this x w = Ret r w' →
             capacity_of w' this = Some (max 1 (2 * length xs))) ∧
  (faults w = [] →
     (∀ i, ∃ w', PushBack_with this i w = Ret () w') ∧
     (∀ pos i, pos ≤ length xs → ∃ w', Emplace this pos i w = Ret pos w') ∧
     (∀ x, ∃ w', EmplaceBack this x w = Ret (length xs) w')) ∧
  (∀ that (vs : list T) (w0 : world T),
     heap_ok w0 → faults w0 = [] →
     ∃ w', (Vector_default that >>> appends that vs) w0 = Ret () w' ∧
           elems w' that = Some vs ∧
           capacity_of w' that =
             Some (if length vs =? 0 then 0 else 2 ^ Nat.log2_up (length vs))).
Proof.
  intros Hvec Hok.
  assert (∀ pos i r w', pos ≤ length xs → Emplace this pos i w = Ret r w' →
                        capacity_of w' this = Some (max 1 (2 * length xs))) as Hemp.
  { intros pos i r w' Hpos Hrun.
    pose proof (wp_Emplace this pos i buf xs _ w Hvec Hok Hpos) as Hwp.
    pose proof (wp_Ret _ _ _ _ _ _ Hwp Hrun) as (_ & (buf' & Hv) & _).
    rewrite Nat.eqb_refl, grown_max in Hv. by eapply capacity_of_vec_at. }
  assert (∀ x, EmplaceBack this x w = Emplace this (length xs) (FromArgs x) w) as Hback.
  { intros x. unfold EmplaceBack, bind at 1, getv.
    destruct Hvec as (-> & _). done. }
  split; [|split; [done|split; [|split]]].
  - intros i w' Hrun.
    pose proof (PushBack_with_spec this i buf xs _ w Hvec Hok) as Hwp.
    pose proof (wp_Ret _ _ _ _ _ _ Hwp Hrun) as (Hpost & _).
    rewrite Nat.eqb_refl, grown_max in Hpost. destruct Hpost as (Hv & _).
    by eapply capacity_of_vec_at.
  - intros x r w'. rewrite Hback. by apply Hemp.
  - intros Hfs. split; [|split].
    + intros i.
      destruct (wp_total _ _ _ _ (PushBack_with_spec this i buf xs _ w Hvec Hok))
        as ([] & w' & Hrun & _); [by intros w' (Hf & _)|eauto].
    + intros pos i Hpos.
      destruct (wp_total _ _ _ _ (wp_Emplace this pos i buf xs _ w Hvec Hok Hpos))
        as (r & w' & Hrun & -> & _); [by intros w' (Hf & _)|eauto].
    + intros x. rewrite Hback.
      destruct (wp_total _ _ _ _ (wp_Emplace this (length xs) (FromArgs x) buf xs _ w
                                    Hvec Hok (le_n _)))
        as (r & w' & Hrun & -> & _); [by intros w' (Hf & _)|eauto].
  - intros that vs [h0 b0 o0 fs0 l0 tr0] Hok0 Hfs0. simpl in *. subst fs0.
    destruct (appends_spec that vs None [] 0
                (World h0 b0 (<[that := mkVector (mkRawMemory None 0) 0]> o0) [] l0 tr0))
      as (w' & buf' & Hrun & Hv & _).
    { unfold vec_at; simpl. by rewrite lookup_insert_eq. }
    { done. }
    { done. }
    exists w'. split; [|split].
    + unfold bind, Vector_default, putv. done.
    + by eapply elems_vec_at.
    + rewrite (capacity_of_vec_at _ _ _ _ _ Hv). f_equal. simpl.
      rewrite capacity_after_pow2 by (left; done). done.
Qed.

(** C5.  Copy assignment by case.  Assigning an object to itself changes
    nothing.  Otherwise, when no operation fails, the receiver ends up
    with the source's elements and size, its spare slots hold nothing, the
    source is untouched, and
    - a source larger than the capacity was copied into a new block of
      exactly its size, the old elements destroyed and the old block
      released;
    - a source not larger than the receiver was copy-assigned onto the
      first elements, and the tail beyond it destroyed;
    - a source in between was copy-assigned onto the live elements and
      copy-constructed into the slots behind them.
    Three elements assigned to a vector of ten out of ten give size 3 and
    capacity 10, with the seven other elements destroyed. *)
Theorem copy_assignment_by_case this rhs tmp bt xt ct br xr cr (w : world T) :
  this ≠ rhs →
  vec_at w this bt xt ct → vec_at w rhs br xr cr →
  (∀ a, bt = Some a → br ≠ Some a) →
  objs w !! tmp = None → heap_ok w → faults w = [] →
  copy_assignment this this tmp w = Ret () w ∧
  ∃ w',
    copy_assignment this rhs tmp w = Ret () w' ∧
    elems w' this = Some xr ∧ size_of w' this = Some (length xr) ∧
    elems w' rhs = Some xr ∧ lost w' = lost w ∧
    (ct < length xr →
       capacity_of w' this = Some (length xr) ∧
       spare_slots w' this = Some [] ∧
       trace w' = trace w ++ [EvAlloc (brk w) (length xr)] ++ (EvCopy <$> xr) ++
                  (EvDtor <$> xt) ++ free_event bt) ∧
    (length xr ≤ length xt →
       capacity_of w' this = Some ct ∧
       spare_slots w' this = Some (replicate (ct - length xr) None) ∧
       trace w' = trace w ++ (EvAssign <$> xr) ++ (EvDtor <$> drop (length xr) xt)) ∧
    (length xt < length xr ≤ ct →
       capacity_of w' this = Some ct ∧
       spare_slots w' this = Some (replicate (ct - length xr) None) ∧
       trace w' = trace w ++ (EvAssign <$> take (length xt) xr) ++
                  (EvCopy <$> drop (length xt) xr)) ∧
    (length xt = 10 → ct = 10 → length xr = 3 →
       size_of w' this = Some 3 ∧ capacity_of w' this = Some 10 ∧
       trace w' = trace w ++ (EvAssign <$> xr) ++ (EvDtor <$> drop 3 xt) ∧
       length (drop 3 xt) = 7).
Proof.
  intros Hne Hvt Hvr Hsep Htmp Hok Hfs. split.
  { unfold copy_assignment. by destruct (decide (this = this)). }
  destruct (wp_total _ _ _ _
              (wp_copy_assignment this rhs tmp bt xt ct br xr cr w
                 Hne Hvt Hvr Hsep Htmp Hok))
    as ([] & w' & Hrun & Hvt' & Hvr' & Htr & _ & _ & Hl & _).
  { by intros w' (Hf & _). }
  pose proof (proj1 (proj2 Hvt)) as Hle.
  exists w'. unfold copy_assignment_trace in Htr.
  split; [done|]. split; [by eapply elems_vec_at|].
  split; [by eapply size_of_vec_at|]. split; [by eapply elems_vec_at|].
  split; [done|].
  assert (length xr ≤ ct →
          capacity_of w' this = Some ct ∧
          spare_slots w' this = Some (replicate (ct - length xr) None)) as Hfit.
  { intros Hfit. destruct (Nat.ltb_spec ct (length xr)) as [?|_]; [lia|].
    split; [by eapply capacity_of_vec_at|by eapply spare_slots_vec_at]. }
  split; [|split; [|split]].
  - intros Hgrow. destruct (Nat.ltb_spec ct (length xr)) as [_|?]; [|lia].
    split; [by eapply capacity_of_vec_at|]. split; [|done].
    rewrite (spare_slots_vec_at _ _ _ _ _ Hvt'). by rewrite Nat.sub_diag.
  - intros Hshrink. destruct (Hfit ltac:(lia)) as [Hc Hs].
    split; [done|]. split; [done|].
    destruct (Nat.ltb_spec ct (length xr)) as [?|_]; [lia|].
    by destruct (Nat.leb_spec (length xr) (length xt)) as [_|?]; [|lia].
  - intros [Hmore Hcap]. destruct (Hfit Hcap) as [Hc Hs].
    split; [done|]. split; [done|].
    destruct (Nat.ltb_spec ct (length xr)) as [?|_]; [lia|].
    by destruct (Nat.leb_spec (length xr) (length xt)) as [?|_]; [lia|].
  - intros Hxt -> Hxr. destruct (Hfit ltac:(lia)) as [Hc Hs].
    rewrite (size_of_vec_at _ _ _ _ _ Hvt'), Hxr.
    split; [done|]. split; [done|].
    rewrite Hxr, Hxt in Htr. simpl in Htr.
    split; [done|]. rewrite length_drop. lia.
Qed.




(** What holds of C1: when [PushBack] throws and the elements are moved
    without throwing or copied, the heap and the object are as before the
    call, so the vector has the elements it had. *)
Lemma PushBack_failure_keeps_array this i buf xs cap (w w' : world T) :
  vec_at w this buf xs cap → heap_ok w → transfer_safe = true →
  PushBack_with this i w = Exn w' →
  heap w' = heap w ∧ objs w' = objs w ∧ elems w' this = Some xs.
Proof.
  intros Hvec Hok Hsafe Hrun.
  pose proof (wp_Exn _ _ _ _ _ (PushBack_with_spec this i buf xs cap w Hvec Hok) Hrun)
    as (_ & Ho & Hh).
  specialize (Hh Hsafe). split; [done|]. split; [done|].
  rewrite (elems_same w w') by done. by eapply elems_vec_at.
Qed.

(** What holds of C9: [Resize] to a smaller size, [Erase] and [PopBack]
    leave the capacity as it is. *)
Lemma capacity_kept_by_shrinking_operations this a P e R cap (w : world T) :
  vec_at w this (Some a) (P ++ e :: R) cap →
  (∀ n w', n < length (P ++ e :: R) → Resize this n w = Ret () w' →
           capacity_of w' this = Some cap) ∧
  (∀ r w', Erase this (length P) w = Ret r w' → capacity_of w' this = Some cap) ∧
  (∀ w', PopBack this w = Ret () w' → capacity_of w' this = Some cap).
Proof.
  intros Hvec. split; [|split].
  - intros n w' Hn Hrun.
    pose proof (wp_Ret _ _ _ (λ _, False) _ _
                  (wp_Resize_shrink this n _ _ cap w _ Hvec Hn) Hrun) as (Hv & _).
    by eapply capacity_of_vec_at.
  - intros r w' Hrun.
    assert (R = [] ∨ is_trivially_destructible = true) as Hlive.
    { destruct R as [|r' R]; [by left|].
      destruct is_trivially_destructible eqn:Htriv; [by right|].
      rewrite (Erase_before_last this a P e r' R cap w Hvec Htriv) in Hrun.
      destruct (faults w) as [|[] ?]; [done| |done].
      by destruct is_nothrow_move_assignable. }
    pose proof (wp_Ret _ _ _ _ _ _ (wp_Erase this a P e R cap w Hvec Hlive) Hrun)
      as (_ & Ho & _).
    unfold capacity_of. by rewrite Ho, lookup_insert_eq.
  - intros w' Hrun.
    destruct (snoc_exists (P ++ e :: R)) as (ys & z & Hsnoc); [by destruct P|].
    rewrite Hsnoc in Hvec.
    pose proof (wp_Ret _ _ _ (λ _, False) _ _
                  (wp_PopBack this a ys z cap w _ Hvec) Hrun) as (Hv & _).
    by eapply capacity_of_vec_at.
Qed.

(** What fails of C9, in general.  For a trivially destructible [T],
    erasing an element that is not the last one leaves the husk of the
    last element alive in the first spare slot; for every other [T] it is
    undefined behaviour ([Erase_before_last]). *)
Lemma Erase_before_last_leaves_live_spare_slot this a P e R z cap (w : world T) :
  vec_at w this (Some a) (P ++ e :: R ++ [z]) cap → faults w = [] →
  is_trivially_destructible = true →
  ∃ w', Erase this (length P) w = Ret (length P) w' ∧
        size_of w' this = Some (length (P ++ R ++ [z])) ∧
        elems w' this = Some (P ++ R ++ [z]) ∧
        spare_slots w' this =
          Some (Some (husk z) :: replicate (cap - S (length (P ++ R ++ [z]))) None).
Proof.
  intros Hvec Hfs Htriv.
  destruct (wp_total _ _ _ _ (wp_Erase this a P e (R ++ [z]) cap w Hvec (or_intror Htriv)))
    as (r & w' & Hrun & -> & Ho & Hh & _); [by intros w'' (Hf & _)|].
  exists w'. split; [done|]. rewrite last_snoc in Hh. simpl in Hh.
  split; [|split].
  - unfold size_of. by rewrite Ho, lookup_insert_eq.
  - eapply elems_block; [by rewrite Ho, lookup_insert_eq|].
    rewrite Hh. apply lookup_insert_eq.
  - unfold spare_slots. rewrite Ho, lookup_insert_eq. simpl.
    rewrite Hh, lookup_insert_eq. simpl.
    by rewrite drop_app_length' by (by rewrite length_fmap).
Qed.

End Claims.

(** ** Further properties of the code *)

Section Container.
Context {T : Type} `{ElemType T}.

Local Abbreviation wp := (@wp T _) (only parsing).

Ltac heap_lookup :=
  simpl; repeat first [rewrite lookup_insert | rewrite lookup_delete];
  repeat (case_decide; simplify_eq; try lia); simpl; try done.

Ltac list_eq :=
  rewrite <-?app_assoc; simpl; rewrite <-?app_assoc, ?app_nil_r; simpl;
  try done.

(** *** Element access *)

Lemma block_of_lookup (xs : list T) cap i :
  length xs ≤ cap →
  block_of xs cap !! i =
    match xs !! i with
    | Some x => Some (Some x)
    | None => if i <? cap then Some None else None
    end.
Proof.
  intros Hle. unfold block_of.
  destruct (xs !! i) as [x|] eqn:Hx.
  - rewrite lookup_app_l by (rewrite length_fmap; by eapply lookup_lt_Some).
    by rewrite list_lookup_fmap, Hx.
  - apply lookup_ge_None in Hx.
    rewrite lookup_app_r by (by rewrite length_fmap).
    rewrite length_fmap.
    destruct (Nat.ltb_spec i cap) as [Hi|Hi].
    + apply lookup_replicate. split; [done|lia].
    + apply lookup_ge_None. rewrite length_replicate. lia.
Qed.

Lemma peek_vec_at (w : world T) this buf xs cap i :
  vec_at w this buf xs cap →
  peek (Ptr buf i) w = match xs !! i with Some x => Ret x w | None => Undef end.
Proof.
  intros (Ho & Hle & Hbuf). unfold peek; simpl.
  destruct buf as [a|].
  - rewrite Hbuf, block_of_lookup by done.
    destruct (xs !! i); [done|]. by destruct (i <? cap).
  - subst cap. destruct xs; [|simpl in Hle; lia]. done.
Qed.

Lemma Index_vec_at this buf xs cap (w : world T) i :
  vec_at w this buf xs cap →
  Index this i w = (if i <? length xs then Ret (Ptr buf i) w else Undef) ∧
  deref (Index this i) w =
    match xs !! i with Some x => Ret x w | None => Undef end.
Proof.
  intros Hvec. pose proof Hvec as (Ho & _).
  assert (Index this i w = (if i <? length xs then Ret (Ptr buf i) w else Undef))
    as Hidx.
  { unfold Index, bind, getv. rewrite Ho. simpl.
    by destruct (i <? length xs). }
  split; [done|]. unfold deref, bind. rewrite Hidx.
  destruct (Nat.ltb_spec i (length xs)) as [Hlt|Hge].
  - by eapply peek_vec_at.
  - by rewrite (proj2 (lookup_ge_None xs i)).
Qed.

(** X1.  [v[i]] designates the element at position [i] when [i] is below the
    size, reading through the reference gives its value, and the call
    changes nothing.  At every other index, also inside the capacity, the
    assertion of [operator[]] fails: the call is undefined behaviour. *)
Theorem Index_reads_element this buf xs cap (w : world T) :
  vec_at w this buf xs cap →
  (∀ i x, xs !! i = Some x →
     Index this i w = Ret (Ptr buf i) w ∧ deref (Index this i) w = Ret x w) ∧
  (∀ i, length xs ≤ i →
     Index this i w = Undef ∧ deref (Index this i) w = Undef).
Proof.
  intros Hvec. pose proof Hvec as (Ho & Hle & Hbuf).
  assert (∀ i, Index this i w =
               (if i <? length xs then Ret (Ptr buf i) w else Undef)) as Hidx.
  { intros i. unfold Index, bind, getv. rewrite Ho. simpl.
    by destruct (i <? length xs). }
  split.
  - intros i x Hx. pose proof (lookup_lt_Some _ _ _ Hx) as Hlt.
    unfold deref, bind. rewrite Hidx.
    destruct (Nat.ltb_spec i (length xs)) as [_|?]; [|lia].
    split; [done|]. unfold peek; simpl.
    destruct buf as [a|]; [|lia].
    by rewrite Hbuf, block_of_lookup, Hx by done.
  - intros i Hge. unfold deref, bind. rewrite Hidx.
    by destruct (Nat.ltb_spec i (length xs)) as [?|_]; [lia|].
Qed.

(** X2.  [Back()] designates the last element, and on an empty vector it is
    undefined behaviour.  After a [PushBack] that returned it designates
    the value that was appended. *)
Theorem Back_reads_last this buf xs cap (w : world T) :
  vec_at w this buf xs cap → heap_ok w →
  deref (Back this) w = match last xs with Some x => Ret x w | None => Undef end ∧
  ∀ i w', PushBack_with this i w = Ret () w' →
          deref (Back this) w' = Ret (init_value i) w'.
Proof.
  intros Hvec Hok.
  assert (∀ (w1 : world T) b1 ys c1, vec_at w1 this b1 ys c1 →
            deref (Back this) w1 =
              match last ys with Some x => Ret x w1 | None => Undef end) as Hback.
  { intros w1 b1 ys c1 Hv. pose proof Hv as (Ho & _).
    unfold deref, Back, bind, getv. rewrite Ho. simpl.
    destruct ys as [|y ys _] using rev_ind; [done|].
    rewrite length_app, Nat.add_1_r. simpl. unfold GetAddress, ptr_add; simpl.
    rewrite (peek_vec_at _ _ _ _ _ _ Hv).
    rewrite last_snoc, lookup_app_r by done.
    by rewrite Nat.sub_diag. }
  split; [by eapply Hback|].
  intros i w' Hrun.
  pose proof (wp_Ret _ _ _ _ _ _ (PushBack_with_spec this i buf xs cap w Hvec Hok) Hrun)
    as (Hpost & _).
  destruct (length xs =? cap).
  - destruct Hpost as (Hv & _). rewrite (Hback _ _ _ _ Hv). by rewrite last_snoc.
  - destruct Hpost as (Hv & _). rewrite (Hback _ _ _ _ Hv). by rewrite last_snoc.
Qed.

(** X3.  [end()] is [begin() + size]; the two are equal exactly when the vector
    is empty; [begin() + i] designates the element at position [i] for
    every [i] below the size, and [end()] designates no object. *)
Theorem iterators_span_elements this buf xs cap (w : world T) :
  vec_at w this buf xs cap →
  Vector_begin this w = Ret (Ptr buf 0) w ∧
  Vector_end this w = Ret (ptr_add (Ptr buf 0) (length xs)) w ∧
  (Ptr buf 0 = ptr_add (Ptr buf 0) (length xs) ↔ xs = []) ∧
  (∀ i x, xs !! i = Some x → peek (ptr_add (Ptr buf 0) i) w = Ret x w) ∧
  deref (Vector_end this) w = Undef.
Proof.
  intros Hvec. pose proof Hvec as (Ho & _).
  assert (Vector_end this w = Ret (ptr_add (Ptr buf 0) (length xs)) w) as Hend.
  { unfold Vector_end, bind, getv. rewrite Ho. done. }
  split; [|split; [done|split; [|split]]].
  - unfold Vector_begin, bind, getv. rewrite Ho. done.
  - unfold ptr_add; simpl. split.
    + intros [= Hlen]. by destruct xs.
    + by intros ->.
  - intros i x Hx. unfold ptr_add; simpl.
    rewrite (peek_vec_at _ _ _ _ _ _ Hvec). by rewrite Hx.
  - unfold deref, bind. rewrite Hend. unfold ptr_add; simpl.
    rewrite (peek_vec_at _ _ _ _ _ _ Hvec).
    by rewrite (proj2 (lookup_ge_None xs (length xs))).
Qed.

(** *** Construction, destruction, move and swap *)

Lemma PopBack_eq this a ys z cap h b o fs (l : list T) tr :
  vec_at (World h b o fs l tr) this (Some a) (ys ++ [z]) cap →
  PopBack this (World h b o fs l tr) =
  Ret () (World (<[a := (Some <$> ys) ++ None :: replicate (cap - S (length ys)) None]> h)
                b (<[this := mkVector (mkRawMemory (Some a) cap) (length ys)]> o)
                fs l (tr ++ [EvDtor z])).
Proof.
  intros (Ho & Hle & Hbuf). simpl in *.
  unfold block_of in Hbuf.
  rewrite fmap_app, <-app_assoc, length_app, Nat.add_1_r in Hbuf. simpl in Hbuf.
  unfold PopBack, bind at 1, getv. simpl. rewrite Ho. simpl.
  rewrite length_app, Nat.add_1_r. simpl.
  unfold bind at 1, set_size, bind at 1, getv. simpl. rewrite Ho. simpl.
  unfold GetAddress, ptr_add, destroy_at, bind, peek, poke, log, emit; simpl.
  rewrite Hbuf. rewrite list_lookup_middle by (by rewrite length_fmap). simpl.
  rewrite Hbuf. rewrite list_lookup_middle by (by rewrite length_fmap). simpl.
  rewrite (insert_mid0 (Some <$> ys)) by (by rewrite length_fmap). done.
Qed.

Lemma wp_Vector_copy this other bo xs co w :
  vec_at w other bo xs co → heap_ok w →
  wp (Vector_copy this other) w
     (λ _ w',
        heap w' = (if length xs =? 0 then heap w
                   else <[brk w := block_of xs (length xs)]> (heap w)) ∧
        objs w' = <[this := mkVector
                              (mkRawMemory (if length xs =? 0 then None
                                            else Some (brk w)) (length xs))
                              (length xs)]> (objs w) ∧
        trace w' = trace w ++
                   (if length xs =? 0 then [] else [EvAlloc (brk w) (length xs)]) ++
                   (EvCopy <$> xs) ∧
        brk w' = (if length xs =? 0 then brk w else S (brk w)) ∧
        lost w' = lost w ∧ (faults w = [] → faults w' = []))
     (λ w', faults w ≠ [] ∧ heap w' = heap w ∧ objs w' = objs w ∧
            lost w' = lost w).
Proof.
  destruct w as [h b o fs l tr]. intros (Ho & Hle & Hbuf) Hok. simpl in *.
  unfold Vector_copy. apply wp_bind. eapply wp_getv; [done|]. simpl.
  apply wp_bind, wp_RawMemory_ctor.
  - intros Hn. destruct xs; [|done]. simpl.
    apply wp_bind, wp_catch, wp_ret, wp_putv. simpl.
    by rewrite app_nil_r.
  - intros Hn fs1 Hfs1. destruct (Nat.eqb_spec (length xs) 0) as [?|_]; [lia|].
    destruct bo as [a|]; [|lia].
    assert (a ≠ b) as Hab.
    { intros ->. rewrite Hok in Hbuf by (simpl; lia). done. }
    apply wp_bind, wp_catch. unfold GetAddress; simpl. unfold block_of in Hbuf.
    eapply (wp_uninitialized_copy_n a 0 [] xs _ b 0 [] []);
      [done| |done| |done|done| |].
    { rewrite lookup_insert_ne by done. exact Hbuf. }
    { rewrite lookup_insert_eq. by rewrite app_nil_r. }
    + intros fs2 Hfs2. apply wp_putv. simpl. rewrite insert_insert_eq.
      unfold block_of. rewrite Nat.sub_diag. simpl.
      split; [done|]. split; [done|]. split; [list_eq|]. auto.
    + intros fs2 tr2 Hfs2. unfold RawMemory_dtor; simpl.
      eapply wp_Deallocate; [apply lookup_insert_eq|]. simpl.
      rewrite omap_id_replicate_None, app_nil_r.
      split; [intros ->; by apply Hfs2, Hfs1|].
      split; [|done]. rewrite delete_insert_eq. apply delete_id, Hok. simpl. lia.
  - intros Hn fs' Hfs. simpl. done.
Qed.

(** X4.  The copy constructor.  When no operation fails the new vector holds
    the values of the source in order, in a block of its own of exactly
    [size] slots (no block at all for an empty source), the source and
    every other block are untouched, and each element was copied once, in
    order; removing the last element of the copy leaves the source with
    all of its elements.  When the allocation or a copy throws, the copies
    made so far are destroyed, the block is released, and heap, objects
    and lost objects are as before: no object has come to exist. *)
Theorem Vector_copy_is_independent this other bo xs co (w : world T) :
  vec_at w other bo xs co → heap_ok w → this ≠ other →
  (faults w = [] →
     ∃ w' buf,
       Vector_copy this other w = Ret () w' ∧
       vec_at w' this buf xs (length xs) ∧ vec_at w' other bo xs co ∧
       (∀ a, buf = Some a → bo ≠ Some a ∧ heap w !! a = None) ∧
       (∀ a, buf ≠ Some a → heap w' !! a = heap w !! a) ∧
       trace w' = trace w ++
                  match buf with
                  | Some a => [EvAlloc a (length xs)]
                  | None => []
                  end ++ (EvCopy <$> xs) ∧
       lost w' = lost w ∧ heap_ok w' ∧
       (∀ ys z, xs = ys ++ [z] →
          ∃ w'', PopBack this w' = Ret () w'' ∧
                 elems w'' this = Some ys ∧ elems w'' other = Some xs)) ∧
  (∀ w', Vector_copy this other w = Exn w' →
         heap w' = heap w ∧ objs w' = objs w ∧ lost w' = lost w).
Proof.
  intros Hvec Hok Hne. pose proof (wp_Vector_copy this other bo xs co w Hvec Hok) as Hwp.
  split.
  - intros Hfs.
    destruct (wp_total _ _ _ _ Hwp) as ([] & w' & Hrun & Hh & Ho & Htr & Hb & Hl & Hf).
    { by intros w' (Hf & _). }
    destruct Hvec as (Hoo & Hle & Hbuf).
    set (buf := if length xs =? 0 then None else Some (brk w)).
    assert (vec_at w' this buf xs (length xs)) as Hvt.
    { unfold vec_at, buf. rewrite Ho, Hh, lookup_insert_eq.
      destruct (length xs =? 0) eqn:Hz; [by apply Nat.eqb_eq in Hz|].
      by rewrite lookup_insert_eq. }
    assert (∀ a, buf = Some a → bo ≠ Some a ∧ heap w !! a = None) as Hsep.
    { unfold buf. intros a Ha. destruct (length xs =? 0); [done|].
      injection Ha as <-. split; [|by apply Hok].
      intros ->. rewrite Hok in Hbuf by lia. done. }
    assert (∀ a, buf ≠ Some a → heap w' !! a = heap w !! a) as Hframe.
    { unfold buf. intros a Ha. rewrite Hh. destruct (length xs =? 0); [done|].
      rewrite lookup_insert_ne; [done|]. by intros <-. }
    assert (vec_at w' other bo xs co) as Hvo.
    { unfold vec_at. rewrite Ho, lookup_insert_ne by done.
      split; [done|]. split; [done|]. destruct bo as [a|]; [|done].
      rewrite Hframe; [done|]. intros Ha. by destruct (Hsep a Ha). }
    exists w', buf. split; [done|]. split; [done|]. split; [done|].
    split; [done|]. split; [done|].
    split; [|split; [done|split]].
    + rewrite Htr. unfold buf. by destruct (length xs =? 0).
    + intros a Ha. rewrite Hb in Ha. rewrite Hframe.
      * apply Hok. destruct (length xs =? 0); lia.
      * unfold buf. destruct (length xs =? 0); [done|]. intros [= <-]. lia.
    + intros ys z ->.
      assert (∃ a, buf = Some a) as [a Ha].
      { unfold buf. rewrite length_app. simpl.
        destruct (Nat.eqb_spec (length ys + 1) 0); [lia|eauto]. }
      rewrite Ha in Hvt. destruct w' as [h' b' o' fs' l' tr'].
      eexists. split; [exact (PopBack_eq this a ys z _ h' b' o' fs' l' tr' Hvt)|].
      split.
      * eapply elems_block; simpl; apply lookup_insert_eq.
      * apply (elems_vec_at _ other bo _ co).
        destruct Hvo as (Ho' & _ & Hb'). unfold vec_at. simpl in *.
        rewrite lookup_insert_ne by done.
        split; [done|]. split; [done|]. destruct bo as [ao|]; [|done].
        rewrite lookup_insert_ne; [done|]. intros <-. by destruct (Hsep a Ha).
  - intros w' Hrun. by destruct (wp_Exn _ _ _ _ _ Hwp Hrun) as (_ & ? & ? & ?).
Qed.

(** X5.  The sized constructor, for every size whose byte count fits
    [size_t].  When no operation fails the vector has [size]
    value-initialised elements and capacity [size], with no spare slot.
    Size 0 allocates nothing and cannot fail.  When the allocation or a
    constructor throws, what was constructed is destroyed, the block is
    released, and heap, objects and lost objects are as before. *)
Theorem Vector_sized_value_initialises this n (w : world T) :
  heap_ok w → request_fits n →
  (faults w = [] →
     ∃ w', Vector_sized this n w = Ret () w' ∧
           elems w' this = Some (replicate n value_init) ∧
           size_of w' this = Some n ∧ capacity_of w' this = Some n ∧
           spare_slots w' this = Some [] ∧ lost w' = lost w) ∧
  (∀ w', Vector_sized this n w = Exn w' →
         heap w' = heap w ∧ objs w' = objs w ∧ lost w' = lost w) ∧
  Vector_sized this 0 w =
    Ret () (set_objs (<[this := mkVector (mkRawMemory None 0) 0]> (objs w)) w).
Proof.
  intros Hok _. pose proof (wp_Vector_sized this n w Hok) as Hwp.
  split; [|split].
  - intros Hfs.
    destruct (wp_total _ _ _ _ Hwp) as ([] & w' & Hrun & Hv & _ & Hl & _).
    { by intros w' (Hf & _). }
    exists w'. split; [done|]. split; [by eapply elems_vec_at|].
    split; [by rewrite (size_of_vec_at _ _ _ _ _ Hv), length_replicate|].
    split; [by eapply capacity_of_vec_at|]. split; [|done].
    rewrite (spare_slots_vec_at _ _ _ _ _ Hv), length_replicate.
    by rewrite Nat.sub_diag.
  - intros w' Hrun. by destruct (wp_Exn _ _ _ _ _ Hwp Hrun) as (_ & ? & ? & ?).
  - done.
Qed.

Lemma wp_Vector_dtor this buf xs cap w E :
  vec_at w this buf xs cap →
  wp (Vector_dtor this) w
     (λ _ w',
        heap w' = match buf with
                  | Some a => delete a (heap w)
                  | None => heap w
                  end ∧
        objs w' = delete this (objs w) ∧
        trace w' = trace w ++ (EvDtor <$> xs) ++ free_event buf ∧
        lost w' = lost w ∧ faults w' = faults w ∧ brk w' = brk w)
     E.
Proof.
  destruct w as [h b o fs l tr]. intros (Ho & Hle & Hbuf). simpl in *.
  unfold Vector_dtor. apply wp_bind. eapply wp_getv; [done|]. simpl.
  unfold GetAddress, RawMemory_dtor; simpl. apply wp_bind.
  destruct buf as [a|].
  - eapply (wp_destroy_n a 0 [] xs); [exact Hbuf|done|done|].
    apply wp_bind. eapply wp_Deallocate; [apply lookup_insert_eq|].
    unfold wp, set_objs. simpl.
    rewrite omap_app, !omap_id_replicate_None, delete_insert_eq. simpl.
    split; [done|]. split; [done|]. split; [list_eq|]. by rewrite app_nil_r.
  - subst cap. destruct xs; [|simpl in Hle; lia]. simpl.
    apply wp_ret, wp_bind, wp_Deallocate_null.
    unfold wp, set_objs. simpl. by rewrite app_nil_r.
Qed.

(** X6.  The destructor returns for every vector: it destroys each element
    once, front to back, then releases the block; the object is gone, no
    other block is touched and nothing is lost. *)
Theorem Vector_dtor_releases this buf xs cap (w : world T) :
  vec_at w this buf xs cap →
  ∃ w', Vector_dtor this w = Ret () w' ∧
        objs w' !! this = None ∧
        (∀ a, buf = Some a → heap w' !! a = None) ∧
        (∀ a, buf ≠ Some a → heap w' !! a = heap w !! a) ∧
        trace w' = trace w ++ (EvDtor <$> xs) ++ free_event buf ∧
        lost w' = lost w ∧ faults w' = faults w.
Proof.
  intros Hvec.
  destruct (wp_total _ _ _ (λ _, False) (wp_Vector_dtor this buf xs cap w _ Hvec))
    as ([] & w' & Hrun & Hh & Ho & Htr & Hl & Hf & _); [done|].
  exists w'. split; [done|]. split; [by rewrite Ho, lookup_delete_eq|].
  split; [|split; [|done]].
  - intros a ->. by rewrite Hh, lookup_delete_eq.
  - intros a Ha. rewrite Hh. destruct buf as [a'|]; [|done].
    rewrite lookup_delete_ne; [done|]. by intros ->.
Qed.

(** X7.  The move constructor and move assignment touch no element and no
    block: the target takes over buffer, capacity and size of the source,
    and the source is left with a null buffer, capacity 0 and size 0.
    Move assignment to the object itself changes nothing.  Move assignment
    does not release or exchange the block the target had: heap and trace
    are as before the call. *)
Theorem move_takes_over_storage this other bo xs co (w : world T) :
  vec_at w other bo xs co → this ≠ other →
  (∃ w', Vector_move this other w = Ret () w' ∧
         vec_at w' this bo xs co ∧ vec_at w' other None [] 0 ∧
         heap w' = heap w ∧ trace w' = trace w ∧ lost w' = lost w ∧
         faults w' = faults w) ∧
  (∀ bt xt ct, vec_at w this bt xt ct →
     ∃ w', move_assignment this other w = Ret () w' ∧
           vec_at w' this bo xs co ∧ vec_at w' other None [] 0 ∧
           heap w' = heap w ∧ trace w' = trace w ∧ lost w' = lost w ∧
           faults w' = faults w) ∧
  move_assignment other other w = Ret () w.
Proof.
  intros Hvec Hne. pose proof Hvec as (Ho & Hle & Hbuf).
  destruct w as [h b o fs l tr]. simpl in *.
  assert (∀ o1,
    vec_at (World h b (<[other := mkVector (mkRawMemory None 0) 0]>
                         (<[this := mkVector (mkRawMemory bo co) (length xs)]> o1))
                  fs l tr) this bo xs co ∧
    vec_at (World h b (<[other := mkVector (mkRawMemory None 0) 0]>
                         (<[this := mkVector (mkRawMemory bo co) (length xs)]> o1))
                  fs l tr) other None [] 0) as Hres.
  { intros o1. unfold vec_at; simpl.
    rewrite lookup_insert_eq, lookup_insert_ne, lookup_insert_eq by done. done. }
  split; [|split].
  - eexists. split.
    + unfold Vector_move, bind, getv, putv, set_objs; simpl. rewrite Ho. simpl.
      reflexivity.
    + destruct (Hres o) as [? ?]. done.
  - intros bt xt ct (Hot & _). simpl in Hot. eexists. split.
    + unfold move_assignment.
      destruct (decide (this = other)) as [Heq|_]; [exfalso; by apply Hne|].
      unfold bind, getv, putv, set_objs; simpl. rewrite Hot. simpl. rewrite Ho. simpl.
      reflexivity.
    + destruct (Hres o) as [? ?]. done.
  - unfold move_assignment. by destruct (decide (other = other)).
Qed.

(** X8.  [Swap] exchanges buffer, capacity and size of two vectors and nothing
    else: no element is touched, no block allocated or released.  Swapping
    twice gives back the world as it was. *)
Theorem Swap_exchanges this other bt xt ct bo xo co (w : world T) :
  vec_at w this bt xt ct → vec_at w other bo xo co → this ≠ other →
  ∃ w', Swap this other w = Ret () w' ∧
        vec_at w' this bo xo co ∧ vec_at w' other bt xt ct ∧
        heap w' = heap w ∧ trace w' = trace w ∧ lost w' = lost w ∧
        faults w' = faults w ∧
        Swap this other w' = Ret () w.
Proof.
  intros Hvt Hvo Hne. pose proof Hvt as (Hot & Hlt & Hbt).
  pose proof Hvo as (Hoo & Hlo & Hbo).
  destruct w as [h b o fs l tr]. simpl in *.
  eexists. split.
  { unfold Swap, bind, getv, putv, set_objs; simpl. rewrite Hot. simpl.
    rewrite Hoo. simpl.
    reflexivity. }
  split; [|split; [|split; [|split; [|split; [|split]]]]]; try done.
  - unfold vec_at; simpl. rewrite lookup_insert_ne, lookup_insert_eq by done. done.
  - unfold vec_at; simpl. rewrite lookup_insert_eq. done.
  - unfold Swap, bind, getv, putv, set_objs; simpl.
    rewrite lookup_insert_ne, lookup_insert_eq by done. simpl.
    rewrite lookup_insert_eq. simpl.
    match goal with
    | |- Ret () (World _ _ ?o1 _ _ _) = _ => assert (o1 = o) as ->; [|done]
    end.
    apply map_eq. intros k.
    destruct (decide (k = other)) as [->|Hk1].
    { by rewrite lookup_insert_eq. }
    rewrite lookup_insert_ne by done.
    destruct (decide (k = this)) as [->|Hk2].
    { by rewrite lookup_insert_eq. }
    by rewrite !lookup_insert_ne by done.
Qed.

(** *** Functions that cannot throw *)

Lemma nothrow_ret {A} (a : A) : nothrow (ret (T:=T) a).
Proof. by intros w w'. Qed.

Lemma nothrow_bind {A B} (m : M T A) (k : A → M T B) :
  nothrow m → (∀ a, nothrow (k a)) → nothrow (bind m k).
Proof.
  intros Hm Hk w w'. unfold bind. destruct (m w) as [a w1|w1|] eqn:Hrun; [|by destruct (Hm w w1)|done].
  apply Hk.
Qed.

Lemma nothrow_getv this : nothrow (getv (T:=T) this).
Proof. intros w w'. unfold getv. by destruct (objs w !! this). Qed.

Lemma nothrow_putv this v : nothrow (putv (T:=T) this v).
Proof. by intros w w'. Qed.

Lemma nothrow_set_size this n : nothrow (set_size (T:=T) this n).
Proof.
  apply nothrow_bind; [apply nothrow_getv|]. intros v. apply nothrow_putv.
Qed.

Lemma nothrow_peek p : nothrow (peek (T:=T) p).
Proof.
  intros w w'. unfold peek. destruct (base p); [|done].
  destruct (heap w !! _); [|done]. by destruct (_ !! off p) as [[]|].
Qed.

Lemma nothrow_poke p s : nothrow (poke (T:=T) p s).
Proof.
  intros w w'. unfold poke. destruct (base p); [|done].
  destruct (heap w !! _); [|done]. by destruct (_ !! off p).
Qed.

Lemma nothrow_log e : nothrow (log (T:=T) e).
Proof. by intros w w'. Qed.

Lemma nothrow_destroy_at p : nothrow (destroy_at (T:=T) p).
Proof.
  apply nothrow_bind; [apply nothrow_peek|]. intros v.
  apply nothrow_bind; [apply nothrow_poke|]. intros _. apply nothrow_log.
Qed.

Lemma nothrow_destroy_n n : ∀ p, nothrow (destroy_n (T:=T) p n).
Proof.
  induction n as [|n IH]; intros p; simpl; [apply nothrow_ret|].
  apply nothrow_bind; [apply nothrow_destroy_at|]. intros _. apply IH.
Qed.

Lemma nothrow_Deallocate buf : nothrow (Deallocate (T:=T) buf).
Proof.
  intros w w'. unfold Deallocate. destruct buf; [|done].
  by destruct (heap w !! _).
Qed.

Lemma nothrow_move_range n : is_nothrow_move_assignable = true →
  ∀ p q, nothrow (move_range p n q).
Proof.
  intros Hnt. induction n as [|n IH]; intros p q; simpl; [apply nothrow_ret|].
  apply nothrow_bind; [|intros _; apply IH].
  unfold move_assign. apply nothrow_bind; [apply nothrow_peek|]. intros v.
  rewrite Hnt. simpl. apply nothrow_bind; [apply nothrow_ret|]. intros _.
  apply nothrow_bind.
  - unfold assign_at. apply nothrow_bind; [apply nothrow_poke|]. intros old.
    destruct old; [apply nothrow_log|].
    destruct is_trivially_destructible; [apply nothrow_log|done].
  - intros _. apply nothrow_bind; [apply nothrow_poke|]. intros _.
    apply nothrow_ret.
Qed.

Lemma nothrow_PopBack this : nothrow (PopBack (T:=T) this).
Proof.
  unfold PopBack. apply nothrow_bind; [apply nothrow_getv|]. intros v.
  destruct (size_ v); [done|].
  apply nothrow_bind; [apply nothrow_set_size|]. intros _.
  apply nothrow_destroy_at.
Qed.

Lemma nothrow_Swap this other : nothrow (Swap (T:=T) this other).
Proof.
  unfold Swap. apply nothrow_bind; [apply nothrow_getv|]. intros t.
  apply nothrow_bind; [apply nothrow_getv|]. intros o. simpl.
  apply nothrow_bind; [apply nothrow_putv|]. intros _. apply nothrow_putv.
Qed.

Lemma nothrow_Vector_dtor this : nothrow (Vector_dtor (T:=T) this).
Proof.
  unfold Vector_dtor. apply nothrow_bind; [apply nothrow_getv|]. intros v.
  apply nothrow_bind; [apply nothrow_destroy_n|]. intros _.
  apply nothrow_bind; [apply nothrow_Deallocate|]. intros _. by intros w w'.
Qed.

(** X9.  The functions the source declares [noexcept] perform no operation that
    can throw, whatever the world they run in: [PopBack], [Swap], the move
    constructor, move assignment, [begin], [end], [operator[]], [Size] and
    [Capacity]; neither does the destructor.  [Erase] cannot throw when the
    element type is nothrow move assignable, as its commented-out
    [noexcept] says. *)
Theorem noexcept_functions_never_throw this other :
  nothrow (PopBack (T:=T) this) ∧
  nothrow (Swap (T:=T) this other) ∧
  nothrow (Vector_move (T:=T) this other) ∧
  nothrow (move_assignment (T:=T) this other) ∧
  nothrow (Vector_dtor (T:=T) this) ∧
  nothrow (Vector_begin (T:=T) this) ∧
  nothrow (Vector_end (T:=T) this) ∧
  (∀ i, nothrow (Index (T:=T) this i)) ∧
  nothrow (Size (T:=T) this) ∧
  nothrow (Capacity (T:=T) this) ∧
  (is_nothrow_move_assignable = true → ∀ pos, nothrow (Erase this pos)).
Proof.
  repeat split.
  - apply nothrow_PopBack.
  - apply nothrow_Swap.
  - unfold Vector_move. apply nothrow_bind; [apply nothrow_getv|]. intros o.
    simpl. apply nothrow_bind; [apply nothrow_putv|]. intros _. apply nothrow_putv.
  - unfold move_assignment. destruct (decide (this = other)); [apply nothrow_ret|].
    apply nothrow_bind; [apply nothrow_getv|]. intros t.
    apply nothrow_bind; [apply nothrow_getv|]. intros o. simpl.
    apply nothrow_bind; [apply nothrow_putv|]. intros _. apply nothrow_putv.
  - apply nothrow_Vector_dtor.
  - unfold Vector_begin. apply nothrow_bind; [apply nothrow_getv|]. intros v.
    apply nothrow_ret.
  - unfold Vector_end. apply nothrow_bind; [apply nothrow_getv|]. intros v.
    apply nothrow_ret.
  - intros i. unfold Index. apply nothrow_bind; [apply nothrow_getv|]. intros v.
    destruct (i <? size_ v); [apply nothrow_ret|done].
  - unfold Size. apply nothrow_bind; [apply nothrow_getv|]. intros v.
    apply nothrow_ret.
  - unfold Capacity. apply nothrow_bind; [apply nothrow_getv|]. intros v.
    apply nothrow_ret.
  - intros Hnt pos. unfold Erase. apply nothrow_bind; [apply nothrow_getv|].
    intros v. apply nothrow_bind; [apply nothrow_destroy_at|]. intros _.
    apply nothrow_bind.
    { destruct (size_ v <? pos + 1); [done|]. by apply nothrow_move_range. }
    intros _. destruct (size_ v); [done|].
    apply nothrow_bind; [apply nothrow_set_size|]. intros _. apply nothrow_ret.
Qed.

(** *** [PopBack] and [Erase] *)

Lemma PopBack_snoc this buf ys z cap (w : world T) :
  vec_at w this buf (ys ++ [z]) cap →
  ∃ w', PopBack this w = Ret () w' ∧
        vec_at w' this buf ys cap ∧
        trace w' = trace w ++ [EvDtor z] ∧
        lost w' = lost w ∧ faults w' = faults w.
Proof.
  intros Hvec.
  assert (∃ a, buf = Some a) as [a ->].
  { destruct Hvec as (_ & Hle & Hb). destruct buf; [eauto|].
    rewrite length_app in Hle. simpl in *. lia. }
  destruct (wp_total _ _ _ (λ _, False) (wp_PopBack this a ys z cap w _ Hvec))
    as ([] & w' & Hrun & Hv & Htr & _ & Hl & Hf); [done|].
  by exists w'.
Qed.

(** X10.  [PopBack] destroys the last element and nothing else: the other
    elements, the capacity and the buffer stay, and the vacated slot is
    uninitialised.  On an empty vector it is undefined behaviour. *)
Theorem PopBack_removes_last this buf xs cap (w : world T) :
  vec_at w this buf xs cap →
  (xs = [] → PopBack this w = Undef) ∧
  (∀ ys z, xs = ys ++ [z] →
     ∃ w', PopBack this w = Ret () w' ∧
           vec_at w' this buf ys cap ∧
           trace w' = trace w ++ [EvDtor z] ∧
           lost w' = lost w ∧ faults w' = faults w).
Proof.
  intros Hvec. split.
  - intros ->. destruct Hvec as (Ho & _). unfold PopBack, bind, getv.
    by rewrite Ho.
  - intros ys z ->. by apply PopBack_snoc.
Qed.

(** X11.  Appending an element and removing the last one gives back the
    elements and the size the vector had; the capacity is the one
    [PushBack] left. *)
Theorem PushBack_then_PopBack_restores this i buf xs cap (w : world T) :
  vec_at w this buf xs cap → heap_ok w → faults w = [] →
  ∃ w1 w2,
    PushBack_with this i w = Ret () w1 ∧ PopBack this w1 = Ret () w2 ∧
    elems w2 this = Some xs ∧ size_of w2 this = Some (length xs) ∧
    capacity_of w2 this = Some (if length xs =? cap then grown cap else cap) ∧
    spare_slots w2 this =
      Some (replicate ((if length xs =? cap then grown cap else cap) - length xs) None) ∧
    lost w2 = lost w.
Proof.
  intros Hvec Hok Hfs.
  destruct (wp_total _ _ _ _ (PushBack_with_spec this i buf xs cap w Hvec Hok))
    as ([] & w1 & Hrun1 & Hpost & _ & Hl1 & _).
  { by intros w' (Hf & _). }
  assert (∃ buf1, vec_at w1 this buf1 (xs ++ [init_value i])
                         (if length xs =? cap then grown cap else cap))
    as [buf1 Hv1].
  { destruct (length xs =? cap); destruct Hpost as (? & _); eauto. }
  destruct (PopBack_snoc this buf1 _ _ _ w1 Hv1) as (w2 & Hrun2 & Hv2 & _ & Hl2 & _).
  exists w1, w2. split; [done|]. split; [done|].
  split; [by eapply elems_vec_at|]. split; [by eapply size_of_vec_at|].
  split; [by eapply capacity_of_vec_at|].
  split; [by eapply spare_slots_vec_at|]. by rewrite Hl2.
Qed.

(** X12.  [Erase] at a position below the size.  When the element is the
    last one or [T] is trivially destructible, and no operation fails, it
    destroys the object at the position, move-assigns each follower one
    slot down in order, and returns the position: the elements are the
    former ones without the one at the position, size is one less, the
    capacity is unchanged, and the returned iterator designates the
    element that followed the erased one, or no object when it was the
    last.  When there are followers and the destructor of [T] is not
    trivial, the first move assignment runs on the object that was just
    destroyed: the call never returns, and with no failing operation it is
    undefined behaviour. *)
Theorem Erase_removes_element this a P e R cap (w : world T) :
  vec_at w this (Some a) (P ++ e :: R) cap →
  (R = [] ∨ is_trivially_destructible = true → faults w = [] →
     ∃ w', Erase this (length P) w = Ret (length P) w' ∧
           elems w' this = Some (P ++ R) ∧
           size_of w' this = Some (length (P ++ R)) ∧
           capacity_of w' this = Some cap ∧
           trace w' = trace w ++ EvDtor e :: (EvAssign <$> R) ∧
           lost w' = lost w ∧
           peek (Ptr (Some a) (length P)) w' =
             match R with
             | r :: _ => Ret r w'
             | [] => Undef
             end) ∧
  (R ≠ [] → is_trivially_destructible = false →
     (∀ r w', Erase this (length P) w ≠ Ret r w') ∧
     (faults w = [] → Erase this (length P) w = Undef)).
Proof.
  intros Hvec. split.
  - intros Hlive Hfs.
    destruct (wp_total _ _ _ _ (wp_Erase this a P e R cap w Hvec Hlive))
      as (r & w' & Hrun & -> & Ho & Hh & _ & Hl & _ & Htr); [by intros w'' (Hf & _)|].
    exists w'. split; [done|].
    split; [|split; [|split; [|split; [done|split; [done|]]]]].
    + eapply elems_block; [by rewrite Ho, lookup_insert_eq|].
      rewrite Hh. apply lookup_insert_eq.
    + unfold size_of. by rewrite Ho, lookup_insert_eq.
    + unfold capacity_of. by rewrite Ho, lookup_insert_eq.
    + unfold peek; simpl. rewrite Hh, lookup_insert_eq.
      rewrite fmap_app, <-app_assoc.
      rewrite lookup_app_r by (by rewrite length_fmap).
      rewrite length_fmap, Nat.sub_diag. by destruct R.
  - intros HR Htriv. destruct R as [|r R]; [done|].
    rewrite (Erase_before_last this a P e r R cap w Hvec Htriv). split.
    + intros r' w'. destruct (faults w) as [|[] ?]; [done| |done].
      by destruct is_nothrow_move_assignable.
    + by intros ->.
Qed.

(** X13.  [Erase] at [end()] or behind it is undefined behaviour.  Erasing the
    last element is [PopBack]: the same world results, with the vacated
    slot uninitialised. *)
Theorem Erase_edge_positions this buf xs cap (w : world T) :
  vec_at w this buf xs cap →
  (∀ pos, length xs ≤ pos → Erase this pos w = Undef) ∧
  (∀ ys z, xs = ys ++ [z] →
     ∃ w', Erase this (length ys) w = Ret (length ys) w' ∧
           PopBack this w = Ret () w' ∧
           vec_at w' this buf ys cap).
Proof.
  intros Hvec. split.
  - intros pos Hpos. pose proof Hvec as (Ho & _).
    assert (destroy_at (Ptr buf pos) w = Undef) as Hd.
    { unfold destroy_at, bind. rewrite (peek_vec_at _ _ _ _ _ _ Hvec).
      by rewrite (proj2 (lookup_ge_None xs pos)). }
    unfold Erase, bind at 1, getv. rewrite Ho.
    unfold GetAddress, ptr_add. cbn [data_ buffer_ base off Nat.add].
    unfold bind at 1. by rewrite Hd.
  - intros ys z ->.
    destruct (PopBack_snoc this buf _ _ cap w Hvec) as (w' & Hpop & Hv & _).
    exists w'. split; [|done].
    pose proof Hvec as (Ho & Hle & Hbuf).
    assert (∃ a, buf = Some a) as [a ->].
    { destruct buf; [eauto|]. rewrite length_app in Hle. simpl in *. lia. }
    destruct w as [h b o fs l tr]. simpl in *.
    pose proof (PopBack_eq this a ys z cap h b o fs l tr Hvec) as Hpop'.
    rewrite Hpop' in Hpop. injection Hpop as <-.
    unfold block_of in Hbuf.
    rewrite fmap_app, <-app_assoc, length_app, Nat.add_1_r in Hbuf. simpl in Hbuf.
    unfold Erase, bind at 1, getv. simpl. rewrite Ho.
    cbn [size_ data_ capacity_].
    rewrite length_app, Nat.add_1_r.
    destruct (Nat.ltb_spec (S (length ys)) (length ys + 1)) as [?|_]; [lia|].
    replace (S (length ys) - (length ys + 1)) with 0 by lia. simpl.
    unfold GetAddress, ptr_add, destroy_at, bind, peek, poke, log, emit; simpl.
    rewrite Hbuf. rewrite list_lookup_middle by (by rewrite length_fmap). simpl.
    rewrite Hbuf. rewrite list_lookup_middle by (by rewrite length_fmap). simpl.
    unfold set_size, bind, getv, putv; simpl. rewrite Ho. simpl.
    rewrite (insert_mid0 (Some <$> ys)) by (by rewrite length_fmap). done.
Qed.



(** *** Allocation failure *)

Lemma RawMemory_ctor_fails n fs (w : world T) :
  n ≠ 0 → faults w = true :: fs → RawMemory_ctor n w = Exn (set_faults fs w).
Proof.
  intros Hn Hfs. unfold RawMemory_ctor, bind, Allocate.
  destruct (Nat.eqb_spec n 0) as [?|_]; [done|].
  unfold bind, tick. by rewrite Hfs.
Qed.

Lemma scope_RawMemory_fails {A} n (body : RawMemory → M T (A * RawMemory)) fs
    (w : world T) :
  n ≠ 0 → faults w = true :: fs →
  scope_RawMemory n body w = Exn (set_faults fs w).
Proof.
  intros Hn Hfs. unfold scope_RawMemory, bind.
  by rewrite (RawMemory_ctor_fails n fs w).
Qed.

(** X15.  When the allocation of a new block fails, the call throws and the
    world is as before, but for the consumed entry of the fault plan:
    nothing was constructed, destroyed, allocated or released.  This holds
    for [Reserve] and [Resize] beyond the capacity, for [PushBack] and
    [Emplace] on a full vector, for the sized constructor with a size
    other than 0 and for the copy constructor from a vector that is not
    empty, whatever the element type. *)
Theorem allocation_failure_changes_nothing this buf xs cap fs (w : world T) :
  vec_at w this buf xs cap → faults w = true :: fs →
  (∀ n, cap < n → Reserve this n w = Exn (set_faults fs w)) ∧
  (∀ n, cap < n → Resize this n w = Exn (set_faults fs w)) ∧
  (length xs = cap → ∀ i, PushBack_with this i w = Exn (set_faults fs w)) ∧
  (length xs = cap → ∀ pos i, Emplace this pos i w = Exn (set_faults fs w)) ∧
  (∀ that n, n ≠ 0 → Vector_sized that n w = Exn (set_faults fs w)) ∧
  (xs ≠ [] → ∀ that, Vector_copy that this w = Exn (set_faults fs w)).
Proof.
  intros (Ho & Hle & Hbuf) Hfs.
  assert (∀ n, cap < n → Reserve this n w = Exn (set_faults fs w)) as Hres.
  { intros n Hn. unfold Reserve, bind at 1, getv. rewrite Ho. simpl.
    destruct (Nat.leb_spec n cap) as [?|_]; [lia|].
    apply scope_RawMemory_fails; [lia|done]. }
  assert (grown (length xs) ≠ 0) as Hg by (pose proof (grown_gt (length xs)); lia).
  split; [done|]. split; [|split; [|split; [|split]]].
  - intros n Hn. unfold Resize, bind at 1, getv. rewrite Ho. simpl.
    destruct (Nat.eqb_spec n (length xs)) as [?|_]; [lia|].
    destruct (Nat.ltb_spec n (length xs)) as [?|_]; [lia|].
    unfold bind. by rewrite Hres.
  - intros <- i. unfold PushBack_with, bind at 1, getv. rewrite Ho. simpl.
    rewrite Nat.eqb_refl. unfold bind at 1. fold (grown (length xs)).
    by rewrite (scope_RawMemory_fails (grown (length xs)) _ fs w).
  - intros <- pos i. unfold Emplace, bind at 1, getv. rewrite Ho. simpl.
    rewrite Nat.eqb_refl. unfold EmplaceWithAllocation, bind at 1, getv.
    rewrite Ho. simpl. fold (grown (length xs)).
    by apply scope_RawMemory_fails.
  - intros that n Hn. unfold Vector_sized, bind at 1.
    by rewrite (RawMemory_ctor_fails n fs w).
  - intros Hne that. unfold Vector_copy, bind at 1, getv. rewrite Ho. simpl.
    unfold bind at 1. rewrite (RawMemory_ctor_fails (length xs) fs w); [done| |done].
    by destruct xs.
Qed.

(** *** Growth and references *)

Lemma appends_within_capacity this vs : ∀ a xs cap (w : world T),
  vec_at w this (Some a) xs cap → heap_ok w → faults w = [] →
  length xs + length vs ≤ cap →
  ∃ w', appends this vs w = Ret () w' ∧
        vec_at w' this (Some a) (xs ++ vs) cap ∧
        trace w' = trace w ++ (EvCopy <$> vs) ∧
        lost w' = lost w ∧ faults w' = [] ∧ heap_ok w'.
Proof.
  induction vs as [|v vs IH]; intros a xs cap w Hvec Hok Hfs Hfit.
  - exists w. simpl. by rewrite !app_nil_r.
  - simpl in Hfit.
    destruct (wp_total _ _ _ _ (PushBack_with_spec this (CopyOf v) (Some a) xs cap w Hvec Hok))
      as ([] & w1 & Hrun1 & Hpost & Hok1 & Hl1 & Hfs1).
    { by intros w' (Hf & _). }
    destruct (Nat.eqb_spec (length xs) cap) as [?|_]; [lia|].
    destruct Hpost as (Hv1 & Htr1).
    destruct (IH a (xs ++ [v]) cap w1 Hv1 Hok1 (Hfs1 Hfs)) as (w' & Hrun & Hv' & Htr' & Hl' & Hfs' & Hok').
    { rewrite length_app. simpl. lia. }
    exists w'. split; [|split; [|split; [|split; [|done]]]].
    + simpl. unfold bind, PushBack. by rewrite Hrun1.
    + by rewrite <-app_assoc in Hv'.
    + rewrite Htr', Htr1. simpl. by rewrite <-app_assoc.
    + by rewrite Hl'.
Qed.

(** X16.  After [Reserve(n)] beyond the capacity, for an [n] whose byte
    count fits [size_t], appending up to [n - size] elements never
    reallocates: the buffer stays where [Reserve] put it,
    the capacity stays [n], the only element operations are the copies of
    the appended values, and every reference [v[i]] taken before the
    appends designates the same element after them. *)
Theorem Reserve_then_appends_keep_buffer this buf xs cap n vs (w : world T) :
  vec_at w this buf xs cap → heap_ok w → faults w = [] →
  cap < n → request_fits n → length xs + length vs ≤ n →
  ∃ w1 w2,
    Reserve this n w = Ret () w1 ∧ appends this vs w1 = Ret () w2 ∧
    vec_at w1 this (Some (brk w)) xs n ∧
    vec_at w2 this (Some (brk w)) (xs ++ vs) n ∧
    trace w2 = trace w1 ++ (EvCopy <$> vs) ∧
    (∀ i x, xs !! i = Some x →
       Index this i w1 = Ret (Ptr (Some (brk w)) i) w1 ∧
       Index this i w2 = Ret (Ptr (Some (brk w)) i) w2 ∧
       deref (Index this i) w1 = Ret x w1 ∧
       deref (Index this i) w2 = Ret x w2).
Proof.
  intros Hvec Hok Hfs Hn _ Hfit.
  destruct (wp_total _ _ _ _ (wp_Reserve this n buf xs cap w Hvec Hok Hn))
    as ([] & w1 & Hrun1 & Hv1 & _ & _ & Hok1 & _ & Hfs1); [by intros w' (Hf & _)|].
  destruct (appends_within_capacity this vs _ xs n w1 Hv1 Hok1 (Hfs1 Hfs) Hfit)
    as (w2 & Hrun2 & Hv2 & Htr2 & _).
  exists w1, w2. split; [done|]. split; [done|]. split; [done|].
  split; [done|]. split; [done|].
  intros i x Hx. pose proof (lookup_lt_Some _ _ _ Hx) as Hlt.
  destruct (Index_vec_at this _ _ _ w1 i Hv1) as [Hi1 Hd1].
  destruct (Index_vec_at this _ _ _ w2 i Hv2) as [Hi2 Hd2].
  rewrite length_app in Hi2.
  destruct (Nat.ltb_spec i (length xs)) as [_|?]; [|lia].
  destruct (Nat.ltb_spec i (length xs + length vs)) as [_|?]; [|lia].
  rewrite Hx in Hd1. rewrite lookup_app_l in Hd2 by done.
  rewrite Hx in Hd2. done.
Qed.

(** *** Insertion and lookup *)

Lemma inserted_lookup pos (v : T) xs :
  pos ≤ length xs →
  inserted pos v xs !! pos = Some v ∧
  (∀ k, k < pos → inserted pos v xs !! k = xs !! k) ∧
  (∀ k, pos ≤ k → inserted pos v xs !! S k = xs !! k).
Proof.
  intros Hpos. unfold inserted.
  assert (length (take pos xs) = pos) as Hlt by (rewrite length_take; lia).
  split; [|split].
  - rewrite lookup_app_r by lia. by rewrite Hlt, Nat.sub_diag.
  - intros k Hk. rewrite lookup_app_l by lia. by apply lookup_take_lt.
  - intros k Hk. rewrite lookup_app_r by lia. rewrite Hlt.
    replace (S k - pos) with (S (k - pos)) by lia. simpl.
    rewrite lookup_drop. f_equal. lia.
Qed.

(** X17.  With no failing operation [Emplace] at a valid position returns the
    position, and then [v[pos]] is the new element, every element that
    was before the position is where it was, every element from the
    position on is one index higher, and the size is one more.  [Insert]
    is [Emplace] with the copy or the move constructor and [EmplaceBack]
    is [Emplace] at [end()]. *)
Theorem Emplace_then_lookup this pos i buf xs cap (w : world T) :
  vec_at w this buf xs cap → heap_ok w → pos ≤ length xs → faults w = [] →
  ∃ w', Emplace this pos i w = Ret pos w' ∧
        size_of w' this = Some (S (length xs)) ∧
        deref (Index this pos) w' = Ret (init_value i) w' ∧
        (∀ k x, k < pos → xs !! k = Some x → deref (Index this k) w' = Ret x w') ∧
        (∀ k x, pos ≤ k → xs !! k = Some x →
                deref (Index this (S k)) w' = Ret x w') ∧
        lost w' = lost w ∧
        (∀ x, Insert this pos x w = Emplace this pos (CopyOf x) w ∧
              Insert_move this pos x w = Emplace this pos (MoveOf x) w ∧
              EmplaceBack this x w = Emplace this (length xs) (FromArgs x) w).
Proof.
  intros Hvec Hok Hpos Hfs.
  destruct (wp_total _ _ _ _ (wp_Emplace this pos i buf xs cap w Hvec Hok Hpos))
    as (r & w' & Hrun & -> & (buf' & Hv) & _ & Hl & _).
  { by intros w' (Hf & _). }
  destruct (inserted_lookup pos (init_value i) xs Hpos) as (Hat & Hbefore & Hafter).
  exists w'. split; [done|]. split; [|split; [|split; [|split; [|split; [done|]]]]].
  - rewrite (size_of_vec_at _ _ _ _ _ Hv), length_inserted by done. done.
  - rewrite (proj2 (Index_vec_at this _ _ _ w' pos Hv)). by rewrite Hat.
  - intros k x Hk Hx.
    rewrite (proj2 (Index_vec_at this _ _ _ w' k Hv)). by rewrite Hbefore, Hx.
  - intros k x Hk Hx.
    rewrite (proj2 (Index_vec_at this _ _ _ w' (S k) Hv)). by rewrite Hafter, Hx.
  - intros x. split; [done|]. split; [done|].
    destruct Hvec as (Ho & _). unfold EmplaceBack, bind at 1, getv. by rewrite Ho.
Qed.

(** *** Blocks a call leaves behind *)

Lemma blocks_bound_mono ws R E R' E' {A} (m : M T A) w :
  blocks_bound ws R E m w → R ⊆ R' → E ⊆ E' → blocks_bound ws R' E' m w.
Proof.
  unfold blocks_bound. intros Hb HR HE.
  destruct (m w) as [a w'|w'|]; [| |done]; destruct Hb as [Hd Hf];
    (split; [|done]); (etrans; [exact Hd|]); by apply union_mono_l.
Qed.

Lemma stays_ret ws {A} (a : A) : stays ws (ret (T:=T) a).
Proof. intros w. unfold blocks_bound, ret. split; [apply union_subseteq_l|done]. Qed.

Lemma stays_throw ws {A} : stays ws (throw (T:=T) (A:=A)).
Proof. intros w. unfold blocks_bound, throw. split; [apply union_subseteq_l|done]. Qed.

Lemma stays_undef ws {A} : stays ws (undef (T:=T) (A:=A)).
Proof. by intros w. Qed.

Lemma stays_bind ws {A B} (m : M T A) (k : A → M T B) :
  stays ws m → (∀ a, stays ws (k a)) → stays ws (bind m k).
Proof.
  intros Hm Hk w. specialize (Hm w). unfold blocks_bound, bind in *.
  destruct (m w) as [a w1|w1|]; [|done|done].
  specialize (Hk a w1). unfold blocks_bound in Hk. destruct Hm as [Hd1 Hf1].
  rewrite union_empty_r_L in *.
  destruct (k a w1) as [c w2|w2|]; [| |done]; destruct Hk as [Hd2 Hf2];
    (split; [by etrans|intros x Hx; by rewrite Hf2, Hf1]).
Qed.

Lemma stays_catch ws {A} (m : M T A) (h : M T unit) :
  stays ws m → stays ws h → stays ws (catch_rethrow m h).
Proof.
  intros Hm Hh w. specialize (Hm w). unfold blocks_bound, catch_rethrow in *.
  destruct (m w) as [a w1|w1|]; [done| |done].
  specialize (Hh w1). unfold blocks_bound, bind, throw in *. destruct Hm as [Hd1 Hf1].
  rewrite union_empty_r_L in *.
  destruct (h w1) as [c w2|w2|]; [| |done]; destruct Hh as [Hd2 Hf2];
    (split; [by etrans|intros x Hx; by rewrite Hf2, Hf1]).
Qed.

Lemma stays_tick ws : stays ws (tick (T:=T)).
Proof.
  intros w. unfold blocks_bound, tick. destruct (faults w) as [|[] fs]; simpl;
    (split; [apply union_subseteq_l|done]).
Qed.

Lemma stays_may_throw ws c : stays ws (may_throw (T:=T) c).
Proof. destruct c; [apply stays_tick|apply stays_ret]. Qed.

Lemma stays_log ws e : stays ws (log (T:=T) e).
Proof. intros w. unfold blocks_bound, log. simpl. split; [apply union_subseteq_l|done]. Qed.

Lemma stays_peek ws p : stays ws (peek (T:=T) p).
Proof.
  intros w. unfold blocks_bound, peek. destruct (base p); [|done].
  destruct (heap w !! _); [|done]. destruct (_ !! off p) as [[]|]; [|done..].
  split; [apply union_subseteq_l|done].
Qed.

Lemma stays_poke ws p s : stays ws (poke (T:=T) p s).
Proof.
  intros w. unfold blocks_bound, poke. destruct (base p) as [a|]; [|done].
  destruct (heap w !! a) as [blk|] eqn:Hblk; [|done].
  destruct (blk !! off p); [|done]. simpl. split; [|done].
  rewrite dom_insert_lookup_L by (by rewrite Hblk). apply union_subseteq_l.
Qed.

Lemma stays_getv ws this : stays ws (getv (T:=T) this).
Proof.
  intros w. unfold blocks_bound, getv. destruct (objs w !! this); [|done].
  split; [apply union_subseteq_l|done].
Qed.

Lemma stays_putv ws this v : this ∈ ws → stays ws (putv (T:=T) this v).
Proof.
  intros Hin w. unfold blocks_bound, putv. simpl. split; [apply union_subseteq_l|].
  intros x Hx. rewrite lookup_insert_ne; [done|]. by intros <-.
Qed.

Lemma stays_set_size ws this n : this ∈ ws → stays ws (set_size (T:=T) this n).
Proof.
  intros Hin. apply stays_bind; [apply stays_getv|]. intros v. by apply stays_putv.
Qed.

Lemma stays_Deallocate ws buf : stays ws (Deallocate (T:=T) buf).
Proof.
  intros w. unfold blocks_bound, Deallocate. destruct buf as [a|].
  - destruct (heap w !! a); [|done]. simpl. split; [|done].
    rewrite dom_delete_L. etrans; [apply subseteq_difference_l; reflexivity|].
    apply union_subseteq_l.
  - split; [apply union_subseteq_l|done].
Qed.

Lemma stays_emplace_at ws p v : stays ws (emplace_at (T:=T) p v).
Proof.
  apply stays_bind; [apply stays_poke|]. intros [o|]; [|apply stays_ret].
  intros w. unfold blocks_bound. simpl. split; [apply union_subseteq_l|done].
Qed.

Lemma stays_assign_at ws p v : stays ws (assign_at p v).
Proof.
  apply stays_bind; [apply stays_poke|]. intros [old|]; [apply stays_log|].
  destruct is_trivially_destructible; [apply stays_log|apply stays_undef].
Qed.

Lemma stays_destroy_at ws p : stays ws (destroy_at (T:=T) p).
Proof.
  apply stays_bind; [apply stays_peek|]. intros v.
  apply stays_bind; [apply stays_poke|]. intros _. apply stays_log.
Qed.

Lemma stays_run_ctor ws i : stays ws (run_ctor i).
Proof.
  destruct i; simpl;
    (apply stays_bind; [first [apply stays_tick|apply stays_may_throw]|]; intros _;
     apply stays_bind; [apply stays_log|]; intros _; apply stays_ret).
Qed.

Lemma stays_construct_at ws p i : stays ws (construct_at p i).
Proof.
  apply stays_bind; [apply stays_run_ctor|]. intros v. apply stays_emplace_at.
Qed.

Lemma stays_copy_construct ws p q : stays ws (copy_construct p q).
Proof.
  apply stays_bind; [apply stays_peek|]. intros v. apply stays_construct_at.
Qed.

Lemma stays_move_construct ws p q : stays ws (move_construct p q).
Proof.
  apply stays_bind; [apply stays_peek|]. intros v.
  apply stays_bind.
  { apply stays_catch; [apply stays_construct_at|].
    apply stays_bind; [apply stays_poke|]. intros _. apply stays_ret. }
  intros _. apply stays_bind; [apply stays_poke|]. intros _. apply stays_ret.
Qed.

Lemma stays_copy_assign ws p q : stays ws (copy_assign p q).
Proof.
  apply stays_bind; [apply stays_peek|]. intros v.
  apply stays_bind; [apply stays_tick|]. intros _. apply stays_assign_at.
Qed.

Lemma stays_move_assign ws p q : stays ws (move_assign p q).
Proof.
  apply stays_bind; [apply stays_peek|]. intros v.
  apply stays_bind; [apply stays_may_throw|]. intros _.
  apply stays_bind; [apply stays_assign_at|]. intros _.
  apply stays_bind; [apply stays_poke|]. intros _. apply stays_ret.
Qed.

Lemma stays_destroy_n ws n : ∀ p, stays ws (destroy_n (T:=T) p n).
Proof.
  induction n as [|n IH]; intros p; simpl; [apply stays_ret|].
  apply stays_bind; [apply stays_destroy_at|]. intros _. apply IH.
Qed.

Lemma stays_uninitialized_copy_n ws n p q : stays ws (uninitialized_copy_n p n q).
Proof.
  unfold uninitialized_copy_n. generalize 0 as k. revert p.
  induction n as [|n IH]; intros p k; simpl; [apply stays_ret|].
  apply stays_bind; [|intros _; apply IH].
  apply stays_catch; [apply stays_copy_construct|apply stays_destroy_n].
Qed.

Lemma stays_uninitialized_move_n ws n p q : stays ws (uninitialized_move_n p n q).
Proof.
  unfold uninitialized_move_n. generalize 0 as k. revert p.
  induction n as [|n IH]; intros p k; simpl; [apply stays_ret|].
  apply stays_bind; [|intros _; apply IH].
  apply stays_catch; [apply stays_move_construct|apply stays_destroy_n].
Qed.

Lemma stays_uninitialized_fill_with ws x n p : stays ws (uninitialized_fill_with x p n).
Proof.
  unfold uninitialized_fill_with. generalize 0 as k.
  induction n as [|n IH]; intros k; simpl; [apply stays_ret|].
  apply stays_bind; [|intros _; apply IH].
  apply stays_catch; [apply stays_construct_at|apply stays_destroy_n].
Qed.

Lemma stays_copy_n ws n : ∀ p q, stays ws (copy_n p n q).
Proof.
  induction n as [|n IH]; intros p q; simpl; [apply stays_ret|].
  apply stays_bind; [apply stays_copy_assign|]. intros _. apply IH.
Qed.

Lemma stays_move_range ws n : ∀ p q, stays ws (move_range p n q).
Proof.
  induction n as [|n IH]; intros p q; simpl; [apply stays_ret|].
  apply stays_bind; [apply stays_move_assign|]. intros _. apply IH.
Qed.

Lemma stays_move_backward ws n : ∀ p q, stays ws (move_backward p n q).
Proof.
  induction n as [|n IH]; intros p q; simpl; [apply stays_ret|].
  destruct (off q); [apply stays_undef|].
  apply stays_bind; [apply stays_move_assign|]. intros _. apply IH.
Qed.

Lemma stays_MoveData ws p n q : stays ws (MoveData p n q).
Proof.
  unfold MoveData. destruct ISNOTHROWMOVEORCOPYCTOR;
    [apply stays_uninitialized_move_n|apply stays_uninitialized_copy_n].
Qed.

Lemma stays_DestroyAndSwap ws this nd : this ∈ ws → stays ws (DestroyAndSwap (T:=T) this nd).
Proof.
  intros Hin. unfold DestroyAndSwap. apply stays_bind; [apply stays_getv|]. intros v.
  apply stays_bind; [apply stays_destroy_n|]. intros _. simpl.
  apply stays_bind; [by apply stays_putv|]. intros _. apply stays_ret.
Qed.

Lemma stays_MoveDataTo ws this nd : this ∈ ws → stays ws (MoveDataTo this nd).
Proof.
  intros Hin. unfold MoveDataTo. apply stays_bind; [apply stays_getv|]. intros v.
  apply stays_bind; [|intros _; by apply stays_DestroyAndSwap].
  destruct ISNOTHROWMOVEORCOPYCTOR;
    [apply stays_uninitialized_move_n|apply stays_uninitialized_copy_n].
Qed.

Lemma stays_Ret ws {A} (m : M T A) w a w' :
  stays ws m → m w = Ret a w' →
  dom (heap w') ⊆ dom (heap w) ∧ ∀ x, x ∉ ws → objs w' !! x = objs w !! x.
Proof.
  intros Hm Hrun. specialize (Hm w). unfold blocks_bound in Hm.
  rewrite Hrun, union_empty_r_L in Hm. done.
Qed.

Lemma stays_Exn ws {A} (m : M T A) w w' :
  stays ws m → m w = Exn w' →
  dom (heap w') ⊆ dom (heap w) ∧ ∀ x, x ∉ ws → objs w' !! x = objs w !! x.
Proof.
  intros Hm Hrun. specialize (Hm w). unfold blocks_bound in Hm.
  rewrite Hrun, union_empty_r_L in Hm. done.
Qed.

Lemma stays_blocks_bound ws R E {A} (m : M T A) w :
  stays ws m → blocks_bound ws R E m w.
Proof.
  intros Hm. eapply blocks_bound_mono; [apply Hm|..]; apply empty_subseteq.
Qed.

Lemma RawMemory_ctor_Ret n (w : world T) nd w1 :
  RawMemory_ctor n w = Ret nd w1 →
  objs w1 = objs w ∧
  ((nd = mkRawMemory None 0 ∧ heap w1 = heap w) ∨
   (nd = mkRawMemory (Some (brk w)) n ∧
    heap w1 = <[brk w := replicate n None]> (heap w))).
Proof.
  unfold RawMemory_ctor, bind, Allocate, ret.
  destruct (Nat.eqb_spec n 0) as [->|Hn].
  - intros [= <- <-]. auto.
  - unfold bind, tick. destruct (faults w) as [|[] fs]; [|done|].
    + intros [= <- <-]. simpl. auto.
    + intros [= <- <-]. simpl. auto.
Qed.

Lemma RawMemory_ctor_Exn n (w : world T) w1 :
  RawMemory_ctor n w = Exn w1 → heap w1 = heap w ∧ objs w1 = objs w.
Proof.
  unfold RawMemory_ctor, bind, Allocate, ret.
  destruct (Nat.eqb_spec n 0) as [->|Hn]; [done|].
  unfold bind, tick. destruct (faults w) as [|[] fs]; [done| |done].
  by intros [= <-].
Qed.

Lemma dom_new_block (h h1 : gmap addr (list (option T))) b blk X :
  X ⊆ dom h1 → h1 = <[b := blk]> h → X ⊆ dom h ∪ {[b]}.
Proof.
  intros HX -> x Hx. apply HX in Hx. rewrite dom_insert_L in Hx.
  apply elem_of_union in Hx as [Hx|Hx]; apply elem_of_union; auto.
Qed.

Lemma RawMemory_dtor_new_block (h h1 : gmap addr (list (option T))) b blk n
    (w2 w3 : world T) :
  dom (heap w2) ⊆ dom h1 → h1 = <[b := blk]> h →
  RawMemory_dtor (mkRawMemory (Some b) n) w2 = Ret () w3 →
  dom (heap w3) ⊆ dom h ∧ objs w3 = objs w2.
Proof.
  intros Hd -> Hrun. unfold RawMemory_dtor, Deallocate in Hrun. simpl in Hrun.
  destruct (heap w2 !! b); [|done]. injection Hrun as <-. simpl. split; [|done].
  intros x Hx. rewrite dom_delete_L in Hx. apply elem_of_difference in Hx as [Hx Hne].
  apply Hd in Hx. rewrite dom_insert_L in Hx.
  apply elem_of_union in Hx as [Hx|Hx]; [by destruct Hne|done].
Qed.

Lemma scope_RawMemory_blocks ws {A} n (body : RawMemory → M T (A * RawMemory)) w :
  (∀ nd, stays ws (body nd)) →
  blocks_bound ws {[brk w]} ∅ (scope_RawMemory n body) w.
Proof.
  intros Hbody. unfold blocks_bound.
  destruct (scope_RawMemory n body w) as [a w'|w'|] eqn:Hrun; [| |done].
  - unfold scope_RawMemory, bind in Hrun.
    destruct (RawMemory_ctor n w) as [nd w1|w1|] eqn:Hctor; [|done|done].
    apply RawMemory_ctor_Ret in Hctor as (Ho1 & Hcase).
    destruct (body nd w1) as [[a' r] w2|w2|] eqn:Hb; [| |done].
    + destruct (stays_Ret _ _ _ _ _ (Hbody nd) Hb) as [Hd2 Hf2].
      destruct (RawMemory_dtor r w2) as [[] w3|w3|] eqn:Hdt; [|done|done].
      injection Hrun as <- <-.
      destruct (stays_Ret _ _ _ _ _ (stays_Deallocate ws (buffer_ r)) Hdt) as [Hd3 Hf3].
      split; [|intros x Hx; by rewrite Hf3, Hf2, Ho1].
      destruct Hcase as [[_ Hh]|[_ Hh]].
      * rewrite Hh in Hd2. etrans; [exact Hd3|]. etrans; [exact Hd2|].
        apply union_subseteq_l.
      * eapply dom_new_block; [|exact Hh]. by etrans.
    + destruct (RawMemory_dtor nd w2) as [[] w3|w3|]; done.
  - unfold scope_RawMemory, bind in Hrun.
    destruct (RawMemory_ctor n w) as [nd w1|w1|] eqn:Hctor; [|injection Hrun as <-|done].
    + apply RawMemory_ctor_Ret in Hctor as (Ho1 & Hcase).
      destruct (body nd w1) as [[a' r] w2|w2|] eqn:Hb; [| |done].
      * destruct (RawMemory_dtor r w2) as [[] w3|w3|] eqn:Hdt; [done| |done].
        by destruct (nothrow_Deallocate (buffer_ r) w2 w3).
      * destruct (stays_Exn _ _ _ _ (Hbody nd) Hb) as [Hd2 Hf2].
        destruct (RawMemory_dtor nd w2) as [[] w3|w3|] eqn:Hdt;
          [|by destruct (nothrow_Deallocate (buffer_ nd) w2 w3)|done].
        injection Hrun as <-. rewrite union_empty_r_L.
        destruct Hcase as [[-> Hh]|[-> Hh]].
        -- injection Hdt as <-. rewrite Hh in Hd2.
           split; [done|intros x Hx; by rewrite Hf2, Ho1].
        -- destruct (RawMemory_dtor_new_block _ _ _ _ _ _ _ Hd2 Hh Hdt) as [Hd3 Ho3].
           split; [done|intros x Hx; by rewrite Ho3, Hf2, Ho1].
    + apply RawMemory_ctor_Exn in Hctor as [Hh Ho]. rewrite Hh, Ho.
      split; [apply union_subseteq_l|done].
Qed.

Lemma guarded_ctor_blocks ws {A} n (body : RawMemory → M T unit)
    (k : RawMemory → M T A) w :
  (∀ d, stays ws (body d)) → (∀ d, stays ws (k d)) → (∀ d, nothrow (k d)) →
  blocks_bound ws {[brk w]} ∅
    (let* d := RawMemory_ctor n in
     catch_rethrow (body d) (RawMemory_dtor d) >>> k d) w.
Proof.
  intros Hbody Hk Hnt. unfold blocks_bound, bind at 1.
  destruct (RawMemory_ctor n w) as [nd w1|w1|] eqn:Hctor; [| |done].
  - apply RawMemory_ctor_Ret in Hctor as (Ho1 & Hcase).
    unfold bind, catch_rethrow, bind, throw.
    destruct (body nd w1) as [[] w2|w2|] eqn:Hb; [| |done].
    + destruct (stays_Ret _ _ _ _ _ (Hbody nd) Hb) as [Hd2 Hf2].
      destruct (k nd w2) as [a w3|w3|] eqn:Hkr; [|by destruct (Hnt nd w2 w3)|done].
      destruct (stays_Ret _ _ _ _ _ (Hk nd) Hkr) as [Hd3 Hf3].
      split; [|intros x Hx; by rewrite Hf3, Hf2, Ho1].
      destruct Hcase as [[_ Hh]|[_ Hh]].
      * rewrite Hh in Hd2. etrans; [exact Hd3|]. etrans; [exact Hd2|].
        apply union_subseteq_l.
      * eapply dom_new_block; [|exact Hh]. by etrans.
    + destruct (stays_Exn _ _ _ _ (Hbody nd) Hb) as [Hd2 Hf2].
      destruct (RawMemory_dtor nd w2) as [[] w3|w3|] eqn:Hdt;
        [|by destruct (nothrow_Deallocate (buffer_ nd) w2 w3)|done].
      rewrite union_empty_r_L.
      destruct Hcase as [[-> Hh]|[-> Hh]].
      * injection Hdt as <-. rewrite Hh in Hd2.
        split; [done|intros x Hx; by rewrite Hf2, Ho1].
      * destruct (RawMemory_dtor_new_block _ _ _ _ _ _ _ Hd2 Hh Hdt) as [Hd3 Ho3].
        split; [done|intros x Hx; by rewrite Ho3, Hf2, Ho1].
  - apply RawMemory_ctor_Exn in Hctor as [Hh Ho]. rewrite Hh, Ho.
    split; [apply union_subseteq_l|done].
Qed.

Lemma blocks_bound_getv ws R E this {A} (k : Vector → M T A) w :
  (∀ v, objs w !! this = Some v → blocks_bound ws R E (k v) w) →
  blocks_bound ws R E (bind (getv this) k) w.
Proof.
  intros Hk. unfold blocks_bound, bind, getv.
  destruct (objs w !! this) as [v|] eqn:Ho; [|done]. by apply Hk.
Qed.

Lemma blocks_bound_then ws R E {A B} (m : M T A) (k : A → M T B) w :
  blocks_bound ws R E m w → (∀ a, stays ws (k a)) → (∀ a, nothrow (k a)) →
  blocks_bound ws R E (bind m k) w.
Proof.
  intros Hm Hk Hnt. unfold blocks_bound, bind in *.
  destruct (m w) as [a w1|w1|]; [|done|done]. destruct Hm as [Hd1 Hf1].
  destruct (k a w1) as [c w2|w2|] eqn:Hkr; [|by destruct (Hnt a w1 w2)|done].
  destruct (stays_Ret _ _ _ _ _ (Hk a) Hkr) as [Hd2 Hf2].
  split; [by etrans|intros x Hx; by rewrite Hf2, Hf1].
Qed.

Lemma blocks_bound_then_any ws R {A B} (m : M T A) (k : A → M T B) w :
  blocks_bound ws R R m w → (∀ a, stays ws (k a)) →
  blocks_bound ws R R (bind m k) w.
Proof.
  intros Hm Hk. unfold blocks_bound, bind in *.
  destruct (m w) as [a w1|w1|]; [|done|done]. destruct Hm as [Hd1 Hf1].
  destruct (k a w1) as [c w2|w2|] eqn:Hkr; [| |done].
  - destruct (stays_Ret _ _ _ _ _ (Hk a) Hkr) as [Hd2 Hf2].
    split; [by etrans|intros x Hx; by rewrite Hf2, Hf1].
  - destruct (stays_Exn _ _ _ _ (Hk a) Hkr) as [Hd2 Hf2].
    split; [by etrans|intros x Hx; by rewrite Hf2, Hf1].
Qed.

Lemma in_self (this : var) : this ∈ ({[ this ]} : gset var).
Proof. by apply elem_of_singleton. Qed.

Lemma nothrow_resize_tail this k : nothrow (let* v := getv (T:=T) this in set_size this (k v)).
Proof.
  apply nothrow_bind; [apply nothrow_getv|]. intros v. apply nothrow_set_size.
Qed.

Lemma stays_EmplaceInPosition ws this pos i :
  this ∈ ws → stays ws (EmplaceInPosition this pos i).
Proof.
  intros Hin. unfold EmplaceInPosition.
  apply stays_bind; [apply stays_getv|]. intros v.
  apply stays_bind.
  - destruct (pos =? size_ v); [apply stays_construct_at|].
    apply stays_bind; [apply stays_run_ctor|]. intros tmp_value.
    destruct (size_ v); [apply stays_undef|].
    apply stays_bind; [|intros _; apply stays_log].
    apply stays_catch; [|apply stays_log].
    apply stays_bind; [apply stays_move_construct|]. intros _.
    apply stays_bind.
    { destruct (_ <? pos); [apply stays_undef|apply stays_move_backward]. }
    intros _. apply stays_bind; [apply stays_may_throw|]. intros _.
    apply stays_assign_at.
  - intros _. apply stays_bind; [apply stays_getv|]. intros v'.
    apply stays_bind; [by apply stays_set_size|]. intros _. apply stays_ret.
Qed.

Lemma EmplaceWithAllocation_blocks ws this pos i w :
  this ∈ ws → blocks_bound ws {[brk w]} ∅ (EmplaceWithAllocation this pos i) w.
Proof.
  intros Hin. unfold EmplaceWithAllocation. apply blocks_bound_getv. intros v _.
  apply scope_RawMemory_blocks. intros nd.
  apply stays_bind; [apply stays_construct_at|]. intros _.
  apply stays_bind; [apply stays_catch; [apply stays_MoveData|apply stays_destroy_at]|].
  intros _.
  apply stays_bind; [apply stays_catch; [apply stays_MoveData|apply stays_destroy_n]|].
  intros _.
  apply stays_bind; [by apply stays_DestroyAndSwap|]. intros r.
  apply stays_bind; [apply stays_getv|]. intros v'.
  apply stays_bind; [by apply stays_set_size|]. intros _. apply stays_ret.
Qed.

Lemma Emplace_blocks ws this pos i w v :
  this ∈ ws → objs w !! this = Some v →
  blocks_bound ws (if size_ v =? capacity_ (data_ v) then {[brk w]} else ∅) ∅
    (Emplace this pos i) w.
Proof.
  intros Hin Hv. unfold Emplace. apply blocks_bound_getv. intros v' Hv'.
  rewrite Hv in Hv'. injection Hv' as <-.
  destruct (size_ v =? capacity_ (data_ v)).
  - by apply EmplaceWithAllocation_blocks.
  - by apply stays_blocks_bound, stays_EmplaceInPosition.
Qed.

Lemma PushBack_with_blocks ws this i w v :
  this ∈ ws → objs w !! this = Some v →
  blocks_bound ws (if size_ v =? capacity_ (data_ v) then {[brk w]} else ∅) ∅
    (PushBack_with this i) w.
Proof.
  intros Hin Hv. unfold PushBack_with. apply blocks_bound_getv. intros v' Hv'.
  rewrite Hv in Hv'. injection Hv' as <-.
  apply blocks_bound_then.
  - destruct (size_ v =? capacity_ (data_ v)).
    + apply scope_RawMemory_blocks. intros nd.
      apply stays_bind; [apply stays_construct_at|]. intros _.
      apply stays_bind; [by apply stays_MoveDataTo|]. intros r. apply stays_ret.
    + apply stays_blocks_bound, stays_construct_at.
  - intros _. apply stays_bind; [apply stays_getv|]. intros v'.
    by apply stays_set_size.
  - intros _. apply (nothrow_resize_tail this (λ v, size_ v + 1)).
Qed.

Lemma Reserve_blocks ws this n w v :
  this ∈ ws → objs w !! this = Some v →
  blocks_bound ws (if capacity_ (data_ v) <? n then {[brk w]} else ∅) ∅
    (Reserve this n) w.
Proof.
  intros Hin Hv. unfold Reserve. apply blocks_bound_getv. intros v' Hv'.
  rewrite Hv in Hv'. injection Hv' as <-.
  destruct (Nat.leb_spec n (capacity_ (data_ v))) as [Hfit|Hgrow].
  - apply stays_blocks_bound, stays_ret.
  - destruct (Nat.ltb_spec (capacity_ (data_ v)) n) as [_|?]; [|lia].
    apply scope_RawMemory_blocks. intros nd.
    apply stays_bind; [by apply stays_MoveDataTo|]. intros r. apply stays_ret.
Qed.

Lemma Resize_blocks ws this n w v :
  this ∈ ws → objs w !! this = Some v →
  blocks_bound ws (if capacity_ (data_ v) <? n then {[brk w]} else ∅)
                  (if capacity_ (data_ v) <? n then {[brk w]} else ∅)
    (Resize this n) w.
Proof.
  intros Hin Hv. unfold Resize. apply blocks_bound_getv. intros v' Hv'.
  rewrite Hv in Hv'. injection Hv' as <-.
  destruct (n =? size_ v); [apply stays_blocks_bound, stays_ret|].
  destruct (n <? size_ v).
  - apply stays_blocks_bound.
    apply stays_bind; [apply stays_destroy_n|]. intros _. by apply stays_set_size.
  - apply blocks_bound_then_any.
    + eapply blocks_bound_mono; [by apply Reserve_blocks|done|apply empty_subseteq].
    + intros _. apply stays_bind; [apply stays_getv|]. intros v'.
      apply stays_bind; [apply stays_uninitialized_fill_with|]. intros _.
      by apply stays_set_size.
Qed.

Lemma stays_PopBack ws this : this ∈ ws → stays ws (PopBack (T:=T) this).
Proof.
  intros Hin. unfold PopBack. apply stays_bind; [apply stays_getv|]. intros v.
  destruct (size_ v); [apply stays_undef|].
  apply stays_bind; [by apply stays_set_size|]. intros _. apply stays_destroy_at.
Qed.

Lemma stays_Erase ws this pos : this ∈ ws → stays ws (Erase this pos).
Proof.
  intros Hin. unfold Erase. apply stays_bind; [apply stays_getv|]. intros v.
  apply stays_bind; [apply stays_destroy_at|]. intros _.
  apply stays_bind.
  { destruct (size_ v <? pos + 1); [apply stays_undef|apply stays_move_range]. }
  intros _. destruct (size_ v); [apply stays_undef|].
  apply stays_bind; [by apply stays_set_size|]. intros _. apply stays_ret.
Qed.

Lemma stays_Vector_dtor ws this : this ∈ ws → stays ws (Vector_dtor (T:=T) this).
Proof.
  intros Hin. unfold Vector_dtor. apply stays_bind; [apply stays_getv|]. intros v.
  apply stays_bind; [apply stays_destroy_n|]. intros _.
  apply stays_bind; [apply stays_Deallocate|]. intros _.
  intros w. unfold blocks_bound. simpl. split; [apply union_subseteq_l|].
  intros x Hx. rewrite lookup_delete_ne; [done|]. by intros <-.
Qed.

Lemma stays_Swap ws this other :
  this ∈ ws → other ∈ ws → stays ws (Swap (T:=T) this other).
Proof.
  intros Hin1 Hin2. unfold Swap. apply stays_bind; [apply stays_getv|]. intros t.
  apply stays_bind; [apply stays_getv|]. intros o. simpl.
  apply stays_bind; [by apply stays_putv|]. intros _. by apply stays_putv.
Qed.

Lemma Vector_sized_blocks ws this n w :
  this ∈ ws → blocks_bound ws {[brk w]} ∅ (Vector_sized this n) w.
Proof.
  intros Hin. unfold Vector_sized.
  apply (guarded_ctor_blocks ws n
           (λ d, uninitialized_value_construct_n (GetAddress d) n)
           (λ d, putv this (mkVector d n))).
  - intros d. apply stays_uninitialized_fill_with.
  - intros d. by apply stays_putv.
  - intros d. apply nothrow_putv.
Qed.

Lemma Vector_copy_blocks ws this other w :
  this ∈ ws → blocks_bound ws {[brk w]} ∅ (Vector_copy this other) w.
Proof.
  intros Hin. unfold Vector_copy. apply blocks_bound_getv. intros o _.
  apply (guarded_ctor_blocks ws (size_ o)
           (λ d, uninitialized_copy_n (GetAddress (data_ o)) (size_ o) (GetAddress d))
           (λ d, putv this (mkVector d (size_ o)))).
  - intros d. apply stays_uninitialized_copy_n.
  - intros d. by apply stays_putv.
  - intros d. apply nothrow_putv.
Qed.

Lemma copy_assignment_blocks ws this rhs tmp w :
  this ∈ ws → tmp ∈ ws →
  blocks_bound ws {[brk w]} ∅ (copy_assignment this rhs tmp) w.
Proof.
  intros Hin1 Hin2. unfold copy_assignment.
  destruct (decide (this = rhs)); [apply stays_blocks_bound, stays_ret|].
  apply blocks_bound_getv. intros t _. apply blocks_bound_getv. intros r _.
  destruct (capacity_ (data_ t) <? size_ r).
  - apply blocks_bound_then; [by apply Vector_copy_blocks|..].
    + intros _. apply stays_bind; [by apply stays_Swap|]. intros _.
      by apply stays_Vector_dtor.
    + intros _. apply nothrow_bind; [apply nothrow_Swap|]. intros _.
      apply nothrow_Vector_dtor.
  - apply stays_blocks_bound. destruct (size_ r <=? size_ t).
    + apply stays_bind; [apply stays_copy_n|]. intros _.
      apply stays_bind; [apply stays_destroy_n|]. intros _. by apply stays_set_size.
    + apply stays_bind; [apply stays_copy_n|]. intros _.
      apply stays_bind; [apply stays_uninitialized_copy_n|]. intros _.
      by apply stays_set_size.
Qed.

(** X18.  When a call throws, no block it allocated is left in the heap: every
    block there after the exception was there before the call, whatever
    the world, the element type and the operation that failed.  This holds
    for [Reserve], [PushBack], [Emplace], the sized and the copy
    constructor, copy assignment and [Erase]. *)
Theorem failed_call_retains_no_block this other tmp (w w' : world T) :
  (∃ n, Reserve this n w = Exn w') ∨
  (∃ i, PushBack_with this i w = Exn w') ∨
  (∃ pos i, Emplace this pos i w = Exn w') ∨
  (∃ n, Vector_sized this n w = Exn w') ∨
  Vector_copy this other w = Exn w' ∨
  copy_assignment this other tmp w = Exn w' ∨
  (∃ pos, Erase this pos w = Exn w') →
  dom (heap w') ⊆ dom (heap w).
Proof.
  assert (∀ R {A} (m : M T A), blocks_bound {[this; tmp]} R ∅ m w →
            m w = Exn w' → dom (heap w') ⊆ dom (heap w)) as Hexn.
  { intros R A m Hb Hrun. unfold blocks_bound in Hb.
    rewrite Hrun, union_empty_r_L in Hb. by destruct Hb. }
  assert (this ∈ ({[this; tmp]} : gset var)) as Hin1
    by (apply elem_of_union_l; by apply elem_of_singleton).
  assert (tmp ∈ ({[this; tmp]} : gset var)) as Hin2
    by (apply elem_of_union_r; by apply elem_of_singleton).
  assert (∀ {A} (m : M T A) (k : Vector → M T A),
            m = bind (getv this) k → m w = Exn w' → ∃ v, objs w !! this = Some v) as Hobj.
  { intros A m k -> Hrun. unfold bind, getv in Hrun.
    destruct (objs w !! this); [eauto|done]. }
  intros [(n & Hrun)|[(i & Hrun)|[(pos & i & Hrun)|[(n & Hrun)|[Hrun|[Hrun|(pos & Hrun)]]]]]].
  - destruct (Hobj _ _ _ eq_refl Hrun) as [v Hv].
    eapply Hexn; [|exact Hrun]. by apply (Reserve_blocks _ this n w v).
  - destruct (Hobj _ _ _ eq_refl Hrun) as [v Hv].
    eapply Hexn; [|exact Hrun]. by apply (PushBack_with_blocks _ this i w v).
  - destruct (Hobj _ _ _ eq_refl Hrun) as [v Hv].
    eapply Hexn; [|exact Hrun]. by apply (Emplace_blocks _ this pos i w v).
  - eapply Hexn; [|exact Hrun]. by apply Vector_sized_blocks.
  - eapply Hexn; [|exact Hrun]. by apply Vector_copy_blocks.
  - eapply Hexn; [|exact Hrun]. by apply copy_assignment_blocks.
  - eapply (Hexn ∅); [|exact Hrun]. by apply stays_Erase.
Qed.

(** *** The block a vector owns *)

Lemma Emplace_buffer this pos i buf xs cap w :
  vec_at w this buf xs cap → heap_ok w → pos ≤ length xs →
  wp (Emplace this pos i) w
     (λ r w',
        r = pos ∧
        vec_at w' this (if length xs =? cap then Some (brk w) else buf)
               (inserted pos (init_value i) xs)
               (if length xs =? cap then grown cap else cap) ∧
        (length xs = cap → ∀ a, buf = Some a → heap w' !! a = None) ∧
        heap_ok w' ∧ lost w' = lost w ∧ (faults w = [] → faults w' = []))
     (λ _, faults w ≠ []).
Proof.
  intros Hvec Hok Hpos. unfold Emplace. apply wp_bind.
  pose proof Hvec as (Ho & Hle & Hbuf).
  destruct w as [h b o fs l tr]. simpl in *.
  eapply wp_getv; [done|]. simpl.
  destruct (Nat.eqb_spec (length xs) cap) as [<-|Hne].
  - eapply wp_mono; [by apply (wp_EmplaceWithAllocation this pos i buf xs)|..].
    + simpl. intros r w' (-> & Hv & _ & Hgone & Hok' & Hl & Hf). eauto 10.
    + simpl. by intros w' (Hf & _).
  - destruct buf as [a|]; [|lia].
    destruct (decide (pos = length xs)) as [->|Hmid].
    + eapply wp_mono; [apply (wp_EmplaceInPosition_end this i a xs cap);
                       [done|lia|done]|..].
      * simpl. intros r w' (-> & Hv & Hok' & Hl & Hf).
        rewrite inserted_end. split; [done|]. split; [done|]. split; [lia|done].
      * simpl. by intros w' (Hf & _).
    + destruct (snoc_exists (drop pos xs)) as (ys & z & Hdrop).
      { intros Hnil. apply (f_equal length) in Hnil.
        rewrite length_drop in Hnil. simpl in Hnil. lia. }
      assert (xs = take pos xs ++ ys ++ [z]) as Hxs
        by (by rewrite <-Hdrop, take_drop).
      assert (length (take pos xs) = pos) as Hlp by (rewrite length_take; lia).
      rewrite <-Hlp at 1.
      eapply wp_mono; [apply (wp_EmplaceInPosition_mid this i a (take pos xs) ys z cap);
                       [by rewrite <-Hxs|rewrite <-Hxs; lia|done]|..].
      * simpl. intros r w' (-> & Hv & Hok' & Hl & Hf).
        split; [done|]. split; [|split; [lia|done]].
        unfold inserted. by rewrite Hdrop.
      * simpl. by intros w' (Hf & _).
Qed.

Lemma Resize_grow_buffer this n buf xs cap w :
  vec_at w this buf xs cap → heap_ok w → length xs < n →
  wp (Resize this n) w
     (λ _ w',
        vec_at w' this (if cap <? n then Some (brk w) else buf)
               (xs ++ replicate (n - length xs) default_init)
               (if n <=? cap then cap else n) ∧
        (cap < n → ∀ a, buf = Some a → heap w' !! a = None) ∧
        heap_ok w' ∧ lost w' = lost w ∧ (faults w = [] → faults w' = []))
     (λ w', faults w ≠ []).
Proof.
  intros Hvec Hok Hn. unfold Resize. apply wp_bind.
  pose proof Hvec as (Ho & Hle & Hbuf).
  destruct w as [h b o fs l tr]. simpl in *.
  eapply wp_getv; [done|]. simpl.
  destruct (Nat.eqb_spec n (length xs)) as [?|_]; [lia|].
  destruct (Nat.ltb_spec n (length xs)) as [?|_]; [lia|].
  apply wp_bind.
  assert (∀ bf cp h1 b1 o1 fs1 l1 tr1 (P : gmap addr (list (option T)) → Prop),
    vec_at (World h1 b1 o1 fs1 l1 tr1) this (Some bf) xs cp →
    heap_ok (World h1 b1 o1 fs1 l1 tr1) → n ≤ cp → l1 = l → (fs = [] → fs1 = []) →
    (∀ blk, P (<[bf := blk]> h1)) →
    wp (let* v := getv this in
        uninitialized_default_construct_n
          (ptr_add (GetAddress (data_ v)) (size_ v)) (n - size_ v) >>>
        set_size this n)
       (World h1 b1 o1 fs1 l1 tr1)
       (λ _ w',
          vec_at w' this (Some bf) (xs ++ replicate (n - length xs) default_init) cp ∧
          P (heap w') ∧
          heap_ok w' ∧ lost w' = l ∧ (fs = [] → faults w' = []))
       (λ w', fs ≠ [])) as Hfill.
  { intros bf cp h1 b1 o1 fs1 l1 tr1 P (Ho1 & Hle1 & Hbuf1) Hok1 Hcp -> Hfs1 HP.
    simpl in *. apply wp_bind. eapply wp_getv; [done|]. simpl.
    unfold GetAddress, ptr_add; simpl. apply wp_bind.
    unfold uninitialized_default_construct_n. unfold block_of in Hbuf1.
    eapply (wp_uninitialized_fill_with _ bf _ (Some <$> xs) (replicate (cp - n) None)).
    { rewrite Hbuf1. rewrite <-replicate_add. do 3 f_equal. lia. }
    { by rewrite length_fmap. }
    2:{ intros fs' tr' Hfs'. simpl. intros ->. by apply Hfs', Hfs1. }
    intros fs2 Hfs2. eapply wp_set_size; [done|]. simpl.
    split; [|split; [|split; [|split]]].
    - unfold vec_at; simpl.
      rewrite lookup_insert_eq, length_app, length_replicate.
      split; [do 3 f_equal; lia|]. split; [lia|]. heap_lookup.
      f_equal. unfold block_of.
      rewrite fmap_app, fmap_replicate, <-app_assoc, length_app, length_replicate.
      do 3 f_equal. lia.
    - apply HP.
    - by eapply heap_ok_insert.
    - done.
    - auto. }
  destruct (Nat.leb_spec n cap) as [Hfit|Hgrow].
  - unfold wp at 1.
    rewrite (Reserve_enough this _ n (World h b o fs l tr) Ho) by done.
    destruct buf as [a|]; [|lia].
    destruct (Nat.ltb_spec cap n) as [?|_]; [lia|].
    eapply wp_mono; [apply (Hfill a cap _ _ _ _ _ _ (λ _, True)); done|..]; simpl.
    + intros _ w' (Hv & _ & Hok' & Hl & Hf). split; [done|]. split; [lia|done].
    + done.
  - destruct (Nat.ltb_spec cap n) as [_|?]; [|lia].
    eapply wp_mono; [by apply (wp_Reserve this n buf xs cap)|..]; simpl.
    + intros _ [h1 b1 o1 fs1 l1 tr1] (Hv1 & _ & Hgone & Hok1 & Hl1 & Hf1). simpl in *.
      eapply wp_mono;
        [apply (Hfill b n _ _ _ _ _ _
                  (λ h', ∀ a, buf = Some a → h' !! a = None)); try done|..]; simpl.
      * intros blk a Ha. rewrite lookup_insert_ne; [by apply Hgone|].
        intros <-. subst buf. rewrite Hok in Hbuf by (simpl; lia). done.
      * intros _ w' (Hv & Hg & Hok' & Hl & Hf). done.
      * done.
    + by intros w' (Hf & _).
Qed.

Lemma run_op_buffer this o buf xs cap xs' (w : world T) :
  vec_at w this buf xs cap → heap_ok w → faults w = [] →
  list_op o xs = Some xs' →
  ∃ w', run_op this o w = Ret () w' ∧
        vec_at w' this (if grows_op o (length xs) cap then Some (brk w) else buf)
               xs' (capacity_op o (length xs) cap) ∧
        (grows_op o (length xs) cap = true → ∀ a, buf = Some a → heap w' !! a = None) ∧
        heap_ok w' ∧ lost w' = lost w ∧ faults w' = [].
Proof.
  intros Hvec Hok Hfs Hop. destruct o as [i|x|pos i| |n|n]; simpl in *.
  - injection Hop as <-.
    destruct (wp_total _ _ _ _ (PushBack_with_spec this i buf xs cap w Hvec Hok))
      as ([] & w' & Hrun & Hpost & Hok' & Hl & Hfs').
    { by intros w' (Hf & _). }
    exists w'. split; [done|].
    destruct (length xs =? cap).
    + destruct Hpost as (Hv & _ & Hgone). auto 10.
    + destruct Hpost as (Hv & _). split; [done|]. split; [done|]. auto.
  - injection Hop as <-.
    destruct (wp_total _ _ _ _ (Emplace_buffer this (length xs) (FromArgs x) buf xs cap w
                                  Hvec Hok (le_n _)))
      as (r & w' & Hrun & -> & Hv & Hgone & Hok' & Hl & Hfs'); [done|].
    exists w'. rewrite inserted_end in Hv. split.
    { pose proof Hvec as (Ho & _).
      unfold bind, EmplaceBack, bind, getv. rewrite Ho. simpl.
      unfold bind in Hrun. by rewrite Hrun. }
    split; [done|]. split; [|auto].
    intros Hfull%Nat.eqb_eq. by apply Hgone.
  - destruct (Nat.leb_spec pos (length xs)) as [Hpos|]; [|done].
    injection Hop as <-.
    destruct (wp_total _ _ _ _ (Emplace_buffer this pos i buf xs cap w Hvec Hok Hpos))
      as (r & w' & Hrun & -> & Hv & Hgone & Hok' & Hl & Hfs'); [done|].
    exists w'. split; [unfold bind; by rewrite Hrun|].
    split; [done|]. split; [|auto].
    intros Hfull%Nat.eqb_eq. by apply Hgone.
  - destruct (Nat.eqb_spec (length xs) 0) as [|Hne]; [done|].
    injection Hop as <-.
    destruct (snoc_exists xs) as (ys & z & ->); [by destruct xs|].
    rewrite removelast_last.
    assert (∃ a, buf = Some a) as [a ->].
    { destruct Hvec as (_ & Hle & Hb). destruct buf; [eauto|].
      rewrite length_app in Hle. simpl in *. lia. }
    destruct w as [h b o fs l tr]. simpl in *.
    rewrite (PopBack_eq this a ys z cap h b o fs l tr Hvec).
    destruct Hvec as (Ho & Hle & Hbuf). simpl in *.
    rewrite length_app, Nat.add_1_r in Hle.
    eexists. split; [done|]. split; [|split; [done|split; [|done]]].
    + unfold vec_at; simpl. rewrite !lookup_insert_eq.
      split; [done|]. split; [lia|]. f_equal. unfold block_of. f_equal.
      replace (cap - length ys) with (S (cap - S (length ys))) by lia. done.
    + by eapply heap_ok_insert.
  - destruct (request_fitsb n); [|done]. injection Hop as <-.
    destruct (Nat.leb_spec n cap) as [Hfit|Hgrow].
    + destruct (Nat.ltb_spec cap n) as [?|_]; [lia|].
      exists w. split; [|done].
      destruct Hvec as (Ho & _). by apply (Reserve_enough this _ n w Ho).
    + destruct (Nat.ltb_spec cap n) as [_|?]; [|lia].
      destruct (wp_total _ _ _ _ (wp_Reserve this n buf xs cap w Hvec Hok Hgrow))
        as ([] & w' & Hrun & Hv & _ & Hgone & Hok' & Hl & Hfs').
      { by intros w' (Hf & _). }
      exists w'. auto 10.
  - destruct (request_fitsb n); [|done].
    injection Hop as <-. pose proof Hvec as (Ho & Hle & Hbuf).
    destruct (Nat.lt_trichotomy n (length xs)) as [Hlt|[->|Hgt]].
    + destruct (wp_total _ _ _ (λ _, False)
                  (wp_Resize_shrink this n buf xs cap w _ Hvec Hlt))
        as ([] & w' & Hrun & Hv & _ & Hfr & Hb & Hl & Hf); [done|].
      exists w'. split; [done|].
      replace (n - length xs) with 0 by lia. simpl. rewrite app_nil_r.
      destruct (Nat.leb_spec n cap) as [_|?]; [|lia].
      destruct (Nat.ltb_spec cap n) as [?|_]; [lia|].
      split; [done|]. split; [done|]. split; [|split; [done|by rewrite Hf]].
      intros a Ha. rewrite Hb in Ha.
      rewrite Hfr; [by apply Hok|].
      intros ->. rewrite Hok in Hbuf by done. done.
    + exists w. rewrite Nat.sub_diag, firstn_all. simpl. rewrite app_nil_r.
      destruct (Nat.leb_spec (length xs) cap) as [_|?]; [|lia].
      destruct (Nat.ltb_spec cap (length xs)) as [?|_]; [lia|].
      split; [|done]. by apply (Resize_same this _ w Ho).
    + destruct (wp_total _ _ _ _ (Resize_grow_buffer this n buf xs cap w Hvec Hok Hgt))
        as ([] & w' & Hrun & Hv & Hgone & Hok' & Hl & Hfs'); [done|].
      exists w'. rewrite take_ge by lia. split; [done|]. split; [done|].
      split; [|auto]. intros Hg%Nat.ltb_lt. by apply Hgone.
Qed.

(** *** Sequences of calls *)

Lemma capacity_op_mono (o : op T) size cap : cap ≤ capacity_op o size cap.
Proof.
  pose proof (grown_gt cap).
  destruct o; simpl; try lia; try (destruct (size =? cap); lia);
    destruct (Nat.leb_spec n cap); lia.
Qed.

Lemma list_ops_capacity_mono ops : ∀ (xs : list T) cap xs' cap',
  list_ops ops xs cap = Some (xs', cap') → cap ≤ cap'.
Proof.
  induction ops as [|o ops IH]; intros xs cap xs' cap' Hrun; simpl in Hrun.
  - by injection Hrun as _ <-.
  - destruct (list_op o xs) as [ys|]; [|done]. simpl in Hrun.
    apply IH in Hrun. pose proof (capacity_op_mono o (length xs) cap). lia.
Qed.

(** X19.  The vector behaves as a sequence of values with a capacity.  From
    every state in which the vector holds [xs] in a block of [cap] slots,
    every sequence of [PushBack], [EmplaceBack], [Emplace], [Insert],
    [PopBack], [Reserve] and [Resize] calls that stays within the
    preconditions (positions up to the size, no [PopBack] on an empty
    vector, counts whose byte count fits [size_t]) returns when no
    operation fails, and afterwards [Size],
    [Capacity] and [operator[]] give what the same calls give on a plain
    list; the spare slots hold no object, the size is at most the
    capacity, the capacity has not shrunk, and no object was lost. *)
Theorem calls_refine_list this ops : ∀ buf xs cap xs' cap' (w : world T),
  vec_at w this buf xs cap → heap_ok w → faults w = [] →
  list_ops ops xs cap = Some (xs', cap') →
  ∃ w', run_ops this ops w = Ret () w' ∧
        Size this w' = Ret (length xs') w' ∧
        Capacity this w' = Ret cap' w' ∧
        (∀ i, deref (Index this i) w' =
                match xs' !! i with Some x => Ret x w' | None => Undef end) ∧
        elems w' this = Some xs' ∧
        spare_slots w' this = Some (replicate (cap' - length xs') None) ∧
        length xs' ≤ cap' ∧ cap ≤ cap' ∧
        lost w' = lost w ∧ heap_ok w'.
Proof.
  induction ops as [|o ops IH]; intros buf xs cap xs' cap' w Hvec Hok Hfs Hrun.
  - simpl in Hrun. injection Hrun as <- <-. exists w.
    pose proof Hvec as (Ho & Hle & _).
    split; [done|]. split; [|split; [|split; [|split; [|split]]]].
    + unfold Size, bind, getv. by rewrite Ho.
    + unfold Capacity, bind, getv. by rewrite Ho.
    + intros i. by apply (Index_vec_at this buf xs cap w i).
    + by eapply elems_vec_at.
    + by eapply spare_slots_vec_at.
    + done.
  - pose proof (list_ops_capacity_mono _ _ _ _ _ Hrun) as Hmono. simpl in Hrun, Hmono.
    destruct (list_op o xs) as [ys|] eqn:Hop; [|done]. simpl in Hrun.
    destruct (run_op_buffer this o buf xs cap ys w Hvec Hok Hfs Hop)
      as (w1 & Hrun1 & Hv1 & _ & Hok1 & Hl1 & Hfs1).
    destruct (IH _ ys _ xs' cap' w1 Hv1 Hok1 Hfs1 Hrun)
      as (w' & Hrun' & Hsz & Hcap & Hidx & Hel & Hsp & Hle & _ & Hl & Hok').
    exists w'. split; [simpl; unfold bind; by rewrite Hrun1|].
    split; [done|]. split; [done|]. split; [done|]. split; [done|].
    split; [done|]. split; [done|]. split; [done|]. split; [by rewrite Hl|done].
Qed.

Lemma run_op_blocks this o w v :
  objs w !! this = Some v →
  blocks_bound {[this]}
    (if grows_op o (size_ v) (capacity_ (data_ v)) then {[brk w]} else ∅)
    (if grows_op o (size_ v) (capacity_ (data_ v)) then {[brk w]} else ∅)
    (run_op this o) w.
Proof.
  intros Hv. pose proof (in_self this) as Hin.
  destruct o as [i|x|pos i| |n|n]; simpl.
  - eapply blocks_bound_mono; [by apply PushBack_with_blocks|done|apply empty_subseteq].
  - eapply blocks_bound_mono; [|done|apply empty_subseteq].
    apply blocks_bound_then; [|intros _; apply stays_ret|intros _; apply nothrow_ret].
    unfold EmplaceBack. apply blocks_bound_getv. intros v' Hv'.
    rewrite Hv in Hv'. injection Hv' as <-. by apply Emplace_blocks.
  - eapply blocks_bound_mono; [|done|apply empty_subseteq].
    apply blocks_bound_then; [|intros _; apply stays_ret|intros _; apply nothrow_ret].
    by apply Emplace_blocks.
  - by apply stays_blocks_bound, stays_PopBack.
  - eapply blocks_bound_mono; [by apply Reserve_blocks|done|apply empty_subseteq].
  - by apply Resize_blocks.
Qed.

Lemma run_ops_owns this ops : ∀ buf xs cap xs' cap' (w : world T)
    (D : gset addr) (O : gmap var Vector),
  vec_at w this buf xs cap → heap_ok w → faults w = [] →
  list_ops ops xs cap = Some (xs', cap') →
  dom (heap w) ⊆ D ∪ block_set buf →
  (∀ x, x ≠ this → objs w !! x = O !! x) →
  ∃ w' buf', run_ops this ops w = Ret () w' ∧
             vec_at w' this buf' xs' cap' ∧
             dom (heap w') ⊆ D ∪ block_set buf' ∧
             (∀ x, x ≠ this → objs w' !! x = O !! x) ∧
             lost w' = lost w.
Proof.
  induction ops as [|o ops IH]; intros buf xs cap xs' cap' w D O Hvec Hok Hfs Hrun Hd Hf.
  - simpl in Hrun. injection Hrun as <- <-. by exists w, buf.
  - simpl in Hrun. destruct (list_op o xs) as [ys|] eqn:Hop; [|done]. simpl in Hrun.
    destruct (run_op_buffer this o buf xs cap ys w Hvec Hok Hfs Hop)
      as (w1 & Hrun1 & Hv1 & Hgone & Hok1 & Hl1 & Hfs1).
    pose proof Hvec as (Ho & _).
    pose proof (run_op_blocks this o w _ Ho) as Hb. unfold blocks_bound in Hb.
    rewrite Hrun1 in Hb. simpl in Hb. destruct Hb as [Hd1 Hf1].
    destruct (IH _ ys _ xs' cap' w1 D O Hv1 Hok1 Hfs1 Hrun) as (w' & buf' & Hrun' & Hv' & Hd' & Hf' & Hl').
    + intros x Hx. pose proof (Hd1 x Hx) as Hx1.
      destruct (grows_op o (length xs) cap) eqn:Hg.
      * apply elem_of_union in Hx1 as [Hx1|Hx1]; [|by apply elem_of_union_r].
        apply Hd in Hx1. apply elem_of_union in Hx1 as [Hx1|Hx1];
          [by apply elem_of_union_l|].
        destruct buf as [a|]; simpl in Hx1; [|by apply elem_of_empty in Hx1].
        apply elem_of_singleton in Hx1 as ->.
        apply elem_of_dom in Hx as [blk Hblk].
        rewrite (Hgone eq_refl a eq_refl) in Hblk. done.
      * apply elem_of_union in Hx1 as [Hx1|Hx1]; [by apply Hd|].
        by apply elem_of_empty in Hx1.
    + intros x Hx. rewrite Hf1; [by apply Hf|]. by intros ->%elem_of_singleton.
    + exists w', buf'. split; [simpl; unfold bind; by rewrite Hrun1|].
      split; [done|]. split; [done|]. split; [done|]. by rewrite Hl'.
Qed.

(** X20.  A vector that is default-constructed, used through any sequence of
    [PushBack], [EmplaceBack], [Emplace], [Insert], [PopBack], [Reserve]
    and [Resize] calls within their preconditions (positions up to the
    size, no [PopBack] on an empty vector, counts whose byte count fits
    [size_t]), and destroyed, leaves nothing behind when no operation
    fails: the calls return, no block
    allocated on the way is left in the heap, the objects are those there
    were before, and no element was lost. *)
Theorem lifetime_leaves_no_block this ops xs' cap' (w : world T) :
  objs w !! this = None → heap_ok w → faults w = [] →
  list_ops ops [] 0 = Some (xs', cap') →
  ∃ w', (Vector_default this >>> run_ops this ops >>> Vector_dtor this) w = Ret () w' ∧
        dom (heap w') ⊆ dom (heap w) ∧ objs w' = objs w ∧ lost w' = lost w.
Proof.
  intros Hnew Hok Hfs Hrun. destruct w as [h b o fs l tr]. simpl in *.
  destruct (run_ops_owns this ops None [] 0 xs' cap'
              (World h b (<[this := mkVector (mkRawMemory None 0) 0]> o) fs l tr)
              (dom h) o)
    as (w1 & buf1 & Hrun1 & Hv1 & Hd1 & Hf1 & Hl1); try done.
  { unfold vec_at; simpl. by rewrite lookup_insert_eq. }
  { simpl. apply union_subseteq_l. }
  { intros x Hx. simpl. by rewrite lookup_insert_ne. }
  destruct (wp_total _ _ _ (λ _, False) (wp_Vector_dtor this buf1 xs' cap' w1 _ Hv1))
    as ([] & w' & Hrun2 & Hh & Ho & _ & Hl & _); [done|].
  exists w'. split; [|split; [|split]].
  - unfold bind, Vector_default, putv, set_objs. simpl.
    unfold bind in Hrun1. by rewrite Hrun1.
  - intros x Hx. rewrite Hh in Hx. destruct buf1 as [a|].
    + rewrite dom_delete_L in Hx. apply elem_of_difference in Hx as [Hx Hne].
      apply Hd1 in Hx. simpl in Hx. apply elem_of_union in Hx as [Hx|Hx]; [done|].
      by destruct Hne.
    + apply Hd1 in Hx. simpl in Hx. apply elem_of_union in Hx as [Hx|Hx]; [done|].
      by apply elem_of_empty in Hx.
  - rewrite Ho. apply map_eq. intros x. destruct (decide (x = this)) as [->|Hx].
    + by rewrite lookup_delete_eq.
    + rewrite lookup_delete_ne by done. by apply Hf1.
  - by rewrite Hl, Hl1.
Qed.

(** *** [Reserve] and [Resize] *)

(** X21.  [Reserve(n)] with [n] at most the capacity changes nothing and cannot
    fail, whatever the fault plan; beyond the capacity, for an [n] whose
    byte count fits [size_t], it leaves exactly [n] when no operation
    fails.  So the capacity after [Reserve(n)] is the larger of the two,
    it never goes down, and a second [Reserve(n)] changes nothing. *)
Theorem Reserve_never_shrinks this buf xs cap n (w : world T) :
  vec_at w this buf xs cap → heap_ok w →
  (n ≤ cap → Reserve this n w = Ret () w) ∧
  (faults w = [] → n ≤ cap ∨ request_fits n →
     ∃ w', Reserve this n w = Ret () w' ∧
           capacity_of w' this = Some (max cap n) ∧
           elems w' this = Some xs ∧ size_of w' this = Some (length xs) ∧
           Reserve this n w' = Ret () w').
Proof.
  intros Hvec Hok. pose proof Hvec as (Ho & _).
  split; [intros Hfit; by apply (Reserve_enough this _ n w Ho)|].
  intros Hfs _. destruct (Nat.leb_spec n cap) as [Hfit|Hgrow].
  - exists w. pose proof (Reserve_enough this _ n w Ho Hfit) as Hrun.
    split; [done|]. rewrite Nat.max_l by done.
    split; [by eapply capacity_of_vec_at|]. split; [by eapply elems_vec_at|].
    split; [by eapply size_of_vec_at|done].
  - destruct (wp_total _ _ _ _ (wp_Reserve this n buf xs cap w Hvec Hok Hgrow))
      as ([] & w' & Hrun & Hv & _); [by intros w' (Hf & _)|].
    exists w'. split; [done|]. rewrite Nat.max_r by lia.
    split; [by eapply capacity_of_vec_at|]. split; [by eapply elems_vec_at|].
    split; [by eapply size_of_vec_at|].
    destruct Hv as (Ho' & _). by apply (Reserve_enough this _ n w' Ho').
Qed.

Lemma Resize_grow_failure this n buf xs cap w :
  vec_at w this buf xs cap → heap_ok w → length xs < n →
  wp (Resize this n) w
     (λ _ _, True)
     (λ w', (n ≤ cap → heap w' = heap w ∧ objs w' = objs w ∧ lost w' = lost w) ∧
            (transfer_safe = true →
               ∃ buf' cap', vec_at w' this buf' xs cap' ∧ (cap' = cap ∨ cap' = n) ∧
                            lost w' = lost w)).
Proof.
  intros Hvec Hok Hn. unfold Resize. apply wp_bind.
  pose proof Hvec as (Ho & Hle & Hbuf).
  destruct w as [h b o fs l tr]. simpl in *.
  eapply wp_getv; [done|]. simpl.
  destruct (Nat.eqb_spec n (length xs)) as [?|_]; [lia|].
  destruct (Nat.ltb_spec n (length xs)) as [?|_]; [lia|].
  apply wp_bind.
  assert (∀ bf cp h1 b1 o1 fs1 tr1,
    vec_at (World h1 b1 o1 fs1 l tr1) this (Some bf) xs cp → n ≤ cp →
    wp (let* v := getv this in
        uninitialized_default_construct_n
          (ptr_add (GetAddress (data_ v)) (size_ v)) (n - size_ v) >>>
        set_size this n)
       (World h1 b1 o1 fs1 l tr1)
       (λ _ _, True)
       (λ w', heap w' = h1 ∧ objs w' = o1 ∧ lost w' = l)) as Hfill.
  { intros bf cp h1 b1 o1 fs1 tr1 (Ho1 & Hle1 & Hbuf1) Hcp.
    simpl in *. apply wp_bind. eapply wp_getv; [done|]. simpl.
    unfold GetAddress, ptr_add; simpl. apply wp_bind.
    unfold uninitialized_default_construct_n. unfold block_of in Hbuf1.
    eapply (wp_uninitialized_fill_with _ bf _ (Some <$> xs) (replicate (cp - n) None)).
    { rewrite Hbuf1. rewrite <-replicate_add. do 3 f_equal. lia. }
    { by rewrite length_fmap. }
    2:{ intros fs' tr' Hfs'. simpl. done. }
    intros fs2 Hfs2. eapply wp_set_size; [done|]. simpl. done. }
  destruct (Nat.leb_spec n cap) as [Hfit|Hgrow].
  - unfold wp at 1.
    rewrite (Reserve_enough this _ n (World h b o fs l tr) Ho) by done.
    destruct buf as [a|]; [|lia].
    eapply wp_mono; [by apply (Hfill a cap)|done|]. simpl.
    intros w' (Hh & Ho' & Hl'). split; [done|]. intros _.
    exists (Some a), cap. split; [|auto].
    unfold vec_at. by rewrite Hh, Ho'.
  - eapply wp_mono; [by apply (wp_Reserve this n buf xs cap)|..]; simpl.
    + intros _ [h1 b1 o1 fs1 l1 tr1] (Hv1 & _ & _ & _ & Hl1 & _). simpl in *. subst l1.
      eapply wp_mono; [by apply (Hfill b n)|done|]. simpl.
      intros w' (Hh & Ho' & Hl'). split; [lia|]. intros _.
      exists (Some b), n. split; [|auto].
      destruct Hv1 as (? & ? & ?). unfold vec_at. simpl in *. by rewrite Hh, Ho'.
    + intros w' (_ & Ho' & Hsafe). split; [lia|]. intros Hs.
      destruct (Hsafe Hs) as [Hh Hl']. exists buf, cap. split; [|auto].
      unfold vec_at. by rewrite Hh, Ho'.
Qed.

(** X22.  [Resize] to a larger size lacks the strong guarantee, but a failure
    never changes the size or the elements when the element type is moved
    without throwing or is copied: the vector holds the elements it held,
    nothing is lost, and the capacity is the old one, or already the new
    size when the failure came after the reallocation (the new size is
    one whose byte count fits [size_t]).  Within the capacity a failure
    leaves heap and objects as they were. *)
Theorem Resize_failure_keeps_elements this buf xs cap n (w w' : world T) :
  vec_at w this buf xs cap → heap_ok w → length xs < n →
  Resize this n w = Exn w' →
  (n ≤ cap → heap w' = heap w ∧ objs w' = objs w ∧ lost w' = lost w) ∧
  (transfer_safe = true → n ≤ cap ∨ request_fits n →
     elems w' this = Some xs ∧ size_of w' this = Some (length xs) ∧
     lost w' = lost w ∧
     ∃ cap', (cap' = cap ∨ cap' = n) ∧ capacity_of w' this = Some cap' ∧
             spare_slots w' this = Some (replicate (cap' - length xs) None)).
Proof.
  intros Hvec Hok Hn Hrun.
  destruct (wp_Exn _ _ _ _ _ (Resize_grow_failure this n buf xs cap w Hvec Hok Hn) Hrun)
    as [Hfit Hsafe].
  split; [done|]. intros Hs _.
  destruct (Hsafe Hs) as (buf' & cap' & Hv & Hcap & Hl).
  split; [by eapply elems_vec_at|]. split; [by eapply size_of_vec_at|].
  split; [done|]. exists cap'. split; [done|].
  split; [by eapply capacity_of_vec_at|by eapply spare_slots_vec_at].
Qed.

(** *** [RawMemory] *)

(** X23.  A [RawMemory] of capacity 0 has a null buffer, allocates nothing and
    cannot fail.  With another capacity, one whose byte count fits
    [size_t], the constructor allocates one block of that many
    uninitialised slots at a fresh address, and the destructor releases
    it: the heap is then as before.  Releasing a null buffer does nothing,
    and [Swap] applied twice gives back both objects. *)
Theorem RawMemory_acquire_release n (w : world T) :
  heap_ok w →
  RawMemory_ctor 0 w = Ret (mkRawMemory None 0) w ∧
  RawMemory_dtor (mkRawMemory None 0) w = Ret () w ∧
  (n ≠ 0 → request_fits n → faults w = [] →
     ∃ w1 w2,
       RawMemory_ctor n w = Ret (mkRawMemory (Some (brk w)) n) w1 ∧
       heap w !! brk w = None ∧
       heap w1 = <[brk w := replicate n None]> (heap w) ∧
       RawMemory_dtor (mkRawMemory (Some (brk w)) n) w1 = Ret () w2 ∧
       heap w2 = heap w ∧ lost w2 = lost w ∧
       trace w2 = trace w ++ [EvAlloc (brk w) n; EvFree (brk w)]) ∧
  (∀ r1 r2 : RawMemory,
     let '(a, b) := RawMemory_Swap r1 r2 in RawMemory_Swap a b = (r1, r2)).
Proof.
  intros Hok. split; [done|]. split; [done|]. split.
  - intros Hn _ Hfs. destruct w as [h b o fs l tr]. simpl in *. subst fs.
    eexists _, _. split.
    { unfold RawMemory_ctor, bind, Allocate.
      destruct (Nat.eqb_spec n 0) as [?|_]; [done|]. reflexivity. }
    split; [by apply Hok|]. split; [done|]. split.
    { unfold RawMemory_dtor, Deallocate; simpl. rewrite lookup_insert_eq. reflexivity. }
    simpl. rewrite delete_insert_eq, omap_id_replicate_None, app_nil_r.
    split; [by apply delete_id, Hok|]. split; [done|]. by rewrite <-app_assoc.
  - by intros [b1 c1] [b2 c2].
Qed.

End Container.

(** ** The cost of appending, and element types that move without throwing *)

Section Cost.
Context {T : Type} `{ElemType T}.

Local Abbreviation wp := (@wp T _) (only parsing).

Lemma constructions_app (tr1 tr2 : list (event T)) :
  constructions (tr1 ++ tr2) = constructions tr1 + constructions tr2.
Proof. induction tr1 as [|e tr1 IH]; simpl; [done|]. rewrite IH. lia. Qed.

Lemma constructions_transfers (xs : list T) :
  constructions (transfer_event <$> xs) = length xs.
Proof.
  induction xs as [|x xs IH]; [done|]. rewrite fmap_cons.
  change (constructions (transfer_event x :: (transfer_event <$> xs)))
    with ((if is_construction (transfer_event x) then 1 else 0) +
          constructions (transfer_event <$> xs)).
  rewrite IH. unfold transfer_event. by destruct ISNOTHROWMOVEORCOPYCTOR.
Qed.

Lemma constructions_dtors (xs : list T) : constructions (EvDtor <$> xs) = 0.
Proof. by induction xs. Qed.

Lemma constructions_free buf : constructions (free_event (T:=T) buf) = 0.
Proof. by destruct buf. Qed.

Lemma constructions_ctor (i : init T) : constructions [ctor_event i] = 1.
Proof. by destruct i. Qed.

Lemma appends_cost this vs : ∀ buf xs cap (w : world T),
  vec_at w this buf xs cap → heap_ok w → faults w = [] →
  ∃ w', appends this vs w = Ret () w' ∧
        constructions (trace w') + (length xs + cap) ≤
          constructions (trace w) +
          (length (xs ++ vs) + capacity_after (length xs) cap (length vs)).
Proof.
  induction vs as [|v vs IH]; intros buf xs cap w Hvec Hok Hfs.
  - exists w. simpl. rewrite app_nil_r. split; [done|lia].
  - destruct (wp_total _ _ _ _ (PushBack_with_spec this (CopyOf v) buf xs cap w Hvec Hok))
      as ([] & w1 & Hrun1 & Hpost & Hok1 & _ & Hfs1).
    { by intros w' (Hf & _). }
    assert (∃ buf1, vec_at w1 this buf1 (xs ++ [v])
                      (if length xs =? cap then grown cap else cap) ∧
                    constructions (trace w1) + (length xs + cap) ≤
                      constructions (trace w) +
                      (S (length xs) + (if length xs =? cap then grown cap else cap)))
      as (buf1 & Hvec1 & Hcost1).
    { destruct (Nat.eqb_spec (length xs) cap) as [Hfull|Hroom].
      - destruct Hpost as (Hv & Htr & _). eexists. split; [exact Hv|].
        rewrite Htr, !constructions_app, constructions_transfers,
          constructions_dtors, constructions_free. simpl.
        rewrite grown_max. lia.
      - destruct Hpost as (Hv & Htr). eexists. split; [exact Hv|].
        rewrite Htr, constructions_app. simpl. lia. }
    destruct (IH _ _ _ w1 Hvec1 Hok1 (Hfs1 Hfs)) as (w' & Hrun & Hcost).
    exists w'. split.
    + simpl. unfold bind, PushBack. by rewrite Hrun1.
    + rewrite length_app in Hcost. simpl in Hcost.
      rewrite Nat.add_1_r, <-app_assoc in Hcost. simpl in *. lia.
Qed.

Lemma pow2_log2_up_lt n : 1 ≤ n → 2 ^ Nat.log2_up n < 2 * n.
Proof.
  intros Hn. destruct (decide (n = 1)) as [->|Hne]; [simpl; lia|].
  assert (1 < n) as H1 by lia.
  pose proof (Nat.log2_up_spec n H1) as [Hlo _].
  assert (0 < Nat.log2_up n) as Hpos by (by apply Nat.log2_up_pos).
  replace (Nat.log2_up n) with (S (Nat.pred (Nat.log2_up n))) by lia.
  rewrite Nat.pow_succ_r'. lia.
Qed.

(** X24.  Appending is amortised constant: [n] appends to a vector constructed
    empty, with no failing operation, construct fewer than [3 n] objects
    in all (the [n] new elements and every element transferred by a
    reallocation), because each reallocation doubles the capacity. *)
Theorem appends_cost_is_linear this (vs : list T) (w : world T) :
  heap_ok w → faults w = [] →
  ∃ w', (Vector_default this >>> appends this vs) w = Ret () w' ∧
        elems w' this = Some vs ∧
        constructions (trace w') ≤ constructions (trace w) + 3 * length vs ∧
        (vs ≠ [] →
           constructions (trace w') < constructions (trace w) + 3 * length vs).
Proof.
  intros Hok Hfs. destruct w as [h b o fs l tr]. simpl in *. subst fs.
  set (w0 := World h b (<[this := mkVector (mkRawMemory None 0) 0]> o) [] l tr).
  assert (vec_at w0 this None [] 0) as Hvec.
  { unfold vec_at, w0; simpl. by rewrite lookup_insert_eq. }
  destruct (appends_spec this vs None [] 0 w0 Hvec Hok eq_refl)
    as (w' & buf' & Hrun & Hv & _).
  destruct (appends_cost this vs None [] 0 w0 Hvec Hok eq_refl)
    as (w'' & Hrun' & Hcost).
  rewrite Hrun in Hrun'. injection Hrun' as <-.
  simpl in Hcost. rewrite capacity_after_pow2 in Hcost by (left; done). simpl in Hcost.
  exists w'. split; [done|]. split; [by eapply elems_vec_at|].
  destruct (Nat.eqb_spec (length vs) 0) as [Hz|Hnz].
  - split; [lia|]. intros Hne. destruct vs; [done|simpl in Hz; lia].
  - pose proof (pow2_log2_up_lt (length vs) ltac:(lia)). split; [lia|]. intros _. lia.
Qed.

Lemma PushBack_nothrow_move this i buf xs cap w :
  vec_at w this buf xs cap → heap_ok w → is_nothrow_move_constructible = true →
  wp (PushBack_with this i) w
     (λ _ _, True)
     (λ w', heap w' = heap w ∧ objs w' = objs w ∧ lost w' = lost w).
Proof.
  destruct w as [h b o fs l tr]. intros (Ho & Hle & Hbuf) Hok Hnt. simpl in *.
  unfold PushBack_with. apply wp_bind.
  eapply wp_getv; [done|]. simpl. apply wp_bind.
  destruct (Nat.eqb_spec (length xs) cap) as [Hfull|Hroom].
  - subst cap. fold (grown (length xs)).
    pose proof (grown_gt (length xs)) as Hgt.
    apply wp_scope_RawMemory, wp_RawMemory_ctor; [lia| |].
    2:{ intros _ fs' Hfs. simpl. done. }
    intros _ fs1 Hfs1. apply wp_bind. unfold GetAddress, ptr_add; simpl.
    rewrite (replicate_split (grown (length xs)) (length xs)) by done.
    eapply wp_construct_at.
    { apply lookup_insert_eq. }
    { by rewrite length_replicate. }
    2:{ intros fs2 Hfs2 _. unfold RawMemory_dtor; simpl.
        eapply wp_Deallocate; [apply lookup_insert_eq|]. simpl.
        rewrite delete_insert_eq.
        rewrite omap_app, omap_id_replicate_None. simpl.
        rewrite omap_id_replicate_None, app_nil_r.
        split; [|done]. apply delete_id, Hok. simpl. lia. }
    intros fs2 Hfs2 _. rewrite insert_insert_eq.
    rewrite MoveDataTo_unfold. apply wp_bind, wp_bind.
    eapply wp_getv; [done|]. simpl. unfold GetAddress; simpl.
    destruct buf as [a|].
    + assert (a ≠ b) as Hab.
      { intros ->. rewrite Hok in Hbuf by (simpl; lia). done. }
      assert (b ≠ a) as Hba by done.
      unfold block_of in Hbuf. rewrite Nat.sub_diag in Hbuf. simpl in Hbuf.
      rewrite app_nil_r in Hbuf.
      apply wp_bind.
      eapply (wp_MoveData a 0 [] xs [] b 0 []); [done| |done| |done|done| |].
      { rewrite lookup_insert_ne by done. simpl. by rewrite app_nil_r. }
      { rewrite lookup_insert_eq. done. }
      2:{ intros src fs3 tr3 Hsrc Hfs3 Hnt'. by rewrite Hnt in Hnt'. }
      intros fs3 Hfs3 _. simpl.
      eapply (wp_DestroyAndSwap this a _ _ _ (left_behind <$> xs) []);
        [done| |by rewrite length_fmap|].
      { rewrite lookup_insert_ne, lookup_insert_eq by done.
        by rewrite app_nil_r. }
      apply wp_ret. simpl. unfold RawMemory_dtor; simpl.
      eapply wp_Deallocate.
      { by rewrite lookup_insert_eq. }
      apply wp_bind. eapply wp_getv; [apply lookup_insert_eq|].
      simpl. eapply wp_set_size; [apply lookup_insert_eq|]. done.
    + subst. destruct xs; [|done]. simpl in *.
      apply wp_bind, wp_MoveData_0.
      eapply wp_DestroyAndSwap_null; [done|].
      apply wp_ret. simpl. unfold RawMemory_dtor; simpl.
      apply wp_Deallocate_null. apply wp_bind.
      eapply wp_getv; [apply lookup_insert_eq|].
      simpl. eapply wp_set_size; [apply lookup_insert_eq|]. done.
  - destruct buf as [a|]; [|lia].
    unfold GetAddress, ptr_add; simpl. unfold block_of in Hbuf.
    rewrite (replicate_split (cap - length xs) 0) in Hbuf by lia. simpl in Hbuf.
    eapply wp_construct_at; [exact Hbuf|by rewrite length_fmap| |].
    2:{ intros fs2 Hfs2 _. simpl. done. }
    intros fs2 Hfs2 _. apply wp_bind. eapply wp_getv; [done|].
    simpl. eapply wp_set_size; [done|]. done.
Qed.

(** X25.  For an element type whose move constructor cannot throw, [PushBack]
    keeps the strong guarantee in full: when it throws (the allocation
    failed, or the construction of the new element did), heap, objects and
    lost objects are as before the call, so no element is lost either.
    With room left and an rvalue argument it cannot throw at all. *)
Theorem PushBack_nothrow_move_strong_guarantee this buf xs cap (w : world T) :
  vec_at w this buf xs cap → heap_ok w → is_nothrow_move_constructible = true →
  (∀ i w', PushBack_with this i w = Exn w' →
           heap w' = heap w ∧ objs w' = objs w ∧ lost w' = lost w ∧
           elems w' this = Some xs) ∧
  (length xs < cap → ∀ x w', PushBack_move this x w ≠ Exn w').
Proof.
  intros Hvec Hok Hnt. split.
  - intros i w' Hrun.
    destruct (wp_Exn _ _ _ _ _ (PushBack_nothrow_move this i buf xs cap w Hvec Hok Hnt) Hrun)
      as (Hh & Ho & Hl).
    split; [done|]. split; [done|]. split; [done|].
    rewrite (elems_same w w') by done. by eapply elems_vec_at.
  - intros Hroom x w' Hrun. destruct w as [h b o fs l tr].
    destruct Hvec as (Ho & Hle & Hbuf). simpl in *.
    destruct buf as [a|]; [|lia].
    unfold block_of in Hbuf.
    rewrite (replicate_split (cap - length xs) 0) in Hbuf by lia. simpl in Hbuf.
    assert (wp (PushBack_move this x) (World h b o fs l tr) (λ _ _, True) (λ _, False))
      as Hwp.
    { unfold PushBack_move, PushBack_with. apply wp_bind.
      eapply wp_getv; [done|]. simpl. apply wp_bind.
      destruct (Nat.eqb_spec (length xs) cap) as [?|_]; [lia|].
      unfold GetAddress, ptr_add; simpl.
      eapply wp_construct_at; [exact Hbuf|by rewrite length_fmap| |].
      2:{ intros fs2 Hfs2 Hthrows. simpl in Hthrows. by rewrite Hnt in Hthrows. }
      intros fs2 Hfs2 _. apply wp_bind. eapply wp_getv; [done|].
      simpl. eapply wp_set_size; [done|]. done. }
    by apply (wp_Exn _ _ _ _ _ Hwp Hrun).
Qed.

End Cost.

(** ** Scenarios *)

(** The scenario of the specification: three appends to an empty vector,
    an insertion at position 1, an erasure at position 0, a [PopBack]. *)
Example spec_scenario :
  ∃ w1 w2 w3 w4,
    (Vector_default 0 >>> PushBack (H:=Plain) 0 1 >>> PushBack (H:=Plain) 0 2 >>>
     PushBack (H:=Plain) 0 3) empty_world = Ret () w1 ∧
    elems w1 0 = Some [1; 2; 3] ∧ capacity_of w1 0 = Some 4 ∧
    Insert (H:=Plain) 0 1 9 w1 = Ret 1 w2 ∧ elems w2 0 = Some [1; 9; 2; 3] ∧
    Erase (H:=Plain) 0 0 w2 = Ret 0 w3 ∧ elems w3 0 = Some [9; 2; 3] ∧
    PopBack 0 w3 = Ret () w4 ∧ elems w4 0 = Some [9; 2] ∧ size_of w4 0 = Some 2.
Proof.
  do 4 eexists. split; [vm_compute; reflexivity|].
  split; [vm_compute; reflexivity|]. split; [vm_compute; reflexivity|].
  split; [vm_compute; reflexivity|]. split; [vm_compute; reflexivity|].
  split; [vm_compute; reflexivity|]. split; [vm_compute; reflexivity|].
  split; [vm_compute; reflexivity|]. split; vm_compute; reflexivity.
Qed.

(** C1 fails on the code.  A vector holds [1] in a block of one slot; the
    element type is copied on transfer.  [PushBack(2)] allocates the new
    block and copies 2 into its slot 1, and the copy of the existing
    element throws.  The vector is as before, but the new tail element is
    never destroyed: [uninitialized_copy_n] undoes only what it constructed
    itself, [PushBack] has no handler, and the block is released with the
    element alive in it (the trace has its [EvCopy] and no [EvDtor]). *)
Theorem PushBack_transfer_failure_loses_tail :
  PushBack (H:=Counted) 0 2 (one_vector 0 0 [1] 1 [false; false; true]) =
  Exn (World {[ 0 := [Some 1] ]} 2
             {[ 0 := mkVector (mkRawMemory (Some 0) 1) 1 ]} [] [2]
             [EvAlloc 1 2; EvCopy 2; EvFree 1]).
Proof. vm_compute. reflexivity. Qed.


(** Nor is the move of the last element behind the end harmless when it
    throws: the temporary is built, the move constructor throws, and the
    last element is what the failed move has left of it.  The elements
    are [1; 0]. *)
Lemma Emplace_last_move_failure_changes_elements :
  ¬ unchanged_on_failure (Insert (H:=Counted) 0 0 9) 0
      (one_vector 0 0 [1; 2] 4 [false; true]).
Proof.
  intros Hclaim.
  destruct (Hclaim
    (World {[ 0 := [Some 1; Some 0; None; None] ]} 1
           {[ 0 := mkVector (mkRawMemory (Some 0) 4) 2 ]} [] []
           [EvCopy 9; EvDtor 9])) as (_ & _ & Hel).
  - vm_compute. reflexivity.
  - vm_compute in Hel. discriminate.
Qed.

(** On the growth path the guarantee depends on the element type: a
    move-only type whose move throws loses the elements already moved. *)
Lemma Emplace_growth_throwing_move_changes_elements :
  ¬ unchanged_on_failure (Insert_move (H:=MoveOnly) 0 0 9) 0
      (one_vector 0 0 [1; 2] 2 [false; false; false; true]).
Proof.
  intros Hclaim.
  destruct (Hclaim
    (World {[ 0 := [Some 0; Some 2] ]} 2
           {[ 0 := mkVector (mkRawMemory (Some 0) 2) 2 ]} [] []
           [EvAlloc 1 4; EvMove 9; EvMove 1; EvDtor 1; EvDtor 9; EvFree 1]))
    as (_ & _ & Hel).
  - vm_compute. reflexivity.
  - vm_compute in Hel. discriminate.
Qed.

(** C3 fails on the code.  The vectors 0 and 1 hold [1] and [2].  Move
    assignment of 1 to 0 overwrites the buffer of 0 and leaves 1 with a
    null buffer: nothing is swapped.  When both objects are destroyed
    afterwards, block 0 is still allocated and its element alive: it is
    never released and the element never destroyed. *)
Theorem move_assignment_abandons_prior_block :
  move_assignment 0 1 (two_vectors [1] 1 [2] 1 []) =
    Ret () (World {[ 0 := [Some 1]; 1 := [Some 2] ]} 2
                  {[ 0 := mkVector (mkRawMemory (Some 1) 1) 1;
                     1 := mkVector (mkRawMemory None 0) 0 ]} [] [] []) ∧
  (move_assignment 0 1 >>> Vector_dtor 0 >>> Vector_dtor 1)
    (two_vectors [1] 1 [2] 1 []) =
    Ret () (World {[ 0 := [Some 1] ]} 2 ∅ [] [] [EvDtor 2; EvFree 1]).
Proof. split; vm_compute; reflexivity. Qed.

(** C8 fails on the code.  A vector of an element type whose destructor is
    not trivial holds [1; 2] in a block of four slots.  [Insert] at
    position 0 returns, and the vector holds [9; 1; 2].  [Erase] at
    position 0 then destroys the 9 and move-assigns 1 to the object it has
    just destroyed: undefined behaviour.  The same happens at position 1.
    Only at position 2, the size, where nothing follows the erased
    element, do the two calls give back [1; 2]. *)
Theorem Emplace_then_Erase_is_undefined :
  (∃ w1, Insert (H:=Counted) 0 0 9 (one_vector 0 0 [1; 2] 4 []) = Ret 0 w1 ∧
         elems w1 0 = Some [9; 1; 2] ∧
         Erase (H:=Counted) 0 0 w1 = Undef) ∧
  (∃ w1, Insert (H:=Counted) 0 1 9 (one_vector 0 0 [1; 2] 4 []) = Ret 1 w1 ∧
         elems w1 0 = Some [1; 9; 2] ∧
         Erase (H:=Counted) 0 1 w1 = Undef) ∧
  (∃ w1 w2, Insert (H:=Counted) 0 2 9 (one_vector 0 0 [1; 2] 4 []) = Ret 2 w1 ∧
            elems w1 0 = Some [1; 2; 9] ∧
            Erase (H:=Counted) 0 2 w1 = Ret 2 w2 ∧
            elems w2 0 = Some [1; 2]).
Proof.
  split; [|split].
  - eexists. split; [vm_compute; reflexivity|]. split; vm_compute; reflexivity.
  - eexists. split; [vm_compute; reflexivity|]. split; vm_compute; reflexivity.
  - do 2 eexists. split; [vm_compute; reflexivity|].
    split; [vm_compute; reflexivity|]. split; vm_compute; reflexivity.
Qed.

(** C9 fails on the code.  A vector is constructed empty, 1 and 2 are
    appended, and the first element is erased.  [Erase] destroys the object
    at the position and then move-assigns the followers down.
    - For a trivially destructible element type the slot at index [size]
      keeps a moved-from object: the spare slots are not uninitialized.
      Nothing destroys it: when the vector is destroyed its block is
      released with that object in it.
    - For an element type with a destructor that is not trivial the first
      move assignment runs on the object just destroyed: the call is
      undefined behaviour.  When that move assignment is the operation
      that throws, the call leaves a vector of size 2 whose slot 0 holds
      no object. *)
Theorem Erase_leaves_live_object_in_spare_slot :
  (Vector_default 0 >>> PushBack (H:=Plain) 0 1 >>> PushBack (H:=Plain) 0 2 >>>
   Erase (H:=Plain) 0 0) empty_world =
    Ret 0 (World {[ 1 := [Some 2; Some 2] ]} 2
                 {[ 0 := mkVector (mkRawMemory (Some 1) 2) 1 ]} [] []
                 [EvAlloc 0 1; EvCopy 1; EvAlloc 1 2; EvCopy 2; EvMove 1;
                  EvDtor 1; EvFree 0; EvDtor 1; EvAssign 2]) ∧
  spare_slots (World {[ 1 := [Some 2; Some 2] ]} 2
                     {[ 0 := mkVector (mkRawMemory (Some 1) 2) 1 ]} [] []
                     (@nil (event nat))) 0 = Some [Some 2] ∧
  (∃ w', (Vector_default 0 >>> PushBack (H:=Plain) 0 1 >>>
          PushBack (H:=Plain) 0 2 >>>
          (let* _ := Erase (H:=Plain) 0 0 in Vector_dtor 0)) empty_world = Ret () w' ∧
         lost w' = [2]) ∧
  (Vector_default 0 >>> PushBack (H:=Counted) 0 1 >>> PushBack (H:=Counted) 0 2 >>>
   Erase (H:=Counted) 0 0) empty_world = Undef ∧
  (Vector_default 0 >>> PushBack (H:=Counted) 0 1 >>> PushBack (H:=Counted) 0 2 >>>
   Erase (H:=Counted) 0 0)
     (World ∅ 0 ∅ [false; false; false; false; false; true] [] []) =
    Exn (World {[ 1 := [None; Some 2] ]} 2
               {[ 0 := mkVector (mkRawMemory (Some 1) 2) 2 ]} [] []
               [EvAlloc 0 1; EvCopy 1; EvAlloc 1 2; EvCopy 2; EvCopy 1;
                EvDtor 1; EvFree 0; EvDtor 1]) ∧
  elems (World {[ 1 := [None; Some 2] ]} 2
               {[ 0 := mkVector (mkRawMemory (Some 1) 2) 2 ]} [] []
               (@nil (event nat))) 0 = None.
Proof.
  split; [vm_compute; reflexivity|]. split; [vm_compute; reflexivity|].
  split; [eexists; split; vm_compute; reflexivity|].
  split; [vm_compute; reflexivity|]. split; vm_compute; reflexivity.
Qed.

(** ** The theorems at concrete inputs *)

Lemma vec_at_one_vector this a xs cap fs :
  length xs ≤ cap → vec_at (one_vector this a xs cap fs) this (Some a) xs cap.
Proof.
  intros Hle. split; [apply lookup_singleton_eq|]. split; [exact Hle|].
  apply lookup_singleton_eq.
Defined.


Lemma growth_doubles_capacity_witness :
  vec_at (one_vector 0 0 [1] 1 []) 0 (Some 0) [1] (length [1]) ∧
  heap_ok (one_vector 0 0 [1] 1 []) ∧
  ∃ w', PushBack_with (H:=Counted) 0 (CopyOf 2) (one_vector 0 0 [1] 1 []) = Ret () w' ∧
        capacity_of w' 0 = Some (max 1 (2 * length [1])).
Proof.
  assert (vec_at (one_vector 0 0 [1] 1 []) 0 (Some 0) [1] (length [1])) as Hv
    by (apply vec_at_one_vector; simpl; lia).
  assert (heap_ok (one_vector 0 0 [1] 1 [])) as Hok
    by (apply heap_okb_ok; vm_compute; reflexivity).
  split; [exact Hv|]. split; [exact Hok|].
  destruct (growth_doubles_capacity (H:=Counted) 0 (Some 0) [1]
              (one_vector 0 0 [1] 1 []) Hv Hok) as (Hcap & _ & _ & Hret & _).
  destruct (Hret eq_refl) as (Hpush & _).
  destruct (Hpush (CopyOf 2)) as [w' Hrun].
  exists w'. split; [exact Hrun|]. exact (Hcap _ _ Hrun).
Defined.

Lemma two_vectors_separate (a : addr) : Some 0 = Some a → Some 1 ≠ Some a.
Proof. intros [= <-] [=]. Defined.

Lemma copy_assignment_by_case_witness :
  0 ≠ 1 ∧
  vec_at (two_vectors (seq 1 10) 10 [7; 8; 9] 3 []) 0 (Some 0) (seq 1 10) 10 ∧
  vec_at (two_vectors (seq 1 10) 10 [7; 8; 9] 3 []) 1 (Some 1) [7; 8; 9] 3 ∧
  (∀ a, Some 0 = Some a → Some 1 ≠ Some a) ∧
  objs (two_vectors (seq 1 10) 10 [7; 8; 9] 3 []) !! 2 = None ∧
  heap_ok (two_vectors (seq 1 10) 10 [7; 8; 9] 3 []) ∧
  faults (two_vectors (seq 1 10) 10 [7; 8; 9] 3 []) = [] ∧
  ∃ w', copy_assignment (H:=Counted) 0 1 2 (two_vectors (seq 1 10) 10 [7; 8; 9] 3 []) =
          Ret () w' ∧
        elems w' 0 = Some [7; 8; 9] ∧ size_of w' 0 = Some 3 ∧
        capacity_of w' 0 = Some 10 ∧
        trace w' = [EvAssign 7; EvAssign 8; EvAssign 9; EvDtor 4; EvDtor 5;
                    EvDtor 6; EvDtor 7; EvDtor 8; EvDtor 9; EvDtor 10].
Proof.
  assert (0 ≠ 1) as Hne by discriminate.
  assert (vec_at (two_vectors (seq 1 10) 10 [7; 8; 9] 3 []) 0 (Some 0) (seq 1 10) 10)
    as Hv0 by (split; [reflexivity|split; [simpl; lia|reflexivity]]).
  assert (vec_at (two_vectors (seq 1 10) 10 [7; 8; 9] 3 []) 1 (Some 1) [7; 8; 9] 3)
    as Hv1 by (split; [reflexivity|split; [simpl; lia|reflexivity]]).
  assert (heap_ok (two_vectors (seq 1 10) 10 [7; 8; 9] 3 [])) as Hok
    by (apply heap_okb_ok; vm_compute; reflexivity).
  split; [exact Hne|]. split; [exact Hv0|]. split; [exact Hv1|].
  split; [exact two_vectors_separate|]. split; [reflexivity|].
  split; [exact Hok|]. split; [reflexivity|].
  destruct (copy_assignment_by_case (H:=Counted) 0 1 2 (Some 0) (seq 1 10) 10
              (Some 1) [7; 8; 9] 3 _ Hne Hv0 Hv1 two_vectors_separate
              eq_refl Hok eq_refl)
    as (_ & w' & Hrun & Hel & _ & _ & _ & _ & _ & _ & Hscn).
  destruct (Hscn eq_refl eq_refl eq_refl) as (Hsz & Hcap & Htr & _).
  exists w'. split; [exact Hrun|]. split; [exact Hel|]. split; [exact Hsz|].
  split; [exact Hcap|]. exact Htr.
Defined.

Lemma copy_assignment_realloc_strong_guarantee_witness :
  0 ≠ 1 ∧
  vec_at (two_vectors [1] 1 [7; 8] 2 [false; false; true]) 0 (Some 0) [1] 1 ∧
  vec_at (two_vectors [1] 1 [7; 8] 2 [false; false; true]) 1 (Some 1) [7; 8] 2 ∧
  (∀ a, Some 0 = Some a → Some 1 ≠ Some a) ∧
  objs (two_vectors [1] 1 [7; 8] 2 [false; false; true]) !! 2 = None ∧
  heap_ok (two_vectors [1] 1 [7; 8] 2 [false; false; true]) ∧
  1 < length [7; 8] ∧
  copy_assignment (H:=Counted) 0 1 2 (two_vectors [1] 1 [7; 8] 2 [false; false; true]) =
    Exn (World {[ 0 := [Some 1]; 1 := [Some 7; Some 8] ]} 3
               {[ 0 := mkVector (mkRawMemory (Some 0) 1) 1;
                  1 := mkVector (mkRawMemory (Some 1) 2) 2 ]} [] []
               [EvAlloc 2 2; EvCopy 7; EvDtor 7; EvFree 2]) ∧
  elems (World {[ 0 := [Some 1]; 1 := [Some 7; Some 8] ]} 3
               {[ 0 := mkVector (mkRawMemory (Some 0) 1) 1;
                  1 := mkVector (mkRawMemory (Some 1) 2) 2 ]} [] []
               [EvAlloc 2 2; EvCopy 7; EvDtor 7; EvFree 2]) 0 = Some [1] ∧
  size_of (World {[ 0 := [Some 1]; 1 := [Some 7; Some 8] ]} 3
                 {[ 0 := mkVector (mkRawMemory (Some 0) 1) 1;
                    1 := mkVector (mkRawMemory (Some 1) 2) 2 ]} [] []
                 [EvAlloc 2 2; EvCopy 7; EvDtor 7; EvFree 2]) 0 = Some (length [1]) ∧
  capacity_of (World {[ 0 := [Some 1]; 1 := [Some 7; Some 8] ]} 3
                     {[ 0 := mkVector (mkRawMemory (Some 0) 1) 1;
                        1 := mkVector (mkRawMemory (Some 1) 2) 2 ]} [] []
                     [EvAlloc 2 2; EvCopy 7; EvDtor 7; EvFree 2]) 0 = Some 1.
Proof.
  assert (0 ≠ 1) as Hne by discriminate.
  assert (vec_at (two_vectors [1] 1 [7; 8] 2 [false; false; true]) 0 (Some 0) [1] 1)
    as Hv0 by (split; [reflexivity|split; [simpl; lia|reflexivity]]).
  assert (vec_at (two_vectors [1] 1 [7; 8] 2 [false; false; true]) 1 (Some 1) [7; 8] 2)
    as Hv1 by (split; [reflexivity|split; [simpl; lia|reflexivity]]).
  assert (heap_ok (two_vectors [1] 1 [7; 8] 2 [false; false; true])) as Hok
    by (apply heap_okb_ok; vm_compute; reflexivity).
  assert (1 < length [7; 8]) as Hlt by (simpl; lia).
  assert (copy_assignment (H:=Counted) 0 1 2
            (two_vectors [1] 1 [7; 8] 2 [false; false; true]) =
          Exn (World {[ 0 := [Some 1]; 1 := [Some 7; Some 8] ]} 3
                     {[ 0 := mkVector (mkRawMemory (Some 0) 1) 1;
                        1 := mkVector (mkRawMemory (Some 1) 2) 2 ]} [] []
                     [EvAlloc 2 2; EvCopy 7; EvDtor 7; EvFree 2])) as Hrun
    by (vm_compute; reflexivity).
  split; [exact Hne|]. split; [exact Hv0|]. split; [exact Hv1|].
  split; [exact two_vectors_separate|]. split; [reflexivity|].
  split; [exact Hok|]. split; [exact Hlt|]. split; [exact Hrun|].
  destruct (copy_assignment_realloc_strong_guarantee (H:=Counted) 0 1 2
              (Some 0) [1] 1 (Some 1) [7; 8] 2 _ _ Hne Hv0 Hv1
              two_vectors_separate eq_refl Hok Hlt Hrun)
    as (_ & _ & _ & Hel & Hsz & Hcap).
  split; [exact Hel|]. split; [exact Hsz|]. exact Hcap.
Defined.



(** ** The further properties at concrete inputs *)

Lemma Index_reads_element_witness :
  vec_at (one_vector 0 0 [1; 2] 4 []) 0 (Some 0) [1; 2] 4 ∧
  Index 0 1 (one_vector 0 0 [1; 2] 4 []) =
    Ret (Ptr (Some 0) 1) (one_vector 0 0 [1; 2] 4 []) ∧
  deref (Index 0 1) (one_vector 0 0 [1; 2] 4 []) = Ret 2 (one_vector 0 0 [1; 2] 4 []) ∧
  Index 0 2 (one_vector 0 0 [1; 2] 4 []) = Undef.
Proof.
  assert (vec_at (one_vector 0 0 [1; 2] 4 []) 0 (Some 0) [1; 2] 4) as Hv
    by (apply vec_at_one_vector; simpl; lia).
  assert (length [1; 2] ≤ 2) as Hge by (simpl; lia).
  split; [exact Hv|].
  destruct (Index_reads_element 0 (Some 0) [1; 2] 4 _ Hv) as [Hin Hout].
  split; [exact (proj1 (Hin 1 2 eq_refl))|].
  split; [exact (proj2 (Hin 1 2 eq_refl))|exact (proj1 (Hout 2 Hge))].
Defined.

Lemma Back_reads_last_witness :
  vec_at (one_vector 0 0 [1; 2] 4 []) 0 (Some 0) [1; 2] 4 ∧
  heap_ok (one_vector 0 0 [1; 2] 4 []) ∧
  deref (Back 0) (one_vector 0 0 [1; 2] 4 []) = Ret 2 (one_vector 0 0 [1; 2] 4 []).
Proof.
  assert (vec_at (one_vector 0 0 [1; 2] 4 []) 0 (Some 0) [1; 2] 4) as Hv
    by (apply vec_at_one_vector; simpl; lia).
  assert (heap_ok (one_vector 0 0 [1; 2] 4 [])) as Hok
    by (apply heap_okb_ok; vm_compute; reflexivity).
  split; [exact Hv|]. split; [exact Hok|].
  exact (proj1 (Back_reads_last (H:=Counted) 0 (Some 0) [1; 2] 4 _ Hv Hok)).
Defined.

Lemma iterators_span_elements_witness :
  vec_at (one_vector 0 0 [1; 2] 4 []) 0 (Some 0) [1; 2] 4 ∧
  Vector_end 0 (one_vector 0 0 [1; 2] 4 []) =
    Ret (Ptr (Some 0) 2) (one_vector 0 0 [1; 2] 4 []) ∧
  deref (Vector_end 0) (one_vector 0 0 [1; 2] 4 []) = Undef.
Proof.
  assert (vec_at (one_vector 0 0 [1; 2] 4 []) 0 (Some 0) [1; 2] 4) as Hv
    by (apply vec_at_one_vector; simpl; lia).
  split; [exact Hv|].
  destruct (iterators_span_elements 0 (Some 0) [1; 2] 4 _ Hv)
    as (_ & Hend & _ & _ & Hderef).
  split; [exact Hend|exact Hderef].
Defined.

Lemma Vector_copy_is_independent_witness :
  vec_at (one_vector 1 0 [1; 2] 2 []) 1 (Some 0) [1; 2] 2 ∧
  heap_ok (one_vector 1 0 [1; 2] 2 []) ∧ 0 ≠ 1 ∧
  ∃ w' buf, Vector_copy (H:=Counted) 0 1 (one_vector 1 0 [1; 2] 2 []) = Ret () w' ∧
            vec_at w' 0 buf [1; 2] 2 ∧ vec_at w' 1 (Some 0) [1; 2] 2 ∧
            trace w' = match buf with
                       | Some a => [EvAlloc a 2]
                       | None => []
                       end ++ [EvCopy 1; EvCopy 2] ∧
            ∃ w'', PopBack 0 w' = Ret () w'' ∧
                   elems w'' 0 = Some [1] ∧ elems w'' 1 = Some [1; 2].
Proof.
  assert (vec_at (one_vector 1 0 [1; 2] 2 []) 1 (Some 0) [1; 2] 2) as Hv
    by (apply vec_at_one_vector; simpl; lia).
  assert (heap_ok (one_vector 1 0 [1; 2] 2 [])) as Hok
    by (apply heap_okb_ok; vm_compute; reflexivity).
  assert (0 ≠ 1) as Hne by discriminate.
  split; [exact Hv|]. split; [exact Hok|]. split; [exact Hne|].
  destruct (proj1 (Vector_copy_is_independent (H:=Counted) 0 1 (Some 0) [1; 2] 2 _
                     Hv Hok Hne) eq_refl)
    as (w' & buf & Hrun & Hvt & Hvo & _ & _ & Htr & _ & _ & Hpop).
  exists w', buf. split; [exact Hrun|]. split; [exact Hvt|]. split; [exact Hvo|].
  split; [exact Htr|]. exact (Hpop [1] 2 eq_refl).
Defined.

Lemma Vector_sized_value_initialises_witness :
  heap_ok empty_world ∧ request_fits (H:=Counted) 3 ∧
  ∃ w', Vector_sized (H:=Counted) 0 3 empty_world = Ret () w' ∧
        elems w' 0 = Some [0; 0; 0] ∧ capacity_of w' 0 = Some 3.
Proof.
  assert (heap_ok empty_world) as Hok by (apply heap_okb_ok; vm_compute; reflexivity).
  assert (request_fits (H:=Counted) 3) as Hfit
    by (apply request_fitsb_fits; vm_compute; reflexivity).
  split; [exact Hok|]. split; [exact Hfit|].
  destruct (proj1 (Vector_sized_value_initialises (H:=Counted) 0 3 _ Hok Hfit) eq_refl)
    as (w' & Hrun & Hel & _ & Hcap & _).
  exists w'. split; [exact Hrun|]. split; [exact Hel|exact Hcap].
Defined.

Lemma Vector_dtor_releases_witness :
  vec_at (one_vector 0 0 [1; 2] 4 []) 0 (Some 0) [1; 2] 4 ∧
  ∃ w', Vector_dtor 0 (one_vector 0 0 [1; 2] 4 []) = Ret () w' ∧
        objs w' !! 0 = None ∧
        trace w' = [EvDtor 1; EvDtor 2; EvFree 0] ∧ lost w' = [].
Proof.
  assert (vec_at (one_vector 0 0 [1; 2] 4 []) 0 (Some 0) [1; 2] 4) as Hv
    by (apply vec_at_one_vector; simpl; lia).
  split; [exact Hv|].
  destruct (Vector_dtor_releases 0 (Some 0) [1; 2] 4 _ Hv)
    as (w' & Hrun & Ho & _ & _ & Htr & Hl & _).
  exists w'. split; [exact Hrun|]. split; [exact Ho|]. split; [exact Htr|exact Hl].
Defined.

Lemma move_takes_over_storage_witness :
  vec_at (two_vectors [1] 1 [2] 1 []) 1 (Some 1) [2] 1 ∧ 0 ≠ 1 ∧
  vec_at (two_vectors [1] 1 [2] 1 []) 0 (Some 0) [1] 1 ∧
  ∃ w', move_assignment 0 1 (two_vectors [1] 1 [2] 1 []) = Ret () w' ∧
        vec_at w' 0 (Some 1) [2] 1 ∧ vec_at w' 1 None [] 0 ∧
        heap w' = heap (two_vectors [1] 1 [2] 1 []).
Proof.
  assert (vec_at (two_vectors [1] 1 [2] 1 []) 1 (Some 1) [2] 1) as Hv1
    by (split; [reflexivity|split; [simpl; lia|reflexivity]]).
  assert (vec_at (two_vectors [1] 1 [2] 1 []) 0 (Some 0) [1] 1) as Hv0
    by (split; [reflexivity|split; [simpl; lia|reflexivity]]).
  assert (0 ≠ 1) as Hne by discriminate.
  split; [exact Hv1|]. split; [exact Hne|]. split; [exact Hv0|].
  destruct (move_takes_over_storage 0 1 (Some 1) [2] 1 _ Hv1 Hne) as (_ & Hassign & _).
  destruct (Hassign (Some 0) [1] 1 Hv0) as (w' & Hrun & Hvt & Hvo & Hh & _).
  exists w'. split; [exact Hrun|]. split; [exact Hvt|]. split; [exact Hvo|exact Hh].
Defined.

Lemma Swap_exchanges_witness :
  vec_at (two_vectors [1] 1 [2; 3] 2 []) 0 (Some 0) [1] 1 ∧
  vec_at (two_vectors [1] 1 [2; 3] 2 []) 1 (Some 1) [2; 3] 2 ∧ 0 ≠ 1 ∧
  ∃ w', Swap 0 1 (two_vectors [1] 1 [2; 3] 2 []) = Ret () w' ∧
        vec_at w' 0 (Some 1) [2; 3] 2 ∧ vec_at w' 1 (Some 0) [1] 1 ∧
        Swap 0 1 w' = Ret () (two_vectors [1] 1 [2; 3] 2 []).
Proof.
  assert (vec_at (two_vectors [1] 1 [2; 3] 2 []) 0 (Some 0) [1] 1) as Hv0
    by (split; [reflexivity|split; [simpl; lia|reflexivity]]).
  assert (vec_at (two_vectors [1] 1 [2; 3] 2 []) 1 (Some 1) [2; 3] 2) as Hv1
    by (split; [reflexivity|split; [simpl; lia|reflexivity]]).
  assert (0 ≠ 1) as Hne by discriminate.
  split; [exact Hv0|]. split; [exact Hv1|]. split; [exact Hne|].
  destruct (Swap_exchanges 0 1 (Some 0) [1] 1 (Some 1) [2; 3] 2 _ Hv0 Hv1 Hne)
    as (w' & Hrun & Hvt & Hvo & _ & _ & _ & _ & Hback).
  exists w'. split; [exact Hrun|]. split; [exact Hvt|]. split; [exact Hvo|exact Hback].
Defined.

Lemma noexcept_functions_never_throw_witness :
  is_nothrow_move_assignable (ElemType:=Plain) = true ∧
  nothrow (PopBack (T:=nat) 0) ∧ nothrow (Erase (H:=Plain) 0 1).
Proof.
  split; [reflexivity|].
  destruct (noexcept_functions_never_throw (H:=Plain) 0 1)
    as (Hpop & _ & _ & _ & _ & _ & _ & _ & _ & _ & Herase).
  split; [exact Hpop|exact (Herase eq_refl 1)].
Defined.

Lemma PopBack_removes_last_witness :
  vec_at (one_vector 0 0 [1; 2] 4 []) 0 (Some 0) [1; 2] 4 ∧
  ∃ w', PopBack 0 (one_vector 0 0 [1; 2] 4 []) = Ret () w' ∧
        vec_at w' 0 (Some 0) [1] 4 ∧ trace w' = [EvDtor 2].
Proof.
  assert (vec_at (one_vector 0 0 [1; 2] 4 []) 0 (Some 0) [1; 2] 4) as Hv
    by (apply vec_at_one_vector; simpl; lia).
  split; [exact Hv|].
  destruct (proj2 (PopBack_removes_last 0 (Some 0) [1; 2] 4 _ Hv) [1] 2 eq_refl)
    as (w' & Hrun & Hv' & Htr & _).
  exists w'. split; [exact Hrun|]. split; [exact Hv'|exact Htr].
Defined.

Lemma PushBack_then_PopBack_restores_witness :
  vec_at (one_vector 0 0 [1; 2] 2 []) 0 (Some 0) [1; 2] 2 ∧
  heap_ok (one_vector 0 0 [1; 2] 2 []) ∧
  faults (one_vector 0 0 [1; 2] 2 []) = [] ∧
  ∃ w1 w2,
    PushBack_with (H:=Counted) 0 (CopyOf 3) (one_vector 0 0 [1; 2] 2 []) = Ret () w1 ∧
    PopBack 0 w1 = Ret () w2 ∧
    elems w2 0 = Some [1; 2] ∧ capacity_of w2 0 = Some 4.
Proof.
  assert (vec_at (one_vector 0 0 [1; 2] 2 []) 0 (Some 0) [1; 2] 2) as Hv
    by (apply vec_at_one_vector; simpl; lia).
  assert (heap_ok (one_vector 0 0 [1; 2] 2 [])) as Hok
    by (apply heap_okb_ok; vm_compute; reflexivity).
  split; [exact Hv|]. split; [exact Hok|]. split; [reflexivity|].
  destruct (PushBack_then_PopBack_restores (H:=Counted) 0 (CopyOf 3) (Some 0) [1; 2] 2 _
              Hv Hok eq_refl)
    as (w1 & w2 & Hrun1 & Hrun2 & Hel & _ & Hcap & _).
  exists w1, w2. split; [exact Hrun1|]. split; [exact Hrun2|].
  split; [exact Hel|exact Hcap].
Defined.

Lemma Erase_removes_element_witness :
  vec_at (one_vector 0 0 [1; 2; 3] 4 []) 0 (Some 0) ([1] ++ 2 :: [3]) 4 ∧
  (∃ w', Erase (H:=Plain) 0 1 (one_vector 0 0 [1; 2; 3] 4 []) = Ret 1 w' ∧
         elems w' 0 = Some [1; 3] ∧
         trace w' = [EvDtor 2; EvAssign 3] ∧
         peek (Ptr (Some 0) 1) w' = Ret 3 w') ∧
  Erase (H:=Counted) 0 1 (one_vector 0 0 [1; 2; 3] 4 []) = Undef.
Proof.
  assert (vec_at (one_vector 0 0 [1; 2; 3] 4 []) 0 (Some 0) ([1] ++ 2 :: [3]) 4) as Hv
    by (apply (vec_at_one_vector 0 0 [1; 2; 3] 4 []); simpl; lia).
  assert ([3] ≠ []) as Hne by discriminate.
  split; [exact Hv|]. split.
  - destruct (proj1 (Erase_removes_element (H:=Plain) 0 0 [1] 2 [3] 4 _ Hv)
                (or_intror eq_refl) eq_refl)
      as (w' & Hrun & Hel & _ & _ & Htr & _ & Hpeek).
    exists w'. split; [exact Hrun|]. split; [exact Hel|].
    split; [exact Htr|exact Hpeek].
  - exact (proj2 (proj2 (Erase_removes_element (H:=Counted) 0 0 [1] 2 [3] 4 _ Hv)
                    Hne eq_refl) eq_refl).
Defined.

Lemma Erase_edge_positions_witness :
  vec_at (one_vector 0 0 [1; 2] 4 []) 0 (Some 0) [1; 2] 4 ∧
  Erase (H:=Counted) 0 2 (one_vector 0 0 [1; 2] 4 []) = Undef ∧
  ∃ w', Erase (H:=Counted) 0 1 (one_vector 0 0 [1; 2] 4 []) = Ret 1 w' ∧
        PopBack 0 (one_vector 0 0 [1; 2] 4 []) = Ret () w'.
Proof.
  assert (vec_at (one_vector 0 0 [1; 2] 4 []) 0 (Some 0) [1; 2] 4) as Hv
    by (apply vec_at_one_vector; simpl; lia).
  split; [exact Hv|].
  destruct (Erase_edge_positions (H:=Counted) 0 (Some 0) [1; 2] 4 _ Hv) as [Hend Hlast].
  assert (length [1; 2] ≤ 2) as Hpos by (simpl; lia).
  split; [exact (Hend 2 Hpos)|].
  destruct (Hlast [1] 2 eq_refl) as (w' & Hrun & Hpop & _).
  exists w'. split; [exact Hrun|exact Hpop].
Defined.


Lemma allocation_failure_changes_nothing_witness :
  vec_at (one_vector 0 0 [1] 1 [true]) 0 (Some 0) [1] 1 ∧
  faults (one_vector 0 0 [1] 1 [true]) = [true] ∧
  PushBack_with (H:=Counted) 0 (CopyOf 2) (one_vector 0 0 [1] 1 [true]) =
    Exn (one_vector 0 0 [1] 1 []) ∧
  Reserve (H:=Counted) 0 8 (one_vector 0 0 [1] 1 [true]) =
    Exn (one_vector 0 0 [1] 1 []).
Proof.
  assert (vec_at (one_vector 0 0 [1] 1 [true]) 0 (Some 0) [1] 1) as Hv
    by (apply vec_at_one_vector; simpl; lia).
  split; [exact Hv|]. split; [reflexivity|].
  destruct (allocation_failure_changes_nothing (H:=Counted) 0 (Some 0) [1] 1 [] _
              Hv eq_refl) as (Hres & _ & Hpush & _).
  assert (1 < 8) as Hn by lia.
  split; [exact (Hpush eq_refl (CopyOf 2))|exact (Hres 8 Hn)].
Defined.

Lemma Reserve_then_appends_keep_buffer_witness :
  vec_at (one_vector 0 0 [1] 1 []) 0 (Some 0) [1] 1 ∧
  heap_ok (one_vector 0 0 [1] 1 []) ∧
  faults (one_vector 0 0 [1] 1 []) = [] ∧ 1 < 4 ∧ request_fits (H:=Counted) 4 ∧
  length [1] + length [2; 3] ≤ 4 ∧
  ∃ w1 w2,
    Reserve (H:=Counted) 0 4 (one_vector 0 0 [1] 1 []) = Ret () w1 ∧
    appends (H:=Counted) 0 [2; 3] w1 = Ret () w2 ∧
    vec_at w1 0 (Some 1) [1] 4 ∧ vec_at w2 0 (Some 1) [1; 2; 3] 4 ∧
    trace w2 = trace w1 ++ [EvCopy 2; EvCopy 3].
Proof.
  assert (vec_at (one_vector 0 0 [1] 1 []) 0 (Some 0) [1] 1) as Hv
    by (apply vec_at_one_vector; simpl; lia).
  assert (heap_ok (one_vector 0 0 [1] 1 [])) as Hok
    by (apply heap_okb_ok; vm_compute; reflexivity).
  assert (1 < 4) as Hn by lia.
  assert (length [1] + length [2; 3] ≤ 4) as Hfit by (simpl; lia).
  assert (request_fits (H:=Counted) 4) as Hsz
    by (apply request_fitsb_fits; vm_compute; reflexivity).
  split; [exact Hv|]. split; [exact Hok|]. split; [reflexivity|].
  split; [exact Hn|]. split; [exact Hsz|]. split; [exact Hfit|].
  destruct (Reserve_then_appends_keep_buffer (H:=Counted) 0 (Some 0) [1] 1 4 [2; 3] _
              Hv Hok eq_refl Hn Hsz Hfit)
    as (w1 & w2 & Hrun1 & Hrun2 & Hv1 & Hv2 & Htr & _).
  exists w1, w2. split; [exact Hrun1|]. split; [exact Hrun2|].
  split; [exact Hv1|]. split; [exact Hv2|exact Htr].
Defined.

Lemma Emplace_then_lookup_witness :
  vec_at (one_vector 0 0 [1; 2] 2 []) 0 (Some 0) [1; 2] 2 ∧
  heap_ok (one_vector 0 0 [1; 2] 2 []) ∧ 1 ≤ length [1; 2] ∧
  faults (one_vector 0 0 [1; 2] 2 []) = [] ∧
  ∃ w', Emplace (H:=Counted) 0 1 (CopyOf 9) (one_vector 0 0 [1; 2] 2 []) = Ret 1 w' ∧
        deref (Index 0 0) w' = Ret 1 w' ∧ deref (Index 0 1) w' = Ret 9 w' ∧
        deref (Index 0 2) w' = Ret 2 w'.
Proof.
  assert (vec_at (one_vector 0 0 [1; 2] 2 []) 0 (Some 0) [1; 2] 2) as Hv
    by (apply vec_at_one_vector; simpl; lia).
  assert (heap_ok (one_vector 0 0 [1; 2] 2 [])) as Hok
    by (apply heap_okb_ok; vm_compute; reflexivity).
  assert (1 ≤ length [1; 2]) as Hpos by (simpl; lia).
  split; [exact Hv|]. split; [exact Hok|]. split; [exact Hpos|]. split; [reflexivity|].
  destruct (Emplace_then_lookup (H:=Counted) 0 1 (CopyOf 9) (Some 0) [1; 2] 2 _
              Hv Hok Hpos eq_refl)
    as (w' & Hrun & _ & Hat & Hbefore & Hafter & _).
  assert (0 < 1) as H01 by lia. assert (1 ≤ 1) as H11 by lia.
  exists w'. split; [exact Hrun|]. split; [exact (Hbefore 0 1 H01 eq_refl)|].
  split; [exact Hat|exact (Hafter 1 2 H11 eq_refl)].
Defined.

Lemma calls_refine_list_witness :
  vec_at (one_vector 0 0 [7] 1 []) 0 (Some 0) [7] 1 ∧
  heap_ok (one_vector 0 0 [7] 1 []) ∧
  faults (one_vector 0 0 [7] 1 []) = [] ∧
  list_ops (H:=Counted)
    [OpPushBack (CopyOf 1); OpEmplace 0 (CopyOf 2); OpPopBack; OpReserve 5; OpResize 4]
    [7] 1 = Some ([2; 7; 0; 0], 5) ∧
  ∃ w', run_ops (H:=Counted) 0
          [OpPushBack (CopyOf 1); OpEmplace 0 (CopyOf 2); OpPopBack; OpReserve 5;
           OpResize 4] (one_vector 0 0 [7] 1 []) = Ret () w' ∧
        Size 0 w' = Ret 4 w' ∧ Capacity 0 w' = Ret 5 w' ∧
        elems w' 0 = Some [2; 7; 0; 0] ∧ lost w' = [].
Proof.
  assert (vec_at (one_vector 0 0 [7] 1 []) 0 (Some 0) [7] 1) as Hv
    by (apply vec_at_one_vector; simpl; lia).
  assert (heap_ok (one_vector 0 0 [7] 1 [])) as Hok
    by (apply heap_okb_ok; vm_compute; reflexivity).
  split; [exact Hv|]. split; [exact Hok|]. split; [reflexivity|].
  split; [reflexivity|].
  destruct (calls_refine_list (H:=Counted) 0
              [OpPushBack (CopyOf 1); OpEmplace 0 (CopyOf 2); OpPopBack; OpReserve 5;
               OpResize 4]
              (Some 0) [7] 1 [2; 7; 0; 0] 5 _ Hv Hok eq_refl eq_refl)
    as (w' & Hrun & Hsz & Hcap & _ & Hel & _ & _ & _ & Hl & _).
  exists w'. split; [exact Hrun|]. split; [exact Hsz|]. split; [exact Hcap|].
  split; [exact Hel|exact Hl].
Defined.

Lemma failed_call_retains_no_block_witness :
  PushBack_with (H:=Counted) 0 (CopyOf 2) (one_vector 0 0 [1] 1 [false; false; true]) =
    Exn (World {[ 0 := [Some 1] ]} 2
               {[ 0 := mkVector (mkRawMemory (Some 0) 1) 1 ]} [] [2]
               [EvAlloc 1 2; EvCopy 2; EvFree 1]) ∧
  dom (heap (World {[ 0 := [Some 1] ]} 2
                   {[ 0 := mkVector (mkRawMemory (Some 0) 1) 1 ]} [] [2]
                   [EvAlloc 1 2; EvCopy 2; EvFree 1])) ⊆
    dom (heap (one_vector 0 0 [1] 1 [false; false; true])).
Proof.
  assert (PushBack_with (H:=Counted) 0 (CopyOf 2)
            (one_vector 0 0 [1] 1 [false; false; true]) =
          Exn (World {[ 0 := [Some 1] ]} 2
                     {[ 0 := mkVector (mkRawMemory (Some 0) 1) 1 ]} [] [2]
                     [EvAlloc 1 2; EvCopy 2; EvFree 1])) as Hrun
    by (vm_compute; reflexivity).
  split; [exact Hrun|].
  exact (failed_call_retains_no_block (H:=Counted) 0 1 2 _ _
           (or_intror (or_introl (ex_intro _ (CopyOf 2) Hrun)))).
Defined.

Lemma lifetime_leaves_no_block_witness :
  objs empty_world !! 0 = None ∧ heap_ok empty_world ∧ faults empty_world = [] ∧
  list_ops (H:=Counted)
    [OpPushBack (CopyOf 1); OpEmplace 0 (CopyOf 2); OpResize 5; OpPopBack] [] 0 =
    Some ([2; 1; 0; 0], 5) ∧
  ∃ w', (Vector_default 0 >>>
         run_ops (H:=Counted) 0
           [OpPushBack (CopyOf 1); OpEmplace 0 (CopyOf 2); OpResize 5; OpPopBack] >>>
         Vector_dtor 0) empty_world = Ret () w' ∧
        dom (heap w') ⊆ dom (heap empty_world) ∧ objs w' = objs empty_world ∧
        lost w' = lost empty_world.
Proof.
  assert (heap_ok empty_world) as Hok by (apply heap_okb_ok; vm_compute; reflexivity).
  split; [reflexivity|]. split; [exact Hok|]. split; [reflexivity|].
  split; [reflexivity|].
  exact (lifetime_leaves_no_block (H:=Counted) 0
           [OpPushBack (CopyOf 1); OpEmplace 0 (CopyOf 2); OpResize 5; OpPopBack]
           [2; 1; 0; 0] 5 empty_world eq_refl Hok eq_refl eq_refl).
Defined.

Lemma Reserve_never_shrinks_witness :
  vec_at (one_vector 0 0 [1; 2] 4 []) 0 (Some 0) [1; 2] 4 ∧
  heap_ok (one_vector 0 0 [1; 2] 4 []) ∧
  Reserve (H:=Counted) 0 3 (one_vector 0 0 [1; 2] 4 []) =
    Ret () (one_vector 0 0 [1; 2] 4 []) ∧
  ∃ w', Reserve (H:=Counted) 0 9 (one_vector 0 0 [1; 2] 4 []) = Ret () w' ∧
        capacity_of w' 0 = Some 9 ∧ elems w' 0 = Some [1; 2] ∧
        Reserve (H:=Counted) 0 9 w' = Ret () w'.
Proof.
  assert (vec_at (one_vector 0 0 [1; 2] 4 []) 0 (Some 0) [1; 2] 4) as Hv
    by (apply vec_at_one_vector; simpl; lia).
  assert (heap_ok (one_vector 0 0 [1; 2] 4 [])) as Hok
    by (apply heap_okb_ok; vm_compute; reflexivity).
  split; [exact Hv|]. split; [exact Hok|].
  assert (3 ≤ 4) as Hfit by lia.
  split; [exact (proj1 (Reserve_never_shrinks (H:=Counted) 0 (Some 0) [1; 2] 4 3 _ Hv Hok)
                   Hfit)|].
  assert (request_fits (H:=Counted) 9) as Hsz
    by (apply request_fitsb_fits; vm_compute; reflexivity).
  destruct (proj2 (Reserve_never_shrinks (H:=Counted) 0 (Some 0) [1; 2] 4 9 _ Hv Hok)
              eq_refl (or_intror Hsz)) as (w' & Hrun & Hcap & Hel & _ & Hidem).
  exists w'. split; [exact Hrun|]. split; [exact Hcap|]. split; [exact Hel|exact Hidem].
Defined.

Lemma Resize_failure_keeps_elements_witness :
  vec_at (one_vector 0 0 [1] 1 [false; false; true]) 0 (Some 0) [1] 1 ∧
  heap_ok (one_vector 0 0 [1] 1 [false; false; true]) ∧ length [1] < 3 ∧
  Resize (H:=Counted) 0 3 (one_vector 0 0 [1] 1 [false; false; true]) =
    Exn (World {[ 1 := [Some 1; None; None] ]} 2
               {[ 0 := mkVector (mkRawMemory (Some 1) 3) 1 ]} [] []
               [EvAlloc 1 3; EvCopy 1; EvDtor 1; EvFree 0]) ∧
  elems (World {[ 1 := [Some 1; None; None] ]} 2
               {[ 0 := mkVector (mkRawMemory (Some 1) 3) 1 ]} [] []
               [EvAlloc 1 3; EvCopy 1; EvDtor 1; EvFree 0]) 0 = Some [1] ∧
  size_of (World {[ 1 := [Some 1; None; None] ]} 2
                 {[ 0 := mkVector (mkRawMemory (Some 1) 3) 1 ]} [] []
                 [EvAlloc 1 3; EvCopy 1; EvDtor 1; EvFree 0]) 0 = Some (length [1]).
Proof.
  assert (vec_at (one_vector 0 0 [1] 1 [false; false; true]) 0 (Some 0) [1] 1) as Hv
    by (apply vec_at_one_vector; simpl; lia).
  assert (heap_ok (one_vector 0 0 [1] 1 [false; false; true])) as Hok
    by (apply heap_okb_ok; vm_compute; reflexivity).
  assert (length [1] < 3) as Hn by (simpl; lia).
  assert (Resize (H:=Counted) 0 3 (one_vector 0 0 [1] 1 [false; false; true]) =
          Exn (World {[ 1 := [Some 1; None; None] ]} 2
                     {[ 0 := mkVector (mkRawMemory (Some 1) 3) 1 ]} [] []
                     [EvAlloc 1 3; EvCopy 1; EvDtor 1; EvFree 0])) as Hrun
    by (vm_compute; reflexivity).
  split; [exact Hv|]. split; [exact Hok|]. split; [exact Hn|]. split; [exact Hrun|].
  assert (request_fits (H:=Counted) 3) as Hfit
    by (apply request_fitsb_fits; vm_compute; reflexivity).
  destruct (proj2 (Resize_failure_keeps_elements (H:=Counted) 0 (Some 0) [1] 1 3 _ _
                     Hv Hok Hn Hrun) eq_refl (or_intror Hfit)) as (Hel & Hsz & _).
  split; [exact Hel|exact Hsz].
Defined.

Lemma RawMemory_acquire_release_witness :
  heap_ok empty_world ∧ request_fits (H:=Counted) 3 ∧
  ∃ w1 w2,
    RawMemory_ctor (T:=nat) 3 empty_world = Ret (mkRawMemory (Some 0) 3) w1 ∧
    RawMemory_dtor (mkRawMemory (Some 0) 3) w1 = Ret () w2 ∧
    heap w2 = heap empty_world ∧ trace w2 = [EvAlloc 0 3; EvFree 0].
Proof.
  assert (heap_ok empty_world) as Hok by (apply heap_okb_ok; vm_compute; reflexivity).
  assert (request_fits (H:=Counted) 3) as Hfit
    by (apply request_fitsb_fits; vm_compute; reflexivity).
  split; [exact Hok|]. split; [exact Hfit|].
  destruct (RawMemory_acquire_release (H:=Counted) 3 empty_world Hok) as (_ & _ & Hrt & _).
  assert (3 ≠ 0) as Hn by discriminate.
  destruct (Hrt Hn Hfit eq_refl) as (w1 & w2 & Hctor & _ & _ & Hdtor & Hh & _ & Htr).
  exists w1, w2. split; [exact Hctor|]. split; [exact Hdtor|]. split; [exact Hh|exact Htr].
Defined.

Lemma appends_cost_is_linear_witness :
  heap_ok empty_world ∧ faults empty_world = [] ∧
  ∃ w', (Vector_default 0 >>> appends (H:=Counted) 0 [1; 2; 3; 4; 5]) empty_world =
          Ret () w' ∧
        elems w' 0 = Some [1; 2; 3; 4; 5] ∧
        constructions (trace w') < constructions (trace empty_world) + 3 * 5.
Proof.
  assert (heap_ok empty_world) as Hok by (apply heap_okb_ok; vm_compute; reflexivity).
  split; [exact Hok|]. split; [reflexivity|].
  destruct (appends_cost_is_linear (H:=Counted) 0 [1; 2; 3; 4; 5] empty_world Hok eq_refl)
    as (w' & Hrun & Hel & _ & Hlt).
  assert ([1; 2; 3; 4; 5] ≠ []) as Hne by discriminate.
  exists w'. split; [exact Hrun|]. split; [exact Hel|exact (Hlt Hne)].
Defined.

Lemma PushBack_nothrow_move_strong_guarantee_witness :
  vec_at (one_vector 0 0 [1] 1 [false; true]) 0 (Some 0) [1] 1 ∧
  heap_ok (one_vector 0 0 [1] 1 [false; true]) ∧
  is_nothrow_move_constructible (ElemType:=Plain) = true ∧
  PushBack (H:=Plain) 0 2 (one_vector 0 0 [1] 1 [false; true]) =
    Exn (World {[ 0 := [Some 1] ]} 2
               {[ 0 := mkVector (mkRawMemory (Some 0) 1) 1 ]} [] []
               [EvAlloc 1 2; EvFree 1]) ∧
  lost (World {[ 0 := [Some 1] ]} 2
              {[ 0 := mkVector (mkRawMemory (Some 0) 1) 1 ]} [] []
              [EvAlloc 1 2; EvFree 1]) = [] ∧
  elems (World {[ 0 := [Some 1] ]} 2
               {[ 0 := mkVector (mkRawMemory (Some 0) 1) 1 ]} [] []
               [EvAlloc 1 2; EvFree 1]) 0 = Some [1].
Proof.
  assert (vec_at (one_vector 0 0 [1] 1 [false; true]) 0 (Some 0) [1] 1) as Hv
    by (apply vec_at_one_vector; simpl; lia).
  assert (heap_ok (one_vector 0 0 [1] 1 [false; true])) as Hok
    by (apply heap_okb_ok; vm_compute; reflexivity).
  assert (PushBack (H:=Plain) 0 2 (one_vector 0 0 [1] 1 [false; true]) =
          Exn (World {[ 0 := [Some 1] ]} 2
                     {[ 0 := mkVector (mkRawMemory (Some 0) 1) 1 ]} [] []
                     [EvAlloc 1 2; EvFree 1])) as Hrun
    by (vm_compute; reflexivity).
  split; [exact Hv|]. split; [exact Hok|]. split; [reflexivity|]. split; [exact Hrun|].
  destruct (proj1 (PushBack_nothrow_move_strong_guarantee (H:=Plain) 0 (Some 0) [1] 1 _
                     Hv Hok eq_refl) (CopyOf 2) _ Hrun) as (_ & _ & Hl & Hel).
  split; [exact Hl|exact Hel].
Defined.
